(** * Myia: parser block functions, debug VM and shape inference

    A shallow embedding of the parts of [myia/parser.py], [myia/vm.py] and
    [myia/prim/shape_inferrers.py] that carry the front end's contracts:
    variable resolution through phi nodes, the frame stack of the VM and
    the shape rules of [if_] and [distribute].

    Python objects with identity (nodes, graphs, blocks) are indices into
    stores; exceptions are an error value threaded next to the store. *)

From stdpp Require Import gmap strings list fin_maps.
From Stdlib Require Import ZArith Lia.

Local Open Scope string_scope.
Local Open Scope list_scope.

(** ** Exceptions and results *)

(** The Python exceptions the embedded code can raise.  [OutOfFuel] and
    [Dangling] are not Python exceptions: the first marks a recursion the
    model cut short, the second an index that names no object of a store
    (a Python reference always names one). *)
Inductive exn :=
| AssertionError (msg : string)
| KeyError
| IndexError
| ValueError
| TypeError
| AttributeError
| RuntimeError (msg : string)
| NotImplementedError
| MyiaShapeError (msg : string)
| OutOfFuel
| Dangling.

Inductive res (A : Type) :=
| Ok (a : A)
| Err (e : exn).
Arguments Ok {A} a.
Arguments Err {A} e.

Definition res_bind {A B} (m : res A) (f : A → res B) : res B :=
  match m with
  | Ok a => f a
  | Err e => Err e
  end.

Declare Scope res_scope.
Delimit Scope res_scope with res.
Notation "'let?' x := m 'in' k" := (res_bind m (fun x => k))
  (at level 10, x name, m at level 100, k at level 200) : res_scope.

(** ** The IR: primitives, namespaces and ANF nodes *)

Abbreviation node_id := nat (only parsing).
Abbreviation graph_id := nat (only parsing).

(** [myia.prim.ops]: the primitives the parser and the VM name, and the
    rest of the catalog by name. *)
Module primops.
Inductive Primitive :=
| if_
| return_
| partial
| resolve
| cons_tuple
| prim (name : string).
End primops.
Abbreviation Primitive := primops.Primitive.

Global Instance Primitive_eq_dec : EqDecision Primitive.
Proof. solve_decision. Defined.

(** [myia.utils]: [ClosureNamespace] is built from a function object,
    here the function's identity. *)
Inductive Namespace :=
| ModuleNamespace (module_id : string)
| ClosureNamespace (function_id : positive).

Global Instance Namespace_eq_dec : EqDecision Namespace.
Proof. solve_decision. Defined.

(** Values a [Constant] is built with. *)
Inductive const_value :=
| CInt (n : Z)
| CStr (s : string)
| CBool (b : bool)
| CNone
| CEmptyTuple
| CPrim (p : Primitive)
| CGraph (g : graph_id)
| CNamespace (ns : Namespace).

Global Instance const_value_eq_dec : EqDecision const_value.
Proof. solve_decision. Defined.

Inductive ANFNode :=
| Apply (inputs : list node_id) (graph : graph_id)
| Constant (value : const_value)
| Parameter_ (graph : graph_id)
| Special (tag : string).

Global Instance ANFNode_eq_dec : EqDecision ANFNode.
Proof. solve_decision. Defined.

(** A [Graph]: its parameter list and its return node, unset at first.
    Debug information is left out throughout. *)
Record Graph := mkGraph {
  parameters : list node_id;
  return_ : option node_id;
}.

(** [is_constant] and [is_constant_graph] of [myia/ir/utils.py]. *)
Definition is_constant (x : ANFNode) : bool :=
  match x with Constant _ => true | _ => false end.

Definition is_constant_graph (x : ANFNode) : bool :=
  match x with Constant (CGraph _) => true | _ => false end.

(** ** Shape inference ([myia/prim/shape_inferrers.py]) *)

Module Shape.
Local Open Scope res_scope.
Local Open Scope Z_scope.

(** One entry of a shape tuple: a known extent or [ANYTHING]. *)
Inductive dim :=
| ANYTHING
| Dim (n : Z).

Global Instance dim_eq_dec : EqDecision dim.
Proof. solve_decision. Defined.

Definition shape := list dim.

(** Values of the ['value'] track that the two rules look at. *)
Inductive aval :=
| AVTrue
| AVFalse
| AVAnything
| AVInt (n : Z)
| AVTuple (elts : shape).

(** Values of the ['type'] track: only tuples (with their [elements]) and
    [Array] are told apart. *)
Inductive atype :=
| TScalar
| TTuple (elements : list atype)
| Array (elem : atype).

Definition is_Array (t : atype) : bool :=
  match t with Array _ => true | _ => false end.

(** [v not in (1, ANYTHING)]. *)
Definition not_in_1_ANYTHING (d : dim) : bool :=
  negb (bool_decide (d = Dim 1) || bool_decide (d = ANYTHING)).

(** Body of the [for vs, s in zip(v_shp, shp)] loop of
    [infer_shape_distribute]. *)
Definition distribute_clash (vs s : dim) : bool :=
  negb (bool_decide (vs = s)) && not_in_1_ANYTHING vs && not_in_1_ANYTHING s.

Fixpoint distribute_check (v_shp shp : shape) : res unit :=
  match v_shp, shp with
  | vs :: v_shp', s :: shp' =>
      if distribute_clash vs s
      then Err (MyiaShapeError "Cannot change shape when distributing")
      else distribute_check v_shp' shp'
  | _, _ => Ok tt
  end.

(** What [len(x)] does on a ['value'] track value. *)
Definition aval_len (v : aval) : res nat :=
  match v with
  | AVTuple elts => Ok (length elts)
  | _ => Err TypeError
  end.

Definition aval_elts (v : aval) : shape :=
  match v with
  | AVTuple elts => elts
  | _ => []
  end.

(** [shp_t.elements]. *)
Definition elements (t : atype) : res (list atype) :=
  match t with
  | TTuple elts => Ok elts
  | _ => Err AttributeError
  end.

(** An inference reference as the rules see it: what awaiting [x['shape']],
    [x['value']] and [x['type']] gives.  [S] is the type of shape-track
    values. *)
Record ref (S : Type) := Ref {
  r_shape : res S;
  r_value : res aval;
  r_type : res atype;
}.
Arguments Ref {S}.
Arguments r_shape {S}.
Arguments r_value {S}.
Arguments r_type {S}.

Definition infer_shape_distribute (v shape : ref shape) : res aval :=
  let? shp := r_value shape in
  let? shp :=
    match shp with
    | AVAnything =>
        let? shp_t := r_type shape in
        let? elts := elements shp_t in
        Ok (AVTuple (replicate (length elts) ANYTHING))
    | _ => Ok shp
    end in
  let? v_t := r_type v in
  let? _ :=
    if is_Array v_t then
      let? v_shp := r_shape v in
      let? n := aval_len shp in
      if bool_decide (n < length v_shp)%nat
      then Err (MyiaShapeError "Cannot distribute to smaller shape")
      else distribute_check v_shp (aval_elts shp)
    else Ok tt in
  Ok shp.

(** The shape [distribute] hands back: the value of its second argument,
    or as many [ANYTHING] as that argument's tuple type has elements. *)
Definition distribute_target (value : aval) (elts : list atype) : aval :=
  match value with
  | AVAnything => AVTuple (replicate (length elts) ANYTHING)
  | _ => value
  end.

(** The broadcast rule as the specification words it: an extent of [v]
    that is neither 1 nor [ANYTHING] differs from the target extent, and
    the target extent is not [ANYTHING]. *)
Definition spec_violation (vs s : dim) : Prop :=
  vs ≠ Dim 1 ∧ vs ≠ ANYTHING ∧ vs ≠ s ∧ s ≠ ANYTHING.

Section If.
(** The result type of the branch inferrers. *)
Context {S : Type}.

(** A branch inferrer is called with no argument: it is modelled by
    what that call returns. *)
Definition inferrer := res S.

(** The two notions [engine.assert_same] rests on. *)
Variable compatible : S → S → bool.
Variable unified : S → S → S.

(** Modelled from the spec: [engine.assert_same] of [myia/infer], which
    is not among the sources.  "Assert-same unifies two abstract shapes,
    raising ShapeMismatch on incompatibility"; a branch that fails makes
    the whole rule fail. *)
Definition assert_same (a b : res S) : res S :=
  let? x := a in
  let? y := b in
  if compatible x y then Ok (unified x y)
  else Err (MyiaShapeError "shape mismatch").

Definition infer_shape_if (cond tb fb : ref inferrer) : res S :=
  let? tb_inf := r_shape tb in
  let? fb_inf := r_shape fb in
  let? v := r_value cond in
  match v with
  | AVTrue => tb_inf
  | AVFalse => fb_inf
  | AVAnything => assert_same tb_inf fb_inf
  | _ => Err (AssertionError "Invalid condition value for if.")
  end.
End If.

End Shape.

(** ** The debug VM ([myia/vm.py]) *)

Module VM.
Local Open Scope res_scope.

(** Run-time values: what a [Constant] holds, tuples built by primitives,
    and the VM's own [Closure] and [Partial] objects. *)
Inductive value :=
| VConst (c : const_value)
| VTuple (elts : list value)
| Closure (graph : graph_id) (values : option (gmap node_id value))
| Partial (graph : graph_id) (args : list value).

Record VMFrame := mkFrame {
  values : gmap node_id value;
  todo : list node_id;
  closure : option (gmap node_id value);
}.

Definition set_values (f : VMFrame) (vs : gmap node_id value) : VMFrame :=
  mkFrame vs (todo f) (closure f).

Definition set_todo (f : VMFrame) (t : list node_id) : VMFrame :=
  mkFrame (values f) t (closure f).

(** What leaves [_handle_node]: it falls through, or raises one of the
    two control signals, or a real exception. *)
Inductive signal :=
| Normal
| _Call (frame : VMFrame)
| _Return (v : value)
| Raise (e : exn).

(** Python truth of a value, for [if args[0]:]. *)
Definition truthy (v : value) : bool :=
  match v with
  | VConst (CBool b) => b
  | VConst (CInt n) => negb (bool_decide (n = 0%Z))
  | VConst (CStr s) => negb (bool_decide (s = ""))
  | VConst CNone => false
  | VConst CEmptyTuple => false
  | VTuple elts => negb (bool_decide (elts = []))
  | _ => true
  end.

Section Machine.
(** The graphs under evaluation are frozen: the node store and the
    parameter lists are read only. *)
Variable nodes : gmap node_id ANFNode.
Variable graphs : graph_id → Graph.

(** [toposort(graph.return_, self._succ_vm, fvb(graph, False))]; the
    sort itself lives in [myia/graph_utils.py]. *)
Variable toposort_vm : graph_id → list node_id.

(** [self._vars[g]]: the free variables of [g] once the graph is
    acquired. *)
Variable _vars : graph_id → list node_id.

(** [self.implementations[fn](self, *args)]. *)
Variable implementations : Primitive → list value → res value.

(** [self.py_implementations[prim]] and [self.convert]. *)
Variable py_implementations : Primitive → value.
Variable convert : list value → list value.

(** [VMFrame.__init__]: the nodes reversed, so that the last entry of
    [todo] is the next node to run. *)
Definition new_frame (nodes : list node_id)
    (closure : option (gmap node_id value)) : VMFrame :=
  mkFrame ∅ (reverse nodes) closure.

(** [VMFrame.__getitem__]. *)
Definition frame_get (frame : VMFrame) (node : node_id) : res value :=
  match values frame !! node with
  | Some v => Ok v
  | None =>
      match closure frame ≫= (.!! node) with
      | Some v => Ok v
      | None =>
          match nodes !! node with
          | Some (Constant c) => Ok (VConst c)
          | _ => Err ValueError
          end
      end
  end.

Fixpoint frame_get_all (frame : VMFrame) (ns : list node_id) : res (list value) :=
  match ns with
  | [] => Ok []
  | n :: ns' =>
      let? v := frame_get frame n in
      let? vs := frame_get_all frame ns' in
      Ok (v :: vs)
  end.

(** [_set_node_value]; the [on_node_value] event only notifies
    observers and is left out. *)
Definition _set_node_value (frame : VMFrame) (node : node_id) (v : value) : VMFrame :=
  set_values frame (<[node := v]> (values frame)).

(** [for p, arg in zip(graph.parameters, args): _set_node_value(...)]. *)
Fixpoint bind_parameters (frame : VMFrame) (ps : list node_id) (args : list value) : VMFrame :=
  match ps, args with
  | p :: ps', a :: args' => bind_parameters (_set_node_value frame p a) ps' args'
  | _, _ => frame
  end.

(** [VM._call]: always leaves through a signal. *)
Definition _call (fn : value) (args : list value) : signal :=
  let '(clos, args, graph) :=
    match fn with
    | Closure g vs => (vs, args, Ok g)
    | Partial g pargs => (None, pargs ++ args, Ok g)
    | VConst (CGraph g) => (None, args, Ok g)
    | _ => (None, args, Err AttributeError)
    end in
  match graph with
  | Err e => Raise e
  | Ok g =>
      if bool_decide (length args ≠ length (parameters (graphs g)))
      then Raise (RuntimeError "Call with wrong number of arguments")
      else _Call (bind_parameters (new_frame (toposort_vm g) clos) (parameters (graphs g)) args)
  end.

(** [VM._make_closure]. *)
Fixpoint capture (frame : VMFrame) (vs : list node_id)
    (clos : gmap node_id value) : res (gmap node_id value) :=
  match vs with
  | [] => Ok clos
  | v :: vs' =>
      let? x := frame_get frame v in
      capture frame vs' (<[v := x]> clos)
  end.

Definition _make_closure (g : graph_id) (frame : VMFrame) : res value :=
  let? clos := capture frame (_vars g) ∅ in
  Ok (Closure g (Some clos)).

Definition in_closure (frame : VMFrame) (node : node_id) : bool :=
  match closure frame with
  | Some c => bool_decide (is_Some (c !! node))
  | None => false
  end.

(** [VM._handle_node]. *)
Definition _handle_node (node : node_id) (frame : VMFrame) : signal * VMFrame :=
  match nodes !! node with
  | Some (Constant c) =>
      if in_closure frame node then (Normal, frame)
      else
        match c with
        | CGraph g =>
            if bool_decide (length (_vars g) ≠ 0) then
              match _make_closure g frame with
              | Ok clos => (Normal, _set_node_value frame node clos)
              | Err e => (Raise e, frame)
              end
            else (Normal, frame)
        | _ => (Raise (AssertionError "is_constant_graph"), frame)
        end
  | Some (Parameter_ _) => (Normal, frame)
  | Some (Apply inputs _) =>
      match inputs with
      | [] => (Raise IndexError, frame)
      | callee :: rest =>
          match frame_get frame callee with
          | Err e => (Raise e, frame)
          | Ok fn =>
              match frame_get_all frame rest with
              | Err e => (Raise e, frame)
              | Ok args =>
                  match fn with
                  | VConst (CPrim p) =>
                      match p with
                      | primops.if_ =>
                          match args with
                          | [] => (Raise IndexError, frame)
                          | c :: branches =>
                              match branches !! (if truthy c then 0 else 1) with
                              | Some b => (_call b [], frame)
                              | None => (Raise IndexError, frame)
                              end
                          end
                      | primops.return_ =>
                          match args with
                          | [] => (Raise IndexError, frame)
                          | v :: _ => (_Return v, frame)
                          end
                      | primops.partial =>
                          match args with
                          | [] => (Raise ValueError, frame)
                          | partial_fn :: partial_args =>
                              match partial_fn with
                              | VConst (CGraph g) =>
                                  (Normal, _set_node_value frame node (Partial g partial_args))
                              | _ => (Raise (AssertionError "isinstance(partial_fn, Graph)"), frame)
                              end
                          end
                      | _ =>
                          match implementations p args with
                          | Ok r => (Normal, _set_node_value frame node r)
                          | Err e => (Raise e, frame)
                          end
                      end
                  | _ => (_call fn args, frame)
                  end
              end
          end
      end
  | _ => (Raise (AssertionError "Unknown node type"), frame)
  end.

(** The inner loop of [evaluate]:
    [while todo: self._handle_node(todo[-1], frame); todo.pop()].
    Every round that falls through pops one entry, so [length todo]
    rounds are enough. *)
Fixpoint run_todo_n (n : nat) (frame : VMFrame) : signal * VMFrame :=
  match last (todo frame) with
  | None => (Normal, frame)
  | Some node =>
      match n with
      | 0 => (Raise OutOfFuel, frame)
      | S n' =>
          match _handle_node node frame with
          | (Normal, frame') => run_todo_n n' (set_todo frame' (removelast (todo frame')))
          | out => out
          end
      end
  end.

Definition run_todo (frame : VMFrame) : signal * VMFrame :=
  run_todo_n (length (todo frame)) frame.

(** [VM.export]. *)
Fixpoint export (v : value) : value :=
  match v with
  | VConst (CGraph g) => Closure g None
  | VConst (CPrim p) => py_implementations p
  | VTuple elts => VTuple (map export elts)
  | _ => v
  end.

(** [frames[-1] = x]. *)
Definition set_last (frames : list VMFrame) (x : VMFrame) : list VMFrame :=
  removelast frames ++ [x].

(** One round of [while frames:] in [evaluate]. *)
Inductive round :=
| Continue (frames : list VMFrame)
| Finished (r : res value).

Definition evaluate_round (frames : list VMFrame) : round :=
  match last frames with
  | None => Finished (Ok (VConst CNone))
  | Some frame =>
      let '(sig, frame) := run_todo frame in
      (* the frame object was updated in place *)
      let frames := set_last frames frame in
      match sig with
      | Normal => Continue frames
      | _Call c =>
          if bool_decide (length (todo frame) = 2)
          then Continue (set_last frames c)
          else Continue (frames ++ [c])
      | _Return r =>
          let frames := removelast frames in
          match last frames with
          | Some last_fr =>
              match last (todo last_fr) with
              | Some pending =>
                  let last_fr := _set_node_value last_fr pending r in
                  Continue (set_last frames (set_todo last_fr (removelast (todo last_fr))))
              | None => Finished (Err IndexError)
              end
          | None => Finished (Ok (export r))
          end
      | Raise e => Finished (Err e)
      end
  end.

Fixpoint evaluate_loop (fuel : nat) (frames : list VMFrame) : res value :=
  match fuel with
  | 0 => Err OutOfFuel
  | S fuel' =>
      match evaluate_round frames with
      | Continue frames' => evaluate_loop fuel' frames'
      | Finished r => r
      end
  end.

(** [VM.evaluate]. *)
Definition evaluate (fuel : nat) (graph : graph_id) (_args : list value)
    (closure : option (gmap node_id value)) : res value :=
  let args := convert _args in
  if bool_decide (length args ≠ length (parameters (graphs graph)))
  then Err (RuntimeError "Call with wrong number of arguments")
  else
    let top_frame :=
      bind_parameters (new_frame (toposort_vm graph) closure) (parameters (graphs graph)) args in
    evaluate_loop fuel [top_frame].

End Machine.
End VM.

(** ** The parser ([myia/parser.py]) *)

(** *** The Python AST the parser accepts *)

Module ast.
Inductive operator :=
| Add | Sub | Mult | Div | FloorDiv | Mod | Pow | MatMult
| LShift | RShift | BitAnd | BitOr | BitXor.

Inductive unaryop := UAdd | USub | Invert | Not.

Inductive cmpop := Eq | NotEq | Lt | Gt | LtE | GtE | Is | IsNot | In | NotIn.

(** [OtherExpr] stands for every expression class the parser has no
    [process_] method for. *)
Inductive expr :=
| BinOp (left : expr) (op : operator) (right : expr)
| UnaryOp (op : unaryop) (operand : expr)
| Compare (left : expr) (ops : list cmpop) (comparators : list expr)
| Name (id : string)
| Num (n : Z)
| Str (s : string)
| Call (func : expr) (args : list expr)
| NameConstant (value : option bool)
| Tuple (elts : list expr)
| Subscript (value : expr) (slice : expr)
| Index (value : expr)
| Attribute (value : expr) (attr : string)
| OtherExpr.

(** [OtherStmt] likewise for statements ([for], [pass], ...). *)
Inductive stmt :=
| FunctionDef (name : string) (args : list string) (body : list stmt)
| Return (value : option expr)
| Assign (targets : list expr) (value : expr)
| Expr (value : expr)
| If (test : expr) (body orelse : list stmt)
| While (test : expr) (body orelse : list stmt)
| OtherStmt.
End ast.

Module Parser.

Abbreviation block_id := nat (only parsing).

(** A [Block]: the bookkeeping of [Block.__init__]. *)
Record Block := mkBlock {
  matured : bool;
  variables : gmap string node_id;
  preds : list block_id;
  phi_nodes : gmap node_id string;
  jumps : gmap block_id node_id;
  graph : graph_id;
}.

(** The heap the parser works on, with the two mutable attributes of the
    [Parser] object ([block_map] and [graph]). *)
Record state := mkState {
  nodes : list ANFNode;
  graphs : list Graph;
  blocks : list Block;
  block_map : gmap block_id node_id;
  parser_graph : option graph_id;
}.

Definition empty_state : state := mkState [] [] [] ∅ None.

(** *** State and exceptions

    A computation returns a value or an exception, and in both cases the
    heap as it stands: an exception does not undo earlier writes. *)
Definition M (A : Type) : Type := state → res A * state.

Definition ret {A} (a : A) : M A := λ s, (Ok a, s).
Definition raise {A} (e : exn) : M A := λ s, (Err e, s).
Definition bind {A B} (m : M A) (f : A → M B) : M B :=
  λ s, match m s with
       | (Ok a, s') => f a s'
       | (Err e, s') => (Err e, s')
       end.

Declare Scope parser_scope.
Delimit Scope parser_scope with parser.
Notation "x <- m ;; k" := (bind m (fun x => k))
  (at level 100, m at next level, right associativity) : parser_scope.
Notation "m ;; k" := (bind m (fun _ => k))
  (at level 100, right associativity) : parser_scope.
Local Open Scope parser_scope.

Definition get : M state := λ s, (Ok s, s).
Definition put (s : state) : M unit := λ _, (Ok tt, s).

(** [assert c]. *)
Definition assert (c : bool) (msg : string) : M unit :=
  if c then ret tt else raise (AssertionError msg).

(** A dictionary or store access that raises [e] when nothing is there. *)
Definition lookup_or {A} (e : exn) (o : option A) : M A :=
  match o with
  | Some a => ret a
  | None => raise e
  end.

(** *** Stores *)

Definition set_nodes (s : state) (x : list ANFNode) : state :=
  mkState x (graphs s) (blocks s) (block_map s) (parser_graph s).
Definition set_graphs (s : state) (x : list Graph) : state :=
  mkState (nodes s) x (blocks s) (block_map s) (parser_graph s).
Definition set_blocks (s : state) (x : list Block) : state :=
  mkState (nodes s) (graphs s) x (block_map s) (parser_graph s).
Definition set_block_map (s : state) (x : gmap block_id node_id) : state :=
  mkState (nodes s) (graphs s) (blocks s) x (parser_graph s).
Definition set_parser_graph (s : state) (x : option graph_id) : state :=
  mkState (nodes s) (graphs s) (blocks s) (block_map s) x.

(** Constructing a node: [Apply(...)], [Constant(...)], [Parameter(...)]. *)
Definition new_node (n : ANFNode) : M node_id :=
  λ s, (Ok (length (nodes s)), set_nodes s (nodes s ++ [n])).

Definition get_node (n : node_id) : M ANFNode :=
  s <- get ;; lookup_or Dangling (nodes s !! n).

Definition get_graph (g : graph_id) : M Graph :=
  s <- get ;; lookup_or Dangling (graphs s !! g).

Definition update_graph (g : graph_id) (f : Graph → Graph) : M unit :=
  G <- get_graph g ;;
  s <- get ;; put (set_graphs s (<[g := f G]> (graphs s))).

Definition get_block (b : block_id) : M Block :=
  s <- get ;; lookup_or Dangling (blocks s !! b).

Definition update_block (b : block_id) (f : Block → Block) : M unit :=
  B <- get_block b ;;
  s <- get ;; put (set_blocks s (<[b := f B]> (blocks s))).

(** [Graph()]. *)
Definition new_graph : M graph_id :=
  λ s, (Ok (length (graphs s)), set_graphs s (graphs s ++ [mkGraph [] None])).

(** [Block(parser)]: a block with a graph of its own. *)
Definition new_block : M block_id :=
  g <- new_graph ;;
  λ s, (Ok (length (blocks s)),
        set_blocks s (blocks s ++ [mkBlock false ∅ [] ∅ ∅ g])).

(** [block.graph] and [block.graph.return_]. *)
Definition block_graph (b : block_id) : M graph_id :=
  B <- get_block b ;; ret (graph B).

Definition graph_return (b : block_id) : M (option node_id) :=
  g <- block_graph b ;; G <- get_graph g ;; ret (return_ G).

(** [block.graph.return_ = r]. *)
Definition set_return (b : block_id) (r : node_id) : M unit :=
  g <- block_graph b ;;
  update_graph g (λ G, mkGraph (parameters G) (Some r)).

(** [block.graph.parameters.append(p)]. *)
Definition append_parameter (b : block_id) (p : node_id) : M unit :=
  g <- block_graph b ;;
  update_graph g (λ G, mkGraph (parameters G ++ [p]) (return_ G)).

(** [assert block.graph.return_ is None; block.graph.return_ = r], the
    way every return node is installed. *)
Definition install_return (b : block_id) (r : node_id) : M unit :=
  old <- graph_return b ;;
  assert (bool_decide (old = None)) "graph.return_ is None" ;;
  set_return b r.

(** [block.preds.append(p)]. *)
Definition append_pred (b : block_id) (p : block_id) : M unit :=
  update_block b (λ B, mkBlock (matured B) (variables B) (preds B ++ [p])
                               (phi_nodes B) (jumps B) (graph B)).

(** [block.phi_nodes[phi] = varnum]. *)
Definition register_phi (b : block_id) (phi : node_id) (varnum : string) : M unit :=
  update_block b (λ B, mkBlock (matured B) (variables B) (preds B)
                               (<[phi := varnum]> (phi_nodes B)) (jumps B) (graph B)).

(** [block.jumps[target] = jump]. *)
Definition record_jump (b target : block_id) (jump : node_id) : M unit :=
  update_block b (λ B, mkBlock (matured B) (variables B) (preds B)
                               (phi_nodes B) (<[target := jump]> (jumps B)) (graph B)).

(** [block.matured = True]. *)
Definition set_matured (b : block_id) : M unit :=
  update_block b (λ B, mkBlock true (variables B) (preds B)
                               (phi_nodes B) (jumps B) (graph B)).

(** [block in parser.block_map] with [parser.block_map[block]], and
    [parser.block_map[block] = node]. *)
Definition block_function_of (block : block_id) : M (option node_id) :=
  s <- get ;; ret (block_map s !! block).

Definition remember_block_function (block : block_id) (node : node_id) : M unit :=
  s <- get ;; put (set_block_map s (<[block := node]> (block_map s))).

(** [parser.graph = g]. *)
Definition set_Parser_graph (g : graph_id) : M unit :=
  s <- get ;; put (set_parser_graph s (Some g)).

(** [jump.inputs.append(arg)]. *)
Definition append_input (n : node_id) (arg : node_id) : M unit :=
  x <- get_node n ;;
  match x with
  | Apply inputs g =>
      s <- get ;; put (set_nodes s (<[n := Apply (inputs ++ [arg]) g]> (nodes s)))
  | _ => raise AttributeError
  end.

(** [jump = pred.jumps[self]; jump.inputs.append(arg)]. *)
Definition append_jump_argument (pred self : block_id) (arg : node_id) : M unit :=
  P <- get_block pred ;;
  jump <- lookup_or KeyError (jumps P !! self) ;;
  append_input jump arg.

(** [_fresh]: a constant is copied, any other node is returned as it is. *)
Definition _fresh (node : node_id) : M node_id :=
  x <- get_node node ;;
  match x with
  | Constant v => new_node (Constant v)
  | _ => ret node
  end.

(** The attributes of a [Parser] that never change. *)
Record Parser := mkParser {
  function : positive;
  global_namespace : Namespace;
  closure_namespace : Namespace;
}.

(** [operator_ns], [builtins_ns] and [ast_map]. *)
Definition operator_ns : Namespace := ModuleNamespace "operator".
Definition builtins_ns : Namespace := ModuleNamespace "builtins".

Definition ast_map_operator (op : ast.operator) : Namespace * string :=
  (operator_ns,
   match op with
   | ast.Add => "add" | ast.Sub => "sub" | ast.Mult => "mul"
   | ast.Div => "truediv" | ast.FloorDiv => "floordiv" | ast.Mod => "mod"
   | ast.Pow => "pow" | ast.MatMult => "matmul" | ast.LShift => "lshift"
   | ast.RShift => "rshift" | ast.BitAnd => "and_" | ast.BitOr => "or_"
   | ast.BitXor => "xor"
   end).

Definition ast_map_unaryop (op : ast.unaryop) : Namespace * string :=
  (operator_ns,
   match op with
   | ast.UAdd => "pos" | ast.USub => "neg"
   | ast.Invert => "invert" | ast.Not => "not_"
   end).

(** [ast.NotIn] has no entry. *)
Definition ast_map_cmpop (op : ast.cmpop) : option (Namespace * string) :=
  match op with
  | ast.Eq => Some (operator_ns, "eq") | ast.NotEq => Some (operator_ns, "ne")
  | ast.Lt => Some (operator_ns, "lt") | ast.Gt => Some (operator_ns, "gt")
  | ast.LtE => Some (operator_ns, "le") | ast.GtE => Some (operator_ns, "ge")
  | ast.Is => Some (operator_ns, "is_") | ast.IsNot => Some (operator_ns, "is_not")
  | ast.In => Some (operator_ns, "contains")
  | ast.NotIn => None
  end.

(** [for x in xs: f x], for a list that the loop body does not change. *)
Definition for_each {A} (f : A → M unit) : list A → M unit :=
  fix go xs :=
    match xs with
    | [] => ret tt
    | x :: xs' => f x ;; go xs'
    end.

(** [[f x for x in xs]]. *)
Definition map_each {A B} (f : A → M B) : list A → M (list B) :=
  fix go xs :=
    match xs with
    | [] => ret []
    | x :: xs' => y <- f x ;; ys <- go xs' ;; ret (y :: ys)
    end.

(** *** Block methods *)

Section Blocks.
(** [name in namespace], the [__contains__] of [myia.utils.Namespace]. *)
Variable ns_contains : Namespace → string → bool.
Variable parser : Parser.

(** [Parser.get_block_function]. *)
Definition get_block_function (block : block_id) : M node_id :=
  known <- block_function_of block ;;
  match known with
  | Some c => _fresh c
  | None =>
      g <- block_graph block ;;
      node <- new_node (Constant (CGraph g)) ;;
      remember_block_function block node ;;
      ret node
  end.

(** [Block.write]. *)
Definition write (self : block_id) (varnum : string) (node : node_id) : M unit :=
  update_block self (λ B, mkBlock (matured B) (<[varnum := node]> (variables B))
                                  (preds B) (phi_nodes B) (jumps B) (graph B)).

(** [Block.make_resolve]: [self.graph.apply(primops.resolve,
    Constant(module_name), Constant(symbol_name))].  The two constants are
    built as arguments; [Graph.apply] (in [myia/ir/anf.py]) wraps the
    primitive in a constant of its own and builds the [Apply]. *)
Definition make_resolve (self : block_id) (module_name : Namespace)
    (symbol_name : string) : M node_id :=
  g <- block_graph self ;;
  ns <- new_node (Constant (CNamespace module_name)) ;;
  name <- new_node (Constant (CStr symbol_name)) ;;
  op <- new_node (Constant (CPrim primops.resolve)) ;;
  new_node (Apply [op; ns; name] g).

(** [Block.set_phi_arguments], with [Block.read] passed in.  Neither
    [read] nor anything it calls appends to a [preds] list, so the loop
    runs over the list as it is on entry. *)
Definition set_phi_arguments_with (read : block_id → string → M node_id)
    (self : block_id) (phi : node_id) : M unit :=
  B <- get_block self ;;
  varnum <- lookup_or KeyError (phi_nodes B !! phi) ;;
  for_each (λ pred,
    arg <- read pred varnum ;;
    append_jump_argument pred self arg) (preds B).

(** [Block.read].  The recursion into predecessors is bounded by [fuel]. *)
Fixpoint read (fuel : nat) (self : block_id) (varnum : string) : M node_id :=
  match fuel with
  | 0 => raise OutOfFuel
  | S fuel' =>
      B <- get_block self ;;
      match variables B !! varnum with
      | Some node => _fresh node
      | None =>
          match matured B, preds B with
          | true, [pred] => read fuel' pred varnum
          | true, [] =>
              let cn := closure_namespace parser in
              if ns_contains cn varnum then make_resolve self cn varnum
              else
                let ns := global_namespace parser in
                make_resolve self ns varnum
          | _, _ =>
              phi <- new_node (Parameter_ (graph B)) ;;
              append_parameter self phi ;;
              register_phi self phi varnum ;;
              write self varnum phi ;;
              B <- get_block self ;;
              (if matured B then set_phi_arguments_with (read fuel') self phi
               else ret tt) ;;
              ret phi
          end
      end
  end.

Definition set_phi_arguments (fuel : nat) : block_id → node_id → M unit :=
  set_phi_arguments_with (read fuel).

(** The loop of [Block.mature]: [for phi in self.graph.parameters].  The
    list iterator holds an index [i] into the list object, which [read]
    may extend while the loop runs; [k] bounds the number of rounds. *)
Fixpoint mature_loop (fuel : nat) (self : block_id) (k i : nat) : M unit :=
  B <- get_block self ;;
  G <- get_graph (graph B) ;;
  match parameters G !! i with
  | None => ret tt
  | Some phi =>
      match k with
      | 0 => raise OutOfFuel
      | S k' =>
          (if bool_decide (is_Some (phi_nodes B !! phi))
           then set_phi_arguments fuel self phi
           else ret tt) ;;
          mature_loop fuel self k' (S i)
      end
  end.

(** [Block.mature]. *)
Definition mature (fuel : nat) (self : block_id) : M unit :=
  mature_loop fuel self fuel 0 ;;
  set_matured self.

(** [Block.jump]. *)
Definition jump (self target : block_id) : M node_id :=
  g <- block_graph self ;;
  c <- get_block_function target ;;
  jump <- new_node (Apply [c] g) ;;
  record_jump self target jump ;;
  append_pred target self ;;
  rc <- new_node (Constant (CPrim primops.return_)) ;;
  return_ <- new_node (Apply [rc; jump] g) ;;
  install_return self return_ ;;
  ret return_.

(** [Block.cond]. *)
Definition cond (self : block_id) (cond : node_id) (true_ false_ : block_id) : M node_id :=
  g <- block_graph self ;;
  ic <- new_node (Constant (CPrim primops.if_)) ;;
  t <- get_block_function true_ ;;
  f <- get_block_function false_ ;;
  if_ <- new_node (Apply [ic; cond; t; f] g) ;;
  rc <- new_node (Constant (CPrim primops.return_)) ;;
  return_ <- new_node (Apply [rc; if_] g) ;;
  install_return self return_ ;;
  ret return_.

(** [Block._resolve_ast_type], one per operator family of [ast_map]. *)
Definition _resolve_operator (self : block_id) (op : ast.operator) : M node_id :=
  let '(ns, name) := ast_map_operator op in make_resolve self ns name.

Definition _resolve_unaryop (self : block_id) (op : ast.unaryop) : M node_id :=
  let '(ns, name) := ast_map_unaryop op in make_resolve self ns name.

Definition _resolve_cmpop (self : block_id) (op : ast.cmpop) : M node_id :=
  entry <- lookup_or KeyError (ast_map_cmpop op) ;;
  let '(ns, name) := entry in make_resolve self ns name.

End Blocks.

(** *** Lowering of expressions and statements *)

Section Lowering.
Variable ns_contains : Namespace → string → bool.
Variable parser : Parser.
(** Bound on the depth of [Block.read]. *)
Variable fuel : nat.

(** The inner [cons] of [process_Tuple]. *)
Definition cons (op : node_id) (g : graph_id) : list node_id → M node_id :=
  fix cons elts :=
    match elts with
    | [] => new_node (Constant CEmptyTuple)
    | x :: rest =>
        tail <- cons rest ;;
        new_node (Apply [op; x; tail] g)
    end.

(** [Parser.process_node] on expressions, with the [process_] method of
    each class inlined. *)
Fixpoint process_node (block : block_id) (node : ast.expr) {struct node} : M node_id :=
  match node with
  | ast.BinOp left_ op right_ =>
      func <- _resolve_operator block op ;;
      left_ <- process_node block left_ ;;
      right_ <- process_node block right_ ;;
      g <- block_graph block ;;
      new_node (Apply [func; left_; right_] g)
  | ast.UnaryOp op operand =>
      func <- _resolve_unaryop block op ;;
      operand <- process_node block operand ;;
      g <- block_graph block ;;
      new_node (Apply [func; operand] g)
  | ast.Compare left_ ops comparators =>
      ops <- map_each (_resolve_cmpop block) ops ;;
      assert (bool_decide (length ops = 1)) "len(ops) == 1" ;;
      left_ <- process_node block left_ ;;
      right_ <- match comparators with
                | c :: _ => process_node block c
                | [] => raise IndexError
                end ;;
      op <- lookup_or IndexError (ops !! 0) ;;
      g <- block_graph block ;;
      new_node (Apply [op; left_; right_] g)
  | ast.Name id => read ns_contains parser fuel block id
  | ast.Num n => new_node (Constant (CInt n))
  | ast.Str _ =>
      (* [self.environment]: the parser has no such attribute *)
      raise AttributeError
  | ast.Call func args =>
      func <- process_node block func ;;
      args <- map_each (process_node block) args ;;
      g <- block_graph block ;;
      new_node (Apply (func :: args) g)
  | ast.NameConstant value =>
      new_node (Constant (match value with Some b => CBool b | None => CNone end))
  | ast.Tuple elts =>
      op <- new_node (Constant (CPrim primops.cons_tuple)) ;;
      elts <- map_each (process_node block) elts ;;
      g <- block_graph block ;;
      cons op g elts
  | ast.Subscript value slice =>
      op <- make_resolve block operator_ns "getitem" ;;
      value <- process_node block value ;;
      slice <- process_node block slice ;;
      g <- block_graph block ;;
      new_node (Apply [op; value; slice] g)
  | ast.Index value => process_node block value
  | ast.Attribute value attr =>
      op <- make_resolve block builtins_ns "getattr" ;;
      value <- process_node block value ;;
      c <- new_node (Constant (CStr attr)) ;;
      g <- block_graph block ;;
      new_node (Apply [op; value; c] g)
  | ast.OtherExpr => raise NotImplementedError
  end.

(** The inner [write] of [process_Assign]; [i] counts the elements of a
    tuple target. *)
Fixpoint assign_write (block : block_id) (targ : ast.expr) (anf_node : node_id)
    {struct targ} : M unit :=
  match targ with
  | ast.Name id => write block id anf_node
  | ast.Tuple elts =>
      (fix enumerate (i : Z) (elts : list ast.expr) : M unit :=
         match elts with
         | [] => ret tt
         | elt :: rest =>
             op <- make_resolve block operator_ns "getitem" ;;
             c <- new_node (Constant (CInt i)) ;;
             g <- block_graph block ;;
             new_node_ <- new_node (Apply [op; anf_node; c] g) ;;
             assign_write block elt new_node_ ;;
             enumerate (i + 1)%Z rest
         end) 0%Z elts
  | _ => raise NotImplementedError
  end.

(** [Parser.process_Assign]. *)
Definition process_Assign (block : block_id) (targets : list ast.expr)
    (value : ast.expr) : M block_id :=
  anf_node <- process_node block value ;;
  for_each (λ targ, assign_write block targ anf_node) targets ;;
  ret block.

(** [Parser.process_Return]; a bare [return] has [node.value = None],
    for which [process_node] finds no method. *)
Definition process_Return (block : block_id) (value : option ast.expr) : M block_id :=
  rc <- new_node (Constant (CPrim primops.return_)) ;;
  v <- match value with
       | Some e => process_node block e
       | None => raise NotImplementedError
       end ;;
  g <- block_graph block ;;
  return_ <- new_node (Apply [rc; v] g) ;;
  install_return block return_ ;;
  ret block.

(** [if not end.graph.return_: end.jump(target)], the guarded jump that
    closes a branch or a loop body. *)
Definition jump_unless_returned (end_ target : block_id) : M unit :=
  r <- graph_return end_ ;;
  match r with
  | None => jump end_ target ;; ret tt
  | Some _ => ret tt
  end.

Section Statements.
(** [Block.mature], passed in: the statements are also lowered with a
    [mature] that refuses a block that is matured already. *)
Variable mature : block_id → M unit.

(** [Parser.process_If], with [process_statements] passed in. *)
Definition process_If_with (process_statements : block_id → list ast.stmt → M block_id)
    (block : block_id) (test : ast.expr) (body orelse : list ast.stmt) : M block_id :=
  cond_ <- process_node block test ;;
  true_block <- new_block ;;
  false_block <- new_block ;;
  append_pred true_block block ;;
  append_pred false_block block ;;
  mature true_block ;;
  mature false_block ;;
  after_block <- new_block ;;
  true_end <- process_statements true_block body ;;
  jump_unless_returned true_end after_block ;;
  false_end <- process_statements false_block orelse ;;
  jump_unless_returned false_end after_block ;;
  cond block cond_ true_block false_block ;;
  mature after_block ;;
  ret after_block.

(** [Parser.process_While]; the [else] part of a loop is not looked at. *)
Definition process_While_with (process_statements : block_id → list ast.stmt → M block_id)
    (block : block_id) (test : ast.expr) (body : list ast.stmt) : M block_id :=
  header_block <- new_block ;;
  body_block <- new_block ;;
  after_block <- new_block ;;
  append_pred body_block header_block ;;
  append_pred after_block header_block ;;
  jump block header_block ;;
  cond_ <- process_node header_block test ;;
  mature body_block ;;
  cond header_block cond_ body_block after_block ;;
  after_body <- process_statements body_block body ;;
  jump_unless_returned after_body header_block ;;
  mature header_block ;;
  mature after_block ;;
  ret after_block.

(** [Parser._process_function]: the final and the first block. *)
Definition _process_function_with
    (process_statements : block_id → list ast.stmt → M block_id)
    (block : option block_id) (name : string) (args : list string)
    (body : list ast.stmt) : M (block_id * block_id) :=
  function_block <- new_block ;;
  match block with
  | Some block => append_pred function_block block
  | None =>
      g_ct <- get_block_function function_block ;;
      c <- get_node g_ct ;;
      match c with
      | Constant (CGraph g) => set_Parser_graph g
      | _ => raise AttributeError
      end
  end ;;
  mature function_block ;;
  for_each (λ arg,
    g <- block_graph function_block ;;
    anf_node <- new_node (Parameter_ g) ;;
    append_parameter function_block anf_node ;;
    write function_block arg anf_node) args ;;
  fn <- get_block_function function_block ;;
  write function_block name fn ;;
  final_block <- process_statements function_block body ;;
  ret (final_block, function_block).

(** [Parser.process_node] on statements. *)
Fixpoint process_stmt_with (block : block_id) (node : ast.stmt) {struct node} : M block_id :=
  let process_statements :=
    fix process_statements (block : block_id) (nodes : list ast.stmt) : M block_id :=
      match nodes with
      | [] => ret block
      | node :: rest =>
          block <- process_stmt_with block node ;;
          process_statements block rest
      end in
  match node with
  | ast.FunctionDef name args body =>
      r <- _process_function_with process_statements (Some block) name args body ;;
      fn <- get_block_function (snd r) ;;
      write block name fn ;;
      ret block
  | ast.Return value => process_Return block value
  | ast.Assign targets value => process_Assign block targets value
  | ast.Expr _ => ret block
  | ast.If test body orelse => process_If_with process_statements block test body orelse
  | ast.While test body _ => process_While_with process_statements block test body
  | ast.OtherStmt => raise NotImplementedError
  end.

(** [Parser.process_statements]. *)
Fixpoint process_statements_with (block : block_id) (nodes : list ast.stmt) : M block_id :=
  match nodes with
  | [] => ret block
  | node :: rest =>
      block <- process_stmt_with block node ;;
      process_statements_with block rest
  end.

(** [Parser.parse], from the function definition that
    [ast.parse(inspect.getsource(function)).body[0]] gives. *)
Definition Parser_parse_with (function_def : ast.stmt) : M graph_id :=
  match function_def with
  | ast.FunctionDef name args body =>
      r <- _process_function_with process_statements_with None name args body ;;
      block_graph (snd r)
  | _ => raise (AssertionError "isinstance(function_def, ast.FunctionDef)")
  end.

End Statements.

(** The parser proper: the statements lowered with [Block.mature]. *)
Definition process_stmt : block_id → ast.stmt → M block_id :=
  process_stmt_with (mature ns_contains parser fuel).
Definition process_statements : block_id → list ast.stmt → M block_id :=
  process_statements_with (mature ns_contains parser fuel).
Definition process_If := process_If_with (mature ns_contains parser fuel) process_statements.
Definition process_While := process_While_with (mature ns_contains parser fuel) process_statements.
Definition _process_function :=
  _process_function_with (mature ns_contains parser fuel) process_statements.
Definition Parser_parse : ast.stmt → M graph_id :=
  Parser_parse_with (mature ns_contains parser fuel).

End Lowering.

End Parser.

(** ** Memoized entry point *)

Module Parse.
Import Parser.

(** A function object: its identity, its [__module__] and the definition
    [inspect.getsource] gives for it. *)
Record FunctionType := mkFunction {
  fn_id : positive;
  fn_module : string;
  fn_def : ast.stmt;
}.

(** The module-level [_parse_cache], keyed by function identity, next to
    the heap. *)
Record world := mkWorld {
  _parse_cache : gmap positive graph_id;
  heap : state;
}.

Section Parse.
Variable ns_contains : Namespace → string → bool.
Variable fuel : nat.

(** [Parser(func)]. *)
Definition new_Parser (func : FunctionType) : Parser :=
  mkParser (fn_id func) (ModuleNamespace (fn_module func)) (ClosureNamespace (fn_id func)).

(** [parse]. *)
Definition parse (func : FunctionType) (w : world) : res graph_id * world :=
  match _parse_cache w !! fn_id func with
  | Some g => (Ok g, w)
  | None =>
      let parser := new_Parser func in
      let s := set_parser_graph (set_block_map (heap w) ∅) None in
      match Parser_parse ns_contains parser fuel (fn_def func) s with
      | (Ok graph, s') => (Ok graph, mkWorld (<[fn_id func := graph]> (_parse_cache w)) s')
      | (Err e, s') => (Err e, mkWorld (_parse_cache w) s')
      end
  end.

(** A run of calls to [parse], one after the other; results are dropped,
    the cache and the heap are kept. *)
Definition parse_all (funcs : list FunctionType) (w : world) : world :=
  foldl (λ w func, (parse func w).2) w funcs.

End Parse.

(** [def f(x): return x] and [def h(): return 1], and the world before
    any call. *)
Definition sample_f : FunctionType :=
  mkFunction 1%positive "__main__"
    (ast.FunctionDef "f" ["x"] [ast.Return (Some (ast.Name "x"))]).

Definition sample_h : FunctionType :=
  mkFunction 2%positive "__main__"
    (ast.FunctionDef "h" [] [ast.Return (Some (ast.Num 1))]).

Definition empty_world : world := mkWorld ∅ empty_state.

End Parse.

(** ** Sample machines *)

Module VMSamples.
Import VM.

(** A two-graph machine: graph 0 is [return g1()], graph 1 is [return 7]. *)
Definition nodes0 : gmap node_id ANFNode :=
  list_to_map [(0, Constant (CGraph 1)); (1, Apply [0] 0);
               (2, Constant (CPrim primops.return_)); (3, Apply [2; 1] 0);
               (4, Constant (CInt 7)); (5, Apply [2; 4] 1)].
Definition graphs0 (g : graph_id) : Graph :=
  mkGraph [] (Some (if bool_decide (g = 0) then 3 else 5)).
Definition toposort0 (g : graph_id) : list node_id :=
  if bool_decide (g = 0) then [0; 1; 3] else [5].
Definition no_vars (g : graph_id) : list node_id := [].
Definition no_impl (p : Primitive) (args : list value) : res value := Err KeyError.
Definition host (p : Primitive) : value := VConst (CPrim p).

(** A graph that applies [partial] to the constant of graph 1 and to 5. *)
Definition nodes1 : gmap node_id ANFNode :=
  list_to_map [(0, Constant (CPrim primops.partial)); (1, Constant (CGraph 1));
               (2, Constant (CInt 5)); (3, Apply [0; 1; 2] 0)].

End VMSamples.

(** ** Vocabulary of the parser properties *)

Module ParserSpec.
Import Parser.
Local Open Scope parser_scope.

(** The heap once [Block.read] has made a phi node for [varnum] in block
    [self]: a fresh [Parameter] of the block's graph, appended to the
    graph's parameters, entered in [phi_nodes] and written locally. *)
Definition phi_state (s : state) (self : block_id) (varnum : string) : state :=
  match blocks s !! self with
  | Some B =>
      let phi := length (nodes s) in
      let B' := mkBlock (matured B) (<[varnum := phi]> (variables B)) (preds B)
                        (<[phi := varnum]> (phi_nodes B)) (jumps B) (graph B) in
      mkState (nodes s ++ [Parameter_ (graph B)])
              (alter (λ G, mkGraph (parameters G ++ [phi]) (return_ G)) (graph B) (graphs s))
              (<[self := B']> (blocks s))
              (block_map s) (parser_graph s)
  | None => s
  end.

(** The heap once [Block.make_resolve] has built
    [apply(resolve, ns, name)] in graph [g]. *)
Definition resolve_state (s : state) (g : graph_id) (ns : Namespace)
    (name : string) : state :=
  let n := length (nodes s) in
  set_nodes s (nodes s ++ [Constant (CNamespace ns); Constant (CStr name);
                           Constant (CPrim primops.resolve);
                           Apply [n + 2; n; n + 1] g]).

(** How a node may differ between two heaps: an [Apply] may have got
    further inputs at the end, any other node is the same. *)
Definition node_grows (x x' : ANFNode) : Prop :=
  match x, x' with
  | Apply inputs g, Apply inputs' g' => g = g' ∧ inputs `prefix_of` inputs'
  | _, _ => x = x'
  end.

(** [n] is the [Apply] of a jump: some block holds it in its [jumps]. *)
Definition is_jump (s : state) (n : node_id) : Prop :=
  ∃ b B t, blocks s !! b = Some B ∧ jumps B !! t = Some n.

(** [s'] is a later heap than [s]: the nodes of [s] are still there and
    have at most grown, the ones that did grow are jump nodes of [s], no
    node of [s] has become a jump node since, and a return node that was
    set is still set to the same node. *)
Record extends (s s' : state) : Prop := mkExtends {
  ext_nodes : ∀ n x, nodes s !! n = Some x →
    ∃ x', nodes s' !! n = Some x' ∧ node_grows x x';
  ext_changed : ∀ n x, nodes s !! n = Some x → nodes s' !! n ≠ Some x → is_jump s n;
  ext_jumps : ∀ n x, nodes s !! n = Some x → is_jump s' n → is_jump s n;
  ext_returns : ∀ g G r, graphs s !! g = Some G → return_ G = Some r →
    ∃ G', graphs s' !! g = Some G' ∧ return_ G' = Some r;
}.

(** A computation that extends the heap, whatever it returns. *)
Definition extending (A : Type) (m : M A) : Prop :=
  ∀ s r s', m s = (r, s') → extends s s'.

(** The nodes of [s] are untouched in [s']. *)
Definition keeps_nodes (s s' : state) : Prop :=
  ∀ n x, nodes s !! n = Some x → nodes s' !! n = Some x.

(** A computation that changes no node that is there. *)
Definition quiet (A : Type) (m : M A) : Prop :=
  ∀ s r s', m s = (r, s') → keeps_nodes s s'.

(** No two blocks share a graph. *)
Definition graphs_apart (s : state) : Prop :=
  ∀ b1 b2 B1 B2, blocks s !! b1 = Some B1 → blocks s !! b2 = Some B2 →
    graph B1 = graph B2 → b1 = b2.

(** What resolving the name [x] leaves alone: every block keeps its
    graph, and a block in which [x] is bound is kept as it is, with its
    graph. *)
Definition frame (x : string) (s s' : state) : Prop :=
  (∀ b, graph <$> blocks s' !! b = graph <$> blocks s !! b) ∧
  (∀ b B, blocks s !! b = Some B → is_Some (variables B !! x) →
     blocks s' !! b = Some B ∧ graphs s' !! graph B = graphs s !! graph B).

Definition framing (x : string) (A : Type) (m : M A) : Prop :=
  ∀ s r s', graphs_apart s → m s = (r, s') → frame x s s'.

Section Backfill.
Variable ns_contains : Namespace → string → bool.
Variable parser : Parser.
Variable fuel : nat.

(** One step of the backfill: the predecessor resolves the name, and the
    node it answers with is appended to its jump to [self]. *)
Definition backfill_step (self : block_id) (name : string) (pred : block_id) : M unit :=
  arg <- read ns_contains parser fuel pred name ;;
  append_jump_argument pred self arg.

(** Maturing as the specification words it, for a block [B] at [self]
    whose graph is [G] on entry: for each parameter of the graph that is a
    phi node, in the order of the parameter list, one argument per
    predecessor, in the order of the predecessors; then the block is
    matured. *)
Definition spec_mature (self : block_id) (B : Block) (G : Graph) : M unit :=
  for_each (λ phi,
    match phi_nodes B !! phi with
    | Some name => for_each (backfill_step self name) (preds B)
    | None => ret tt
    end) (parameters G) ;;
  set_matured self.

End Backfill.

(** [Block.mature] with the check that the block is not matured yet. *)
Definition mature_once (ns_contains : Namespace → string → bool) (parser : Parser)
    (fuel : nat) (b : block_id) : M unit :=
  B <- get_block b ;;
  assert (negb (matured B)) "the block is matured already" ;;
  mature ns_contains parser fuel b.

(** The same blocks, each with the [matured] flag it had. *)
Definition flags_same (s s' : state) : Prop :=
  ∀ b, matured <$> blocks s' !! b = matured <$> blocks s !! b.

Definition flag_keeping (A : Type) (m : M A) : Prop :=
  ∀ s r s', m s = (r, s') → flags_same s s'.

(** Where a lowering that started in [s0] stands in [s]: the blocks of
    [s0] have the flag they had; of the blocks made since, those in [P]
    are there and not matured, and all the others are matured. *)
Record pending (P : gset block_id) (s0 s : state) : Prop := mkPending {
  pend_old : ∀ b B, blocks s0 !! b = Some B →
    ∃ B', blocks s !! b = Some B' ∧ matured B' = matured B;
  pend_new : ∀ b B', (length (blocks s0) ≤ b)%nat → blocks s !! b = Some B' →
    matured B' = bool_decide (b ∉ P);
  pend_in : ∀ x, x ∈ P → (length (blocks s0) ≤ x)%nat ∧ is_Some (blocks s !! x);
}.

(** A lowering is done when nothing is pending: every block it made is
    matured, and no flag of an older block has changed. *)
Definition lowered (s s' : state) : Prop := pending ∅ s s'.

(** [m_once] is [m] run with [mature_once]: whatever [m] does, [m_once]
    does the same, and when [m] succeeds its lowering is done. *)
Definition lowers (A : Type) (m_once m : M A) : Prop :=
  ∀ s r s', m s = (r, s') →
    m_once s = (r, s') ∧ (∀ a, r = Ok a → lowered s s').

(** The return node of the graph of block [b], when the block and its
    graph are there. *)
Definition return_of (s : state) (b : block_id) : option node_id :=
  B ← blocks s !! b; G ← graphs s !! graph B; return_ G.

(** [s'] has the blocks and graphs of [s], each block with the graph it
    had and each graph with the return node it had, set or not. *)
Definition returns_kept (s s' : state) : Prop :=
  (∀ b B, blocks s !! b = Some B →
     ∃ B', blocks s' !! b = Some B' ∧ graph B' = graph B) ∧
  (∀ g G, graphs s !! g = Some G →
     ∃ G', graphs s' !! g = Some G' ∧ return_ G' = return_ G).


(** A computation that installs no return node. *)
Definition keeping (A : Type) (m : M A) : Prop :=
  ∀ s r s', m s = (r, s') → returns_kept s s'.

(** A computation that keeps a heap well formed when it succeeds. *)
Definition preserving (I : state → Prop) (A : Type) (m : M A) : Prop :=
  ∀ s a s', I s → m s = (Ok a, s') → I s'.

(** Block [b] returns by the jump [j]: its graph's return node is
    [Apply [Constant return_; j]]. *)
Definition returns_jump (s : state) (b : block_id) (j : node_id) : Prop :=
  ∃ B r c, blocks s !! b = Some B ∧ return_of s b = Some r ∧
           nodes s !! r = Some (Apply [c; j] (graph B)) ∧
           nodes s !! c = Some (Constant (CPrim primops.return_)).

(** A heap as the parser builds it. *)
Record well_formed (s : state) : Prop := mkWF {
  wf_graph : ∀ b B, blocks s !! b = Some B → is_Some (graphs s !! graph B);
  wf_apart : graphs_apart s;
  wf_jumps : ∀ b B t j, blocks s !! b = Some B → jumps B !! t = Some j →
    returns_jump s b j;
  wf_jump_node : ∀ b B t j, blocks s !! b = Some B → jumps B !! t = Some j →
    ∃ c args g gt, nodes s !! j = Some (Apply (c :: args) g) ∧
                   nodes s !! c = Some (Constant (CGraph gt));
  wf_block_map : ∀ b c, block_map s !! b = Some c →
    ∃ g, nodes s !! c = Some (Constant (CGraph g));
}.

End ParserSpec.

(** A heap with one matured block without predecessors, in which [x] is
    bound to the constant 1. *)
Module ParserSamples.
Import Parser.

Definition entry_block : Block :=
  mkBlock true {["x" := 0]} [] ∅ ∅ 0.

Definition entry_state : state :=
  mkState [Constant (CInt 1)] [mkGraph [] None] [entry_block] ∅ None.

Definition sample_parser : Parser :=
  mkParser 1%positive (ModuleNamespace "__main__") (ClosureNamespace 1%positive).

(** No namespace holds any name. *)
Definition nowhere (ns : Namespace) (name : string) : bool := false.

(** [def f(n): s = 0; i = 0; while i < n: s = s + i; i = i + 1; return s]. *)
Definition loop_def : ast.stmt :=
  ast.FunctionDef "f" ["n"]
    [ast.Assign [ast.Name "s"] (ast.Num 0);
     ast.Assign [ast.Name "i"] (ast.Num 0);
     ast.While (ast.Compare (ast.Name "i") [ast.Lt] [ast.Name "n"])
       [ast.Assign [ast.Name "s"] (ast.BinOp (ast.Name "s") ast.Add (ast.Name "i"));
        ast.Assign [ast.Name "i"] (ast.BinOp (ast.Name "i") ast.Add (ast.Num 1))]
       [];
     ast.Return (Some (ast.Name "s"))].

(** A join: blocks 0 and 1 bind [x] to a parameter of their own and jump
    to block 2, which is not matured yet and has a phi node for [x]. *)
Definition join_block : Block :=
  mkBlock false {["x" := 6]} [0; 1] {[6 := "x"]} ∅ 2.

Definition join_graph : Graph := mkGraph [6] None.

Definition join_state : state :=
  mkState
    [Parameter_ 0; Parameter_ 1; Constant (CGraph 2); Apply [2] 0;
     Constant (CGraph 2); Apply [4] 1; Parameter_ 2]
    [mkGraph [0] None; mkGraph [1] None; join_graph]
    [mkBlock true {["x" := 0]} [] ∅ {[2 := 3]} 0;
     mkBlock true {["x" := 1]} [] ∅ {[2 := 5]} 1;
     join_block]
    ∅ None.

(** The heap after parsing [loop_def], and the block of the loop body
    in it. *)
Definition loop_state : state :=
  (Parser_parse nowhere sample_parser 10 loop_def empty_state).2.


End ParserSamples.

(** ** The other shape rules ([myia/prim/shape_inferrers.py]) *)

Module ShapeRules.
Import Shape.
Local Open Scope res_scope.
Local Open Scope Z_scope.

(** [prod]: [reduce(operator.mul, iterable, 1)]. *)
Definition prod (xs : list Z) : Z := foldl Z.mul 1 xs.

(** [ScalarShapeInferrer.__call__]: the shape of anything that is no
    array. *)
Definition scalar_shape {A} (args : list A) : shape := [].

(** [infer_shape_return], [infer_shape_map_array] and
    [infer_shape_scan_array]: the shape of one argument, the others are
    never awaited. *)
Definition infer_shape_return {S} (v : ref S) : res S := r_shape v.

Definition infer_shape_map_array {S} (fn ary : ref S) : res S := r_shape ary.

Definition infer_shape_scan_array {S} (fn init ary ax : ref S) : res S :=
  r_shape ary.

(** [del lshp[i]] on a list: an index counts from the end when it is
    negative, and is an [IndexError] when it is out of range. *)
Definition del_at {A} (l : list A) (i : Z) : res (list A) :=
  let n := Z.of_nat (length l) in
  if bool_decide (0 ≤ i < n) then Ok (delete (Z.to_nat i) l)
  else if bool_decide (- n ≤ i < 0) then Ok (delete (Z.to_nat (i + n)) l)
  else Err IndexError.

(** A ['value'] track value used as a list index: an integer, or a
    Boolean, which Python takes for 0 or 1. *)
Definition as_index (v : aval) : res Z :=
  match v with
  | AVInt n => Ok n
  | AVTrue => Ok 1
  | AVFalse => Ok 0
  | _ => Err TypeError
  end.

Definition infer_shape_reduce_array (fn init ary ax : ref shape) : res shape :=
  let? shp := r_shape ary in
  let? ax_v := r_value ax in
  match ax_v with
  | AVAnything => Ok (replicate (length shp - 1)%nat ANYTHING)
  | _ =>
      let? i := as_index ax_v in
      del_at shp i
  end.

(** The target of [reshape] and [distribute]: the value of [shape], or
    an all-[ANYTHING] tuple of the rank its type gives. *)
Definition target_shape (shape : ref Shape.shape) : res aval :=
  let? shp := r_value shape in
  match shp with
  | AVAnything =>
      let? shp_t := r_type shape in
      let? elts := elements shp_t in
      Ok (AVTuple (replicate (length elts) ANYTHING))
  | _ => Ok shp
  end.

(** Iterating a ['value'] track value, as [all(... for s in shp)] does. *)
Definition aval_iter (v : aval) : res shape :=
  match v with
  | AVTuple elts => Ok elts
  | _ => Err TypeError
  end.

(** [all(s is not ANYTHING for s in shp)], with the extents when it
    holds. *)
Fixpoint extents (s : shape) : option (list Z) :=
  match s with
  | [] => Some []
  | ANYTHING :: _ => None
  | Dim n :: s' => cons n <$> extents s'
  end.

Definition infer_shape_reshape (v shape : ref Shape.shape) : res aval :=
  let? shp := target_shape shape in
  let? v_shp := r_shape v in
  let? elts := aval_iter shp in
  match extents elts with
  | Some es =>
      match extents v_shp with
      | Some vs =>
          if bool_decide (prod es ≠ prod vs)
          then Err (MyiaShapeError
                      "Cannot change the total number of elements in reshape")
          else Ok shp
      | None => Ok shp
      end
  | None => Ok shp
  end.

Definition infer_shape_dot (a b : ref Shape.shape) : res Shape.shape :=
  let? a_shp := r_shape a in
  let? b_shp := r_shape b in
  if bool_decide (length a_shp ≠ 2%nat) || bool_decide (length b_shp ≠ 2%nat)
  then Err (MyiaShapeError "dot needs matrix inputs")
  else
    match a_shp !! 1%nat, b_shp !! 0%nat, a_shp !! 0%nat, b_shp !! 1%nat with
    | Some a1, Some b0, Some a0, Some b1 =>
        if negb (bool_decide (a1 = b0)) && negb (bool_decide (a1 = ANYTHING))
           && negb (bool_decide (b0 = ANYTHING))
        then Err (MyiaShapeError "Incompatible shapes in dot")
        else Ok [a0; b1]
    | _, _, _, _ => Err IndexError
    end.

(** A reference of which only the shape is known. *)
Definition of_shape (s : res Shape.shape) : ref Shape.shape :=
  Ref s (Err KeyError) (Err KeyError).

End ShapeRules.

(** A graph with two parameters that returns the second:
    [def g2(a, b): return b]. *)
Module VMSamples2.
Import VM.

Definition nodes2 : gmap node_id ANFNode :=
  list_to_map [(10, Parameter_ 2); (11, Parameter_ 2);
               (12, Constant (CPrim primops.return_)); (13, Apply [12; 11] 2)].
Definition graphs2 (g : graph_id) : Graph := mkGraph [10; 11] (Some 13).
Definition toposort2 (g : graph_id) : list node_id := [11; 13].
Definition same (args : list value) : list value := args.

End VMSamples2.

(** ** Notions for further properties of the parser *)

Module ParserMore.
Import Parser.
Local Open Scope parser_scope.

(** A computation that succeeds on no heap. *)
Definition never_ok {A} (m : M A) : Prop := ∀ s, ∃ e s', m s = (Err e, s').

Definition is_NotIn (op : ast.cmpop) : bool :=
  match op with ast.NotIn => true | _ => false end.

(** The expressions in which lowering comes across something it has no
    working method for: a string literal, a class without a [process_]
    method, a [not in], a comparison that has not exactly one operator or
    that has no comparator.  Of the comparators only the first is looked
    at. *)
Fixpoint rejected (e : ast.expr) : bool :=
  match e with
  | ast.BinOp l _ r => rejected l || rejected r
  | ast.UnaryOp _ o => rejected o
  | ast.Compare l ops cs =>
      existsb is_NotIn ops || negb (bool_decide (length ops = 1)) || rejected l ||
      match cs with
      | [] => true
      | c :: _ => rejected c
      end
  | ast.Name _ => false
  | ast.Num _ => false
  | ast.Str _ => true
  | ast.Call f args => rejected f || existsb rejected args
  | ast.NameConstant _ => false
  | ast.Tuple elts => existsb rejected elts
  | ast.Subscript v sl => rejected v || rejected sl
  | ast.Index v => rejected v
  | ast.Attribute v _ => rejected v
  | ast.OtherExpr => true
  end.

(** The expressions without a variable, where lowering looks. *)
Fixpoint no_names (e : ast.expr) : bool :=
  match e with
  | ast.BinOp l _ r => no_names l && no_names r
  | ast.UnaryOp _ o => no_names o
  | ast.Compare l _ cs =>
      no_names l &&
      match cs with
      | [] => true
      | c :: _ => no_names c
      end
  | ast.Name _ => false
  | ast.Call f args => no_names f && forallb no_names args
  | ast.Tuple elts => forallb no_names elts
  | ast.Subscript v sl => no_names v && no_names sl
  | ast.Index v => no_names v
  | ast.Attribute v _ => no_names v
  | _ => true
  end.

(** [s'] is [s] with further nodes at the end of the node store, and
    nothing else changed. *)
Definition allocated (s s' : state) : Prop :=
  nodes s `prefix_of` nodes s' ∧ graphs s' = graphs s ∧ blocks s' = blocks s ∧
  block_map s' = block_map s ∧ parser_graph s' = parser_graph s.

Definition allocating (A : Type) (m : M A) : Prop :=
  ∀ s r s', m s = (r, s') → allocated s s'.

(** Reading a tuple back from the node [process_Tuple] builds for it:
    [Apply [op; x; tail]] is [x] followed by the elements of [tail], and
    [Constant(())] is the empty tuple.  [fuel] bounds the length. *)
Fixpoint tuple_elements (nodes : list ANFNode) (op : node_id) (fuel : nat)
    (root : node_id) : option (list node_id) :=
  match fuel with
  | 0 => None
  | S fuel' =>
      match nodes !! root with
      | Some (Constant CEmptyTuple) => Some []
      | Some (Apply [op'; x; tail] _) =>
          if bool_decide (op' = op)
          then (λ l, x :: l) <$> tuple_elements nodes op fuel' tail
          else None
      | _ => None
      end
  end.

(** Every entry of [parser.block_map] takes a block that is there to a
    constant of that block's graph. *)
Definition block_map_ok (s : state) : Prop :=
  ∀ b c, block_map s !! b = Some c →
    ∃ B, blocks s !! b = Some B ∧ nodes s !! c = Some (Constant (CGraph (graph B))).

End ParserMore.

(** ** What lowering leaves of the blocks that are matured *)

Module ParserKept.
Import Parser ParserSpec.
Local Open Scope parser_scope.

(** Between [s] and [s'], for the blocks below [n]: a block that is
    matured in [s] is matured in [s'], with the predecessors and the graph
    it had; and when it has at most one predecessor, so that [Block.read]
    makes no phi node in it, its graph has the parameters it had.  No
    block is lost, and [parser.graph] is not written. *)
Record settled_below (n : nat) (s s' : state) : Prop := mkSettled {
  sb_length : (length (blocks s) ≤ length (blocks s'))%nat;
  sb_parser_graph : parser_graph s' = parser_graph s;
  sb_block : ∀ x B, (x < n)%nat → blocks s !! x = Some B → matured B = true →
    ∃ B', blocks s' !! x = Some B' ∧ matured B' = true ∧
          preds B' = preds B ∧ graph B' = graph B;
  sb_parameters : ∀ x B G, (x < n)%nat → blocks s !! x = Some B →
    matured B = true → (length (preds B) ≤ 1)%nat →
    graphs s !! graph B = Some G →
    ∃ G', graphs s' !! graph B = Some G' ∧ parameters G' = parameters G;
}.

(** The same for every block of [s]. *)
Definition settled (s s' : state) : Prop :=
  settled_below (length (blocks s)) s s'.

(** A computation that, when it succeeds on a well-formed heap, leaves a
    well-formed heap in which the matured blocks are settled. *)
Definition good (A : Type) (m : M A) : Prop :=
  ∀ s a s', well_formed s → m s = (Ok a, s') → well_formed s' ∧ settled s s'.

(** The same for the blocks below [n] only, on a heap that has at least
    [n] blocks. *)
Definition good_below (n : nat) (A : Type) (m : M A) : Prop :=
  ∀ s a s', well_formed s → (n ≤ length (blocks s))%nat → m s = (Ok a, s') →
    well_formed s' ∧ settled_below n s s'.

(** A computation that settles the matured blocks whenever it succeeds,
    on any heap. *)
Definition steady (A : Type) (m : M A) : Prop :=
  ∀ n s a s', m s = (Ok a, s') → settled_below n s s'.

Definition steady_below (n : nat) (A : Type) (m : M A) : Prop :=
  ∀ s a s', (n ≤ length (blocks s))%nat → m s = (Ok a, s') → settled_below n s s'.

End ParserKept.

(** * Properties *)

(** ** Shape inference *)

Section ShapeFacts.
Import Shape.
Local Open Scope res_scope.

Lemma not_in_1_ANYTHING_true d :
  not_in_1_ANYTHING d = true ↔ d ≠ Dim 1 ∧ d ≠ ANYTHING.
Proof.
  unfold not_in_1_ANYTHING.
  rewrite negb_true_iff, orb_false_iff, !bool_decide_eq_false. tauto.
Qed.

Lemma distribute_clash_true vs s :
  distribute_clash vs s = true ↔
  vs ≠ s ∧ (vs ≠ Dim 1 ∧ vs ≠ ANYTHING) ∧ (s ≠ Dim 1 ∧ s ≠ ANYTHING).
Proof.
  unfold distribute_clash.
  rewrite !andb_true_iff, negb_true_iff, bool_decide_eq_false,
    !not_in_1_ANYTHING_true. tauto.
Qed.

(** The loop of [distribute] either passes or raises a shape error. *)
Lemma distribute_check_cases v_shp shp :
  distribute_check v_shp shp = Ok tt ∨
  distribute_check v_shp shp =
    Err (MyiaShapeError "Cannot change shape when distributing").
Proof.
  revert shp. induction v_shp as [|vs v_shp IH]; intros [|s shp]; simpl; auto.
  destruct (distribute_clash vs s); auto.
Qed.

(** It passes exactly when no aligned pair of extents clashes. *)
Lemma distribute_check_ok v_shp shp :
  distribute_check v_shp shp = Ok tt ↔
  ∀ i vs s, v_shp !! i = Some vs → shp !! i = Some s →
            distribute_clash vs s = false.
Proof.
  revert shp. induction v_shp as [|vs v_shp IH]; intros [|s shp]; simpl.
  - split; [intros _ i ?? H; by destruct i | done].
  - split; [intros _ i ?? H; by destruct i | done].
  - split; [intros _ i ?? _ H; by destruct i | done].
  - destruct (distribute_clash vs s) eqn:Hc.
    + split; [done|]. intros H. specialize (H 0 vs s eq_refl eq_refl). congruence.
    + rewrite IH. split.
      * intros H [|i] ?? H1 H2; simpl in *; [congruence | eauto].
      * intros H i ?? H1 H2. apply (H (S i)); done.
Qed.

End ShapeFacts.

Section ShapeClaims.
Import Shape.
Local Open Scope res_scope.

(** C5. Shape inference for [if_(c, t, f)], once the two branch inferrers
    and the condition's value are known: the true branch's shape when the
    value is [True], the false branch's when it is [False]; when it is
    [ANYTHING], both branches are inferred and their shapes are unified by
    assert-same, a shape error being raised when they are incompatible;
    any other value is an assertion error. *)
Theorem infer_shape_if_cases {S : Type} (compatible : S → S → bool)
    (unified : S → S → S) (cond tb fb : ref (@inferrer S))
    (tb_inf fb_inf : res S) (v : aval) :
  r_shape tb = Ok tb_inf →
  r_shape fb = Ok fb_inf →
  r_value cond = Ok v →
  infer_shape_if compatible unified cond tb fb =
    match v with
    | AVTrue => tb_inf
    | AVFalse => fb_inf
    | AVAnything =>
        match tb_inf, fb_inf with
        | Ok a, Ok b =>
            if compatible a b then Ok (unified a b)
            else Err (MyiaShapeError "shape mismatch")
        | Err e, _ => Err e
        | Ok _, Err e => Err e
        end
    | _ => Err (AssertionError "Invalid condition value for if.")
    end.
Proof.
  intros Ht Hf Hv. unfold infer_shape_if. rewrite Ht, Hf, Hv. simpl.
  unfold assert_same. destruct v; reflexivity.
Qed.

(** Two shapes agree when they have the same rank and every pair of
    extents is equal or has an [ANYTHING]; used to try the rule. *)
Lemma infer_shape_if_cases_witness :
  let agree (a b : shape) :=
    bool_decide (length a = length b) &&
    forallb (λ p, bool_decide (p.1 = p.2) || bool_decide (p.1 = ANYTHING)
                  || bool_decide (p.2 = ANYTHING)) (zip a b) in
  let tb := Ref (Ok (Ok [Dim 3; Dim 4])) (Err KeyError) (Err KeyError) in
  let fb := Ref (Ok (Ok [Dim 3; Dim 5])) (Err KeyError) (Err KeyError) in
  let c v := Ref (Err KeyError) (Ok v) (Err KeyError) in
  infer_shape_if agree (λ a _, a) (c AVTrue) tb fb = Ok [Dim 3; Dim 4] ∧
  infer_shape_if agree (λ a _, a) (c AVFalse) tb fb = Ok [Dim 3; Dim 5] ∧
  infer_shape_if agree (λ a _, a) (c AVAnything) tb fb =
    Err (MyiaShapeError "shape mismatch") ∧
  infer_shape_if agree (λ a _, a) (c (AVInt 1)) tb fb =
    Err (AssertionError "Invalid condition value for if.").
Proof.
  intros agree tb fb c. split; [|split; [|split]].
  - apply (infer_shape_if_cases agree (λ a _, a) (c AVTrue) tb fb
             (Ok [Dim 3; Dim 4]) (Ok [Dim 3; Dim 5]) AVTrue); reflexivity.
  - apply (infer_shape_if_cases agree (λ a _, a) (c AVFalse) tb fb
             (Ok [Dim 3; Dim 4]) (Ok [Dim 3; Dim 5]) AVFalse); reflexivity.
  - apply (infer_shape_if_cases agree (λ a _, a) (c AVAnything) tb fb
             (Ok [Dim 3; Dim 4]) (Ok [Dim 3; Dim 5]) AVAnything); reflexivity.
  - apply (infer_shape_if_cases agree (λ a _, a) (c (AVInt 1)) tb fb
             (Ok [Dim 3; Dim 4]) (Ok [Dim 3; Dim 5]) (AVInt 1)); reflexivity.
Defined.

(** C6, as stated, fails: an extent 3 of [v] against a target extent 1 is
    a violation in the specification's wording, yet [distribute] returns
    the target shape. *)
Lemma distribute_accepts_target_extent_1 :
  let v := Ref (Ok [Dim 3]) (Err KeyError) (Ok (Array TScalar)) in
  let shape := Ref (Err KeyError) (Ok (AVTuple [Dim 1])) (Ok (TTuple [TScalar])) in
  ¬ ((∃ i vs s, [Dim 3] !! i = Some vs ∧ [Dim 1] !! i = Some s ∧ spec_violation vs s) →
     ∃ msg, infer_shape_distribute v shape = Err (MyiaShapeError msg)).
Proof.
  intros v shape H.
  assert (Hviol : ∃ i vs s, [Dim 3] !! i = Some vs ∧ [Dim 1] !! i = Some s ∧
                            spec_violation vs s).
  { exists 0, (Dim 3), (Dim 1). unfold spec_violation. repeat split; congruence. }
  destruct (H Hviol) as [msg Hmsg].
  vm_compute in Hmsg. discriminate.
Qed.

(** C6, amended. [distribute(v, shape)] returns the target shape: the
    value of [shape], or an all-[ANYTHING] tuple of the rank given by the
    type of [shape] when that value is [ANYTHING].  When [v] is an [Array]
    it succeeds exactly when the target has at least the rank of [v] and
    every extent of [v] that is neither 1 nor [ANYTHING] equals the
    aligned target extent unless the target extent is 1 or [ANYTHING];
    otherwise it raises a shape error.  So a violation in the words of the
    specification raises a shape error unless the target extent is 1.
    When [v] is no array, nothing is checked. *)
Theorem infer_shape_distribute_spec (v shape : ref Shape.shape) (value : aval)
    (elts : list atype) (v_t : atype) :
  r_value shape = Ok value →
  (value = AVAnything → r_type shape = Ok (TTuple elts)) →
  r_type v = Ok v_t →
  let target := distribute_target value elts in
  (is_Array v_t = false → infer_shape_distribute v shape = Ok target) ∧
  (∀ v_shp shp,
     is_Array v_t = true → r_shape v = Ok v_shp → target = AVTuple shp →
     (infer_shape_distribute v shape = Ok target ↔
        (length v_shp ≤ length shp)%nat ∧
        ∀ i vs s, v_shp !! i = Some vs → shp !! i = Some s →
          (vs ≠ Dim 1 ∧ vs ≠ ANYTHING) → vs = s ∨ s = Dim 1 ∨ s = ANYTHING) ∧
     (infer_shape_distribute v shape = Ok target ∨
      ∃ msg, infer_shape_distribute v shape = Err (MyiaShapeError msg)) ∧
     (∀ i vs s, v_shp !! i = Some vs → shp !! i = Some s →
        spec_violation vs s → s ≠ Dim 1 →
        ∃ msg, infer_shape_distribute v shape = Err (MyiaShapeError msg))).
Proof.
  intros Hval Hty Hvt target.
  assert (Hpre : infer_shape_distribute v shape =
     (let? _ := if is_Array v_t then
        let? v_shp := r_shape v in
        let? n := aval_len target in
        if bool_decide (n < length v_shp)%nat
        then Err (MyiaShapeError "Cannot distribute to smaller shape")
        else distribute_check v_shp (aval_elts target)
      else Ok tt in Ok target)).
  { unfold infer_shape_distribute. rewrite Hval. simpl.
    subst target. destruct value; simpl; rewrite ?(Hty eq_refl); simpl;
      rewrite Hvt; reflexivity. }
  split.
  - intros Harr. rewrite Hpre, Harr. reflexivity.
  - intros v_shp shp Harr Hshp Htgt.
    match goal with
    | |- ?I ∧ ?D ∧ _ => assert (Hmain : I ∧ D); [|destruct Hmain as [Hiff Hdisj]]
    end; cycle 1.
    { split; [done|]. split; [done|].
      intros i vs s Hvs Hs (Hv1 & Hva & Hne & Hsa) Hs1.
      destruct Hdisj as [Hok|Herr]; [exfalso|done].
      apply Hiff in Hok as [_ Hall].
      destruct (Hall i vs s Hvs Hs (conj Hv1 Hva)) as [?|[?|?]]; done. }
    rewrite Hpre, Harr, Hshp, Htgt. simpl.
    case_bool_decide as Hlen.
    + split; [|right; eauto]. split; [done|]. intros [? _]. lia.
    + destruct (distribute_check_cases v_shp shp) as [Hc|Hc].
      * rewrite Hc. simpl. split; [|by left]. split; [|done].
        intros _. split; [lia|].
        intros i vs s Hvs Hs Hn.
        apply distribute_check_ok with (i:=i) (vs:=vs) (s:=s) in Hc; [|done..].
        apply not_true_iff_false in Hc. rewrite distribute_clash_true in Hc.
        destruct (decide (vs = s)); [by left|].
        destruct (decide (s = Dim 1)); [by right; left|].
        destruct (decide (s = ANYTHING)); [by right; right|].
        exfalso. apply Hc. tauto.
      * rewrite Hc. simpl. split; [|right; eauto]. split; [done|].
        intros [_ Hall]. exfalso.
        assert (Hok : distribute_check v_shp shp = Ok tt); [|congruence].
        apply distribute_check_ok. intros i vs s Hvs Hs.
        apply not_true_iff_false. rewrite distribute_clash_true.
        intros (Hne & Hv1 & Hs1). destruct (Hall i vs s Hvs Hs Hv1) as [?|[?|?]];
          tauto.
Qed.

Lemma infer_shape_distribute_spec_witness :
  let v := Ref (Ok [Dim 3; Dim 1]) (Err KeyError) (Ok (Array TScalar)) in
  let shape := Ref (Err KeyError) (Ok AVAnything) (Ok (TTuple [TScalar; TScalar])) in
  infer_shape_distribute v shape = Ok (AVTuple [ANYTHING; ANYTHING]).
Proof.
  intros v shape.
  destruct (infer_shape_distribute_spec v shape AVAnything [TScalar; TScalar]
              (Array TScalar) eq_refl (λ _, eq_refl) eq_refl) as [_ H].
  destruct (H [Dim 3; Dim 1] [ANYTHING; ANYTHING] eq_refl eq_refl eq_refl)
    as [[_ Hok] _].
  apply Hok. split; [simpl; lia|].
  intros [|[|i]] vs s Hvs Hs _; simpl in *; try discriminate;
    right; right; congruence.
Defined.

(** C10. [distribute(v, shape)] raises the shape error "Cannot distribute
    to smaller shape" whenever [v] is an [Array] and the target has
    strictly fewer extents than the shape of [v], whatever the extents
    are: the rank is checked before any pair of extents. *)
Theorem infer_shape_distribute_smaller (v shape : ref Shape.shape) (value : aval)
    (elts : list atype) (v_t : atype) (v_shp shp : Shape.shape) :
  r_value shape = Ok value →
  (value = AVAnything → r_type shape = Ok (TTuple elts)) →
  r_type v = Ok v_t →
  is_Array v_t = true →
  r_shape v = Ok v_shp →
  distribute_target value elts = AVTuple shp →
  (length shp < length v_shp)%nat →
  infer_shape_distribute v shape =
    Err (MyiaShapeError "Cannot distribute to smaller shape").
Proof.
  intros Hval Hty Hvt Harr Hshp Htgt Hlen.
  unfold infer_shape_distribute. rewrite Hval. simpl.
  assert (Hstep : (match value with
     | AVAnything =>
         let? shp_t := r_type shape in
         let? elts := elements shp_t in
         Ok (AVTuple (replicate (length elts) ANYTHING))
     | _ => Ok value end) = Ok (AVTuple shp)).
  { destruct value; simpl in *; try congruence.
    rewrite (Hty eq_refl). simpl. congruence. }
  rewrite Hstep. simpl. rewrite Hvt. simpl. rewrite Harr, Hshp. simpl.
  rewrite bool_decide_eq_true_2 by done. reflexivity.
Qed.

Lemma infer_shape_distribute_smaller_witness :
  let v := Ref (Ok [Dim 2; Dim 7]) (Err KeyError) (Ok (Array TScalar)) in
  let shape := Ref (Err KeyError) (Ok (AVTuple [Dim 5])) (Ok (TTuple [TScalar])) in
  infer_shape_distribute v shape =
    Err (MyiaShapeError "Cannot distribute to smaller shape").
Proof.
  intros v shape.
  apply (infer_shape_distribute_smaller v shape (AVTuple [Dim 5]) [TScalar]
           (Array TScalar) [Dim 2; Dim 7] [Dim 5]);
    first [reflexivity | discriminate | simpl; lia].
Defined.

End ShapeClaims.

(** ** The VM *)

Section VMFacts.
Import VM.
Variable nodes : gmap node_id ANFNode.
Variable graphs : graph_id → Graph.
Variable toposort_vm : graph_id → list node_id.
Variable _vars : graph_id → list node_id.
Variable implementations : Primitive → list value → res value.
Variable py_implementations : Primitive → value.

Local Abbreviation handle := (_handle_node nodes graphs toposort_vm _vars implementations).
Local Abbreviation run := (run_todo nodes graphs toposort_vm _vars implementations).
Local Abbreviation run_n := (run_todo_n nodes graphs toposort_vm _vars implementations).
Local Abbreviation round_ :=
  (evaluate_round nodes graphs toposort_vm _vars implementations py_implementations).

(** [_handle_node] never touches the work list, and a node that raises
    leaves the frame as it was. *)
Lemma handle_node_frame node frame sig frame' :
  handle node frame = (sig, frame') →
  todo frame' = todo frame ∧ (sig ≠ Normal → frame' = frame).
Proof.
  unfold _handle_node. intros H.
  repeat (match type of H with
          | context [match ?x with _ => _ end] => destruct x eqn:?
          | context [if ?x then _ else _] => destruct x eqn:?
          end; simplify_eq; try done).
Qed.

(** A signal that leaves the inner loop was raised by the node on top of
    the work list, which is still there. *)
Lemma run_todo_n_signal n frame sig frame' :
  run_n n frame = (sig, frame') →
  sig ≠ Normal → sig ≠ Raise OutOfFuel →
  ∃ node, last (todo frame') = Some node ∧ handle node frame' = (sig, frame').
Proof.
  revert frame. induction n as [|n IH]; intros frame H Hn Hf; simpl in H.
  - destruct (last (todo frame)); simplify_eq; done.
  - destruct (last (todo frame)) as [node|] eqn:Hlast; [|simplify_eq; done].
    destruct (handle node frame) as [s f] eqn:Hh.
    destruct (handle_node_frame _ _ _ _ Hh) as [Htodo Hsame].
    destruct s; try (simplify_eq; rewrite (Hsame ltac:(done)) in *; eauto; fail).
    eapply IH; eauto.
Qed.

Lemma run_todo_signal frame sig frame' :
  run frame = (sig, frame') →
  sig ≠ Normal → sig ≠ Raise OutOfFuel →
  ∃ node, last (todo frame') = Some node ∧ handle node frame' = (sig, frame').
Proof. apply run_todo_n_signal. Qed.

(** A node on top of the work list that raises ends the inner loop. *)
Lemma run_todo_raise frame node e :
  last (todo frame) = Some node →
  handle node frame = (Raise e, frame) →
  run frame = (Raise e, frame).
Proof.
  intros Hlast Hh. unfold run_todo.
  destruct (todo frame) as [|x l] eqn:Ht; [done|]. simpl length.
  simpl. rewrite Ht, Hlast, Hh. reflexivity.
Qed.

Lemma set_last_snoc (frames : list VMFrame) x y :
  set_last (frames ++ [x]) y = frames ++ [y].
Proof. unfold set_last. by rewrite removelast_last. Qed.

(** C3. In one round of [evaluate]: a call signal is raised by the node on
    top of the current frame's work list; when that list is exactly the
    return node and the node being handled, the new frame replaces the top
    frame, and when it has any other length the new frame is pushed.  A
    return signal pops the top frame; with no frame left the value is
    exported and returned, otherwise the value is bound to the last entry
    of the parent's work list and that entry is dropped. *)
Theorem evaluate_round_signals (frames : list VMFrame) (frame frame' : VMFrame) :
  (∀ c, run frame = (_Call c, frame') →
     (∃ node, last (todo frame') = Some node ∧
              handle node frame' = (_Call c, frame')) ∧
     (∀ ret node, todo frame' = [ret; node] →
        round_ (frames ++ [frame]) = Continue (frames ++ [c])) ∧
     (length (todo frame') ≠ 2 →
        round_ (frames ++ [frame]) = Continue (frames ++ [frame'; c]))) ∧
  (∀ v, run frame = (_Return v, frame') →
     round_ [frame] = Finished (Ok (export py_implementations v)) ∧
     ∀ below parent rest pending,
       todo parent = rest ++ [pending] →
       round_ (below ++ [parent; frame]) =
         Continue (below ++ [set_todo (_set_node_value parent pending v) rest])).
Proof.
  split.
  - intros c Hrun. split; [|split].
    + eapply run_todo_signal; [exact Hrun|done..].
    + intros r node Htodo. unfold evaluate_round.
      rewrite last_snoc, Hrun, set_last_snoc, Htodo. simpl.
      by rewrite set_last_snoc.
    + intros Hlen. unfold evaluate_round.
      rewrite last_snoc, Hrun, set_last_snoc.
      rewrite bool_decide_eq_false_2 by done.
      by rewrite <- app_assoc.
  - intros v Hrun. split.
    + unfold evaluate_round. simpl. rewrite Hrun. reflexivity.
    + intros below parent rest pending Htodo. unfold evaluate_round.
      replace (below ++ [parent; frame]) with ((below ++ [parent]) ++ [frame])
        by (by rewrite <- app_assoc).
      rewrite last_snoc, Hrun, set_last_snoc, removelast_last, last_snoc.
      rewrite Htodo, last_snoc, set_last_snoc. simpl.
      rewrite Htodo, removelast_last. reflexivity.
Qed.

(** C9. An [Apply] whose callee evaluates to the [partial] primitive and
    that has a first argument: when that argument is a bare graph, the
    node's value becomes a [Partial] of the graph and the remaining
    arguments; for any other first argument the assertion fails, and a
    round of [evaluate] in which that node is on top of the work list ends
    the evaluation with the assertion error. *)
Theorem partial_requires_graph (node : node_id) (frame : VMFrame)
    (callee : node_id) (rest : list node_id) (g0 : graph_id)
    (partial_fn : value) (partial_args : list value) :
  nodes !! node = Some (Apply (callee :: rest) g0) →
  frame_get nodes frame callee = Ok (VConst (CPrim primops.partial)) →
  frame_get_all nodes frame rest = Ok (partial_fn :: partial_args) →
  (∀ g, partial_fn = VConst (CGraph g) →
     handle node frame =
       (Normal, _set_node_value frame node (Partial g partial_args)) ∧
     frame_get nodes (_set_node_value frame node (Partial g partial_args)) node =
       Ok (Partial g partial_args)) ∧
  ((∀ g, partial_fn ≠ VConst (CGraph g)) →
     ∃ msg,
       handle node frame = (Raise (AssertionError msg), frame) ∧
       ∀ frames fuel,
         last (todo frame) = Some node →
         round_ (frames ++ [frame]) = Finished (Err (AssertionError msg)) ∧
         evaluate_loop nodes graphs toposort_vm _vars implementations
           py_implementations (S fuel) (frames ++ [frame]) =
           Err (AssertionError msg)).
Proof.
  intros Hnode Hfn Hargs.
  assert (Hh : handle node frame =
    match partial_fn with
    | VConst (CGraph g) =>
        (Normal, _set_node_value frame node (Partial g partial_args))
    | _ => (Raise (AssertionError "isinstance(partial_fn, Graph)"), frame)
    end).
  { unfold _handle_node. rewrite Hnode, Hfn, Hargs. reflexivity. }
  split.
  - intros g ->. split; [done|].
    unfold frame_get, _set_node_value. simpl. by rewrite lookup_insert_eq.
  - intros Hng. exists "isinstance(partial_fn, Graph)".
    assert (Hr : handle node frame =
              (Raise (AssertionError "isinstance(partial_fn, Graph)"), frame)).
    { rewrite Hh. destruct partial_fn as [[]| | |]; try done.
      by destruct (Hng g). }
    split; [done|]. intros frames fuel Hlast.
    assert (Hround : round_ (frames ++ [frame]) =
              Finished (Err (AssertionError "isinstance(partial_fn, Graph)"))).
    { unfold evaluate_round.
      by rewrite last_snoc, (run_todo_raise _ _ _ Hlast Hr). }
    split; [done|]. simpl. by rewrite Hround.
Qed.

End VMFacts.

Section VMWitnesses.
Import VM VMSamples.

Lemma evaluate_round_signals_witness :
  let entry := new_frame (toposort0 0) None in
  let callee := new_frame (toposort0 1) None in
  let parent := mkFrame ∅ [3; 1] None in
  evaluate_round nodes0 graphs0 toposort0 no_vars no_impl host [entry] =
    Continue [callee] ∧
  evaluate_round nodes0 graphs0 toposort0 no_vars no_impl host [callee] =
    Finished (Ok (VConst (CInt 7))) ∧
  evaluate_round nodes0 graphs0 toposort0 no_vars no_impl host [parent; callee] =
    Continue [mkFrame {[1 := VConst (CInt 7)]} [3] None].
Proof.
  intros entry callee parent. split; [|split].
  - apply (proj1 (evaluate_round_signals nodes0 graphs0 toposort0 no_vars no_impl
                    host [] entry (mkFrame ∅ [3; 1] None)) callee eq_refl
             : _ ∧ _ ∧ _) with (ret := 3) (node := 1).
    reflexivity.
  - apply (proj2 (evaluate_round_signals nodes0 graphs0 toposort0 no_vars no_impl
                    host [] callee callee) (VConst (CInt 7)) eq_refl).
  - apply (proj2 (proj2 (evaluate_round_signals nodes0 graphs0 toposort0 no_vars
                    no_impl host [] callee callee) (VConst (CInt 7)) eq_refl)
             [] parent [3] 1 eq_refl).
Defined.

(** [partial(g1, 5)], once with the bare graph and once with the graph
    constant already turned into a closure. *)
Lemma partial_requires_graph_witness :
  let bare := mkFrame ∅ [3] None in
  let closed := mkFrame {[1 := Closure 1 (Some ∅)]} [3] None in
  _handle_node nodes1 graphs0 toposort0 no_vars no_impl 3 bare =
    (Normal, mkFrame {[3 := Partial 1 [VConst (CInt 5)]]} [3] None) ∧
  ∃ msg,
    evaluate_loop nodes1 graphs0 toposort0 no_vars no_impl host 1 [closed] =
      Err (AssertionError msg).
Proof.
  intros bare closed. split.
  - apply (proj1 (partial_requires_graph nodes1 graphs0 toposort0 no_vars no_impl
                    host 3 bare 0 [1; 2] 0 (VConst (CGraph 1)) [VConst (CInt 5)]
                    eq_refl eq_refl eq_refl) 1 eq_refl).
  - destruct (proj2 (partial_requires_graph nodes1 graphs0 toposort0 no_vars
                no_impl host 3 closed 0 [1; 2] 0 (Closure 1 (Some ∅))
                [VConst (CInt 5)] eq_refl eq_refl eq_refl) ltac:(done))
      as (msg & _ & H).
    exists msg. apply (H [] 0 eq_refl).
Defined.

End VMWitnesses.

(** ** The parser: stepping through the state monad *)

Section MonadFacts.
Import Parser.
Local Open Scope parser_scope.

Lemma bind_ok {A B} (m : M A) (f : A → M B) s a s' :
  m s = (Ok a, s') → bind m f s = f a s'.
Proof. unfold bind. by intros ->. Qed.

Lemma bind_err {A B} (m : M A) (f : A → M B) s e s' :
  m s = (Err e, s') → bind m f s = (Err e, s').
Proof. unfold bind. by intros ->. Qed.

Lemma bind_inv {A B} (m : M A) (f : A → M B) s r s' :
  bind m f s = (r, s') →
  (∃ a s1, m s = (Ok a, s1) ∧ f a s1 = (r, s')) ∨
  (∃ e, m s = (Err e, s') ∧ r = Err e).
Proof.
  unfold bind. destruct (m s) as [[a|e] s1]; intros H.
  - left. eauto.
  - right. simplify_eq. eauto.
Qed.

Lemma get_block_ok b B s :
  blocks s !! b = Some B → get_block b s = (Ok B, s).
Proof. unfold get_block, bind, get, lookup_or. by intros ->. Qed.

Lemma get_block_err b s :
  blocks s !! b = None → get_block b s = (Err Dangling, s).
Proof. unfold get_block, bind, get, lookup_or. by intros ->. Qed.

Lemma get_graph_ok g G s :
  graphs s !! g = Some G → get_graph g s = (Ok G, s).
Proof. unfold get_graph, bind, get, lookup_or. by intros ->. Qed.

Lemma get_node_ok n x s :
  nodes s !! n = Some x → get_node n s = (Ok x, s).
Proof. unfold get_node, bind, get, lookup_or. by intros ->. Qed.

Lemma update_block_ok b f B s :
  blocks s !! b = Some B →
  update_block b f s = (Ok tt, set_blocks s (<[b := f B]> (blocks s))).
Proof.
  intros H. unfold update_block. by rewrite (bind_ok _ _ _ _ _ (get_block_ok _ _ _ H)).
Qed.

Lemma update_graph_ok g f G s :
  graphs s !! g = Some G →
  update_graph g f s = (Ok tt, set_graphs s (<[g := f G]> (graphs s))).
Proof.
  intros H. unfold update_graph. by rewrite (bind_ok _ _ _ _ _ (get_graph_ok _ _ _ H)).
Qed.

Lemma block_graph_ok b B s :
  blocks s !! b = Some B → block_graph b s = (Ok (graph B), s).
Proof.
  intros H. unfold block_graph. by rewrite (bind_ok _ _ _ _ _ (get_block_ok _ _ _ H)).
Qed.

End MonadFacts.

(** ** The parser: [Block.read] *)

Section ReadFacts.
Import Parser ParserSpec.
Local Open Scope parser_scope.
Variable ns_contains : Namespace → string → bool.
Variable parser : Parser.

Lemma make_resolve_ok self B ns name s :
  blocks s !! self = Some B →
  make_resolve self ns name s =
    (Ok (length (nodes s) + 3), resolve_state s (graph B) ns name).
Proof.
  intros HB. unfold make_resolve.
  rewrite (bind_ok _ _ _ _ _ (block_graph_ok _ _ _ HB)).
  unfold bind, new_node, resolve_state, set_nodes. simpl.
  rewrite !length_app. simpl. rewrite <- !app_assoc. simpl.
  rewrite <- !Nat.add_assoc. reflexivity.
Qed.

Lemma _fresh_cases node s :
  _fresh node s =
    match nodes s !! node with
    | Some (Constant v) =>
        (Ok (length (nodes s)), set_nodes s (nodes s ++ [Constant v]))
    | Some _ => (Ok node, s)
    | None => (Err Dangling, s)
    end.
Proof.
  unfold _fresh, get_node, bind, get, lookup_or.
  destruct (nodes s !! node) as [[]|]; reflexivity.
Qed.

(** The four writes that make a phi node, in one step. *)
Lemma phi_registration self B G varnum s (k : node_id → M node_id) :
  blocks s !! self = Some B →
  graphs s !! graph B = Some G →
  (phi <- new_node (Parameter_ (graph B)) ;;
   append_parameter self phi ;;
   register_phi self phi varnum ;;
   write self varnum phi ;;
   k phi) s = k (length (nodes s)) (phi_state s self varnum).
Proof.
  intros HB HG. unfold phi_state. rewrite HB.
  unfold bind at 1. unfold new_node.
  unfold bind at 1. unfold append_parameter.
  erewrite bind_ok; [|by apply block_graph_ok].
  erewrite update_graph_ok; [|done].
  unfold bind at 1. unfold register_phi. erewrite update_block_ok; [|done].
  unfold bind at 1. unfold write. erewrite update_block_ok;
    [|by apply list_lookup_insert_eq, lookup_lt_Some with B].
  f_equal. unfold set_blocks, set_graphs, set_nodes. simpl.
  rewrite list_insert_insert_eq. f_equal.
  apply list_eq. intros i.
  destruct (decide (i = graph B)) as [->|Hne].
  - rewrite list_lookup_insert_eq by (by eapply lookup_lt_Some).
    by rewrite list_lookup_alter_eq, HG.
  - rewrite list_lookup_insert_ne by done. by rewrite list_lookup_alter_ne by done.
Qed.

(** The four cases of [Block.read], one lemma each. *)
Lemma read_local fuel s self B varnum node :
  blocks s !! self = Some B →
  variables B !! varnum = Some node →
  read ns_contains parser (S fuel) self varnum s =
    match nodes s !! node with
    | Some (Constant v) =>
        (Ok (length (nodes s)), set_nodes s (nodes s ++ [Constant v]))
    | Some _ => (Ok node, s)
    | None => (Err Dangling, s)
    end.
Proof.
  intros HB Hv. simpl.
  rewrite (bind_ok _ _ _ _ _ (get_block_ok _ _ _ HB)), Hv.
  apply _fresh_cases.
Qed.

Lemma read_single_pred fuel s self B varnum pred :
  blocks s !! self = Some B →
  variables B !! varnum = None →
  matured B = true → preds B = [pred] →
  read ns_contains parser (S fuel) self varnum s =
    read ns_contains parser fuel pred varnum s.
Proof.
  intros HB Hv Hm Hp. simpl.
  by rewrite (bind_ok _ _ _ _ _ (get_block_ok _ _ _ HB)), Hv, Hm, Hp.
Qed.

Lemma read_no_pred fuel s self B varnum :
  blocks s !! self = Some B →
  variables B !! varnum = None →
  matured B = true → preds B = [] →
  read ns_contains parser (S fuel) self varnum s =
    (Ok (length (nodes s) + 3),
     resolve_state s (graph B)
       (if ns_contains (closure_namespace parser) varnum
        then closure_namespace parser else global_namespace parser) varnum).
Proof.
  intros HB Hv Hm Hp. simpl.
  rewrite (bind_ok _ _ _ _ _ (get_block_ok _ _ _ HB)), Hv, Hm, Hp.
  destruct (ns_contains _ _); by apply make_resolve_ok.
Qed.

Lemma read_phi fuel s self B G varnum :
  blocks s !! self = Some B →
  variables B !! varnum = None →
  matured B = false ∨ (2 ≤ length (preds B))%nat →
  graphs s !! graph B = Some G →
  read ns_contains parser (S fuel) self varnum s =
    if matured B
    then (set_phi_arguments ns_contains parser fuel self (length (nodes s)) ;;
          ret (length (nodes s))) (phi_state s self varnum)
    else (Ok (length (nodes s)), phi_state s self varnum).
Proof.
  intros HB Hv Hcase HG. simpl.
  rewrite (bind_ok _ _ _ _ _ (get_block_ok _ _ _ HB)), Hv.
  set (phi := length (nodes s)).
  assert (Hphi : blocks (phi_state s self varnum) !! self =
            Some (mkBlock (matured B) (<[varnum := phi]> (variables B)) (preds B)
                    (<[phi := varnum]> (phi_nodes B)) (jumps B) (graph B))).
  { unfold phi_state. rewrite HB. simpl.
    apply list_lookup_insert_eq. by eapply lookup_lt_Some. }
  assert (Hgo :
    (phi <- new_node (Parameter_ (graph B)) ;;
     append_parameter self phi ;;
     register_phi self phi varnum ;;
     write self varnum phi ;;
     B <- get_block self ;;
     (if matured B
      then set_phi_arguments_with (read ns_contains parser fuel) self phi
      else ret tt) ;;
     ret phi) s =
    if matured B
    then (set_phi_arguments ns_contains parser fuel self phi ;; ret phi)
           (phi_state s self varnum)
    else (Ok phi, phi_state s self varnum)).
  { erewrite (phi_registration self B G varnum s); [|done..].
    rewrite (bind_ok _ _ _ _ _ (get_block_ok _ _ _ Hphi)). simpl.
    by destruct (matured B). }
  destruct (matured B) eqn:Hm, (preds B) as [|p [|q l]] eqn:Hp;
    try (destruct Hcase as [?|Hlen]; [done | simpl in Hlen; lia]);
    exact Hgo.
Qed.

(** C2, as stated, fails on its first case: a name bound locally to a
    constant is not answered with that node but with a copy of it. *)
Lemma read_local_constant_is_copied :
  ¬ (∀ fuel s self B varnum node,
       blocks s !! self = Some B →
       variables B !! varnum = Some node →
       (Parser.read ParserSamples.nowhere ParserSamples.sample_parser
          (S fuel) self varnum s).1 = Ok node).
Proof.
  intros H.
  specialize (H 0 ParserSamples.entry_state 0 ParserSamples.entry_block "x" 0
                eq_refl eq_refl).
  vm_compute in H. discriminate.
Qed.

(** C2, amended.  [read(name)] on a block resolves in this order: a name
    bound locally is answered with the bound node, or with a fresh copy of
    it when it is a constant; else a matured block with exactly one
    predecessor asks that predecessor; else a matured block without
    predecessors emits [apply(resolve, namespace, name)] in its graph,
    with the closure namespace when it contains the name and the module
    namespace otherwise; else (immature, or matured with two or more
    predecessors) a fresh parameter of the block's graph is made, appended
    to the graph's parameters, recorded as a phi node and written locally,
    and its arguments are backfilled at once when the block is matured. *)
Theorem read_resolution (fuel : nat) (s : state) (self : block_id) (B : Block)
    (varnum : string) :
  blocks s !! self = Some B →
  (∀ node, variables B !! varnum = Some node →
     read ns_contains parser (S fuel) self varnum s =
       match nodes s !! node with
       | Some (Constant v) =>
           (Ok (length (nodes s)), set_nodes s (nodes s ++ [Constant v]))
       | Some _ => (Ok node, s)
       | None => (Err Dangling, s)
       end) ∧
  (variables B !! varnum = None →
     (∀ pred, matured B = true → preds B = [pred] →
        read ns_contains parser (S fuel) self varnum s =
          read ns_contains parser fuel pred varnum s) ∧
     (matured B = true → preds B = [] →
        let ns := if ns_contains (closure_namespace parser) varnum
                  then closure_namespace parser
                  else global_namespace parser in
        read ns_contains parser (S fuel) self varnum s =
          (Ok (length (nodes s) + 3), resolve_state s (graph B) ns varnum)) ∧
     (matured B = false ∨ (2 ≤ length (preds B))%nat →
      ∀ G, graphs s !! graph B = Some G →
        let phi := length (nodes s) in
        read ns_contains parser (S fuel) self varnum s =
          if matured B
          then (set_phi_arguments ns_contains parser fuel self phi ;; ret phi)
                 (phi_state s self varnum)
          else (Ok phi, phi_state s self varnum))).
Proof.
  intros HB. split.
  - intros node Hv. by apply (read_local fuel s self B).
  - intros Hv. split; [|split].
    + intros pred Hm Hp. by apply (read_single_pred fuel s self B).
    + intros Hm Hp ns. by apply read_no_pred.
    + intros Hcase G HG phi. by apply (read_phi fuel s self B G).
Qed.

(** C7, as stated, fails: reading a name that no namespace holds, in a
    matured block without predecessors, raises nothing. *)
Lemma read_unresolved_name_is_no_error :
  ¬ (∀ fuel s self B name,
       blocks s !! self = Some B →
       matured B = true → preds B = [] →
       variables B !! name = None →
       (∀ ns, ParserSamples.nowhere ns name = false) →
       ∃ e s', Parser.read ParserSamples.nowhere ParserSamples.sample_parser
                 (S fuel) self name s = (Err e, s')).
Proof.
  intros H.
  destruct (H 0 ParserSamples.entry_state 0 ParserSamples.entry_block "y"
              eq_refl eq_refl eq_refl eq_refl (λ _, eq_refl)) as (e & s' & He).
  vm_compute in He. discriminate.
Qed.

(** C7, amended.  Reading a name that is not bound locally, in a matured
    block without predecessors, raises no error even when no namespace
    holds the name: a name the closure namespace does not hold is answered
    with [apply(resolve, module namespace, name)], built in the block's
    graph, and the module namespace is not asked whether it holds it. *)
Theorem read_falls_back_on_module_namespace (fuel : nat) (s : state)
    (self : block_id) (B : Block) (name : string) :
  blocks s !! self = Some B →
  matured B = true → preds B = [] →
  variables B !! name = None →
  ns_contains (closure_namespace parser) name = false →
  let n := length (nodes s) in
  ∃ s',
    read ns_contains parser (S fuel) self name s = (Ok (n + 3), s') ∧
    nodes s' = nodes s ++
      [Constant (CNamespace (global_namespace parser)); Constant (CStr name);
       Constant (CPrim primops.resolve); Apply [n + 2; n; n + 1] (graph B)] ∧
    graphs s' = graphs s ∧ blocks s' = blocks s.
Proof.
  intros HB Hm Hp Hv Hcn n.
  exists (resolve_state s (graph B) (global_namespace parser) name).
  split; [|done].
  rewrite (read_no_pred fuel s self B name HB Hv Hm Hp), Hcn. reflexivity.
Qed.

End ReadFacts.

Section ReadWitnesses.
Import Parser ParserSpec ParserSamples.

Lemma read_resolution_witness :
  read nowhere sample_parser 1 0 "x" entry_state =
    (Ok 1, set_nodes entry_state [Constant (CInt 1); Constant (CInt 1)]) ∧
  read nowhere sample_parser 1 0 "y" entry_state =
    (Ok 4, resolve_state entry_state 0 (ModuleNamespace "__main__") "y").
Proof.
  split.
  - apply (proj1 (read_resolution nowhere sample_parser 0 entry_state 0
                    entry_block "x" eq_refl) 0 eq_refl).
  - apply (proj1 (proj2 (proj2 (read_resolution nowhere sample_parser 0
                    entry_state 0 entry_block "y" eq_refl) eq_refl))
             eq_refl eq_refl).
Defined.

Lemma read_falls_back_on_module_namespace_witness :
  ∃ s', read nowhere sample_parser 1 0 "y" entry_state = (Ok 4, s') ∧
        nodes s' !! 4 = Some (Apply [3; 1; 2] 0) ∧
        nodes s' !! 1 = Some (Constant (CNamespace (ModuleNamespace "__main__"))).
Proof.
  destruct (read_falls_back_on_module_namespace nowhere sample_parser 0
              entry_state 0 entry_block "y" eq_refl eq_refl eq_refl eq_refl eq_refl)
    as (s' & Hr & Hn & _).
  exists s'. split; [exact Hr|]. rewrite Hn. split; reflexivity.
Defined.

End ReadWitnesses.

(** ** Memoization of [parse] *)

Section ParseFacts.
Import Parser Parse.
Variable ns_contains : Namespace → string → bool.
Variable fuel : nat.

(** A successful call leaves its graph in the cache. *)
Lemma parse_caches func w g w' :
  parse ns_contains fuel func w = (Ok g, w') →
  _parse_cache w' !! fn_id func = Some g.
Proof.
  unfold parse. destruct (_parse_cache w !! fn_id func) as [g0|] eqn:Hc.
  - intros. by simplify_eq.
  - destruct (Parser_parse _ _ _ _ _) as [[graph|e] s']; intros; simplify_eq.
    simpl. by rewrite lookup_insert_eq.
Qed.

(** No call changes an entry of the cache. *)
Lemma parse_keeps_cache func w k g :
  _parse_cache w !! k = Some g →
  _parse_cache (parse ns_contains fuel func w).2 !! k = Some g.
Proof.
  intros Hk. unfold parse.
  destruct (_parse_cache w !! fn_id func) as [g0|] eqn:Hc; [done|].
  destruct (Parser_parse _ _ _ _ _) as [[graph|e] s']; simpl; [|done].
  rewrite lookup_insert_ne; [done|]. intros <-. congruence.
Qed.

Lemma parse_all_keeps_cache funcs w k g :
  _parse_cache w !! k = Some g →
  _parse_cache (parse_all ns_contains fuel funcs w) !! k = Some g.
Proof.
  revert w. induction funcs as [|func funcs IH]; intros w Hk; [done|].
  simpl. apply IH. by apply parse_keeps_cache.
Qed.

(** C8. Once [parse(f)] has returned a graph, every later call to
    [parse(f)], after any number of calls to [parse] on any functions,
    returns the very same graph, from the cache and without touching the
    heap. *)
Theorem parse_memoized (func : FunctionType) (w w1 : world) (g : graph_id)
    (later : list FunctionType) :
  parse ns_contains fuel func w = (Ok g, w1) →
  let w2 := parse_all ns_contains fuel later w1 in
  parse ns_contains fuel func w2 = (Ok g, w2).
Proof.
  intros Hfirst w2.
  assert (Hc : _parse_cache w2 !! fn_id func = Some g).
  { apply parse_all_keeps_cache. by eapply parse_caches. }
  unfold parse. by rewrite Hc.
Qed.

End ParseFacts.

Lemma parse_memoized_witness :
  let w1 := (Parse.parse ParserSamples.nowhere 4 Parse.sample_f Parse.empty_world).2 in
  let w2 := Parse.parse_all ParserSamples.nowhere 4
              [Parse.sample_h; Parse.sample_f; Parse.sample_h] w1 in
  Parse.parse ParserSamples.nowhere 4 Parse.sample_f w2 = (Ok 0, w2).
Proof.
  intros w1 w2.
  apply (parse_memoized ParserSamples.nowhere 4 Parse.sample_f Parse.empty_world
           w1 0 [Parse.sample_h; Parse.sample_f; Parse.sample_h]).
  vm_compute. reflexivity.
Defined.

(** ** Induction on the AST

    The lists of sub-expressions and sub-statements come with the
    property for each of their elements. *)

Section AstInduction.

Lemma expr_nested_ind (P : ast.expr → Prop) :
  (∀ l op r, P l → P r → P (ast.BinOp l op r)) →
  (∀ op e, P e → P (ast.UnaryOp op e)) →
  (∀ l ops cs, P l → Forall P cs → P (ast.Compare l ops cs)) →
  (∀ id, P (ast.Name id)) →
  (∀ n, P (ast.Num n)) →
  (∀ s, P (ast.Str s)) →
  (∀ f args, P f → Forall P args → P (ast.Call f args)) →
  (∀ v, P (ast.NameConstant v)) →
  (∀ elts, Forall P elts → P (ast.Tuple elts)) →
  (∀ v sl, P v → P sl → P (ast.Subscript v sl)) →
  (∀ v, P v → P (ast.Index v)) →
  (∀ v attr, P v → P (ast.Attribute v attr)) →
  P ast.OtherExpr →
  ∀ e, P e.
Proof.
  intros HBin HUn HCmp HName HNum HStr HCall HNC HTup HSub HIdx HAttr HOther.
  fix IH 1. intros e.
  assert (IHs : ∀ es, Forall P es).
  { fix IHs 1. intros [|x es]; constructor; [apply IH | apply IHs]. }
  destruct e.
  - apply HBin; apply IH.
  - apply HUn; apply IH.
  - apply HCmp; [apply IH | apply IHs].
  - apply HName.
  - apply HNum.
  - apply HStr.
  - apply HCall; [apply IH | apply IHs].
  - apply HNC.
  - apply HTup; apply IHs.
  - apply HSub; apply IH.
  - apply HIdx; apply IH.
  - apply HAttr; apply IH.
  - apply HOther.
Qed.

Lemma stmt_nested_ind (P : ast.stmt → Prop) :
  (∀ name args body, Forall P body → P (ast.FunctionDef name args body)) →
  (∀ v, P (ast.Return v)) →
  (∀ targets v, P (ast.Assign targets v)) →
  (∀ v, P (ast.Expr v)) →
  (∀ test body orelse, Forall P body → Forall P orelse → P (ast.If test body orelse)) →
  (∀ test body orelse, Forall P body → Forall P orelse → P (ast.While test body orelse)) →
  P ast.OtherStmt →
  ∀ st, P st.
Proof.
  intros HDef HRet HAsg HExpr HIf HWhile HOther.
  fix IH 1. intros st.
  assert (IHs : ∀ sts, Forall P sts).
  { fix IHs 1. intros [|x sts]; constructor; [apply IH | apply IHs]. }
  destruct st.
  - apply HDef, IHs.
  - apply HRet.
  - apply HAsg.
  - apply HExpr.
  - apply HIf; apply IHs.
  - apply HWhile; apply IHs.
  - apply HOther.
Qed.

End AstInduction.

(** ** Properties closed under the parser's control flow

    A property [Spec] of computations that holds of the store primitives
    and is kept by sequencing holds of every method of [Block] and of
    every [process_] method of the parser. *)

Section Closure.
Import Parser.
Local Open Scope parser_scope.
Variable ns_contains : Namespace → string → bool.
Variable parser : Parser.
Variable fuel : nat.

Variable Spec : ∀ A : Type, M A → Prop.
Hypothesis Spec_ret : ∀ A (a : A), Spec A (ret a).
Hypothesis Spec_raise : ∀ A e, Spec A (raise e).
Hypothesis Spec_bind : ∀ A B (m : M A) (f : A → M B),
  Spec A m → (∀ a, Spec B (f a)) → Spec B (bind m f).
Hypothesis Spec_get_node : ∀ n, Spec _ (get_node n).
Hypothesis Spec_get_graph : ∀ g, Spec _ (get_graph g).
Hypothesis Spec_get_block : ∀ b, Spec _ (get_block b).
Hypothesis Spec_new_node : ∀ x, Spec _ (new_node x).
Hypothesis Spec_new_block : Spec _ new_block.
Hypothesis Spec_append_parameter : ∀ b p, Spec _ (append_parameter b p).
Hypothesis Spec_append_pred : ∀ b p, Spec _ (append_pred b p).
Hypothesis Spec_register_phi : ∀ b phi v, Spec _ (register_phi b phi v).
Hypothesis Spec_write : ∀ b v n, Spec _ (write b v n).
Hypothesis Spec_set_matured : ∀ b, Spec _ (set_matured b).
Hypothesis Spec_set_Parser_graph : ∀ g, Spec _ (set_Parser_graph g).
Hypothesis Spec_install_return : ∀ b r, Spec _ (install_return b r).
Hypothesis Spec_append_jump_argument : ∀ p b a, Spec _ (append_jump_argument p b a).
Hypothesis Spec_get_block_function : ∀ b, Spec _ (get_block_function b).
Hypothesis Spec_jump : ∀ b t, Spec _ (jump b t).

Ltac spec_step :=
  match goal with
  | |- Spec _ (bind _ _) => apply Spec_bind; [|intros ?]
  | |- Spec _ (ret _) => apply Spec_ret
  | |- Spec _ (raise _) => apply Spec_raise
  | |- Spec _ (match ?x with _ => _ end) => destruct x
  | |- Spec _ _ => solve [eauto]
  end.
Ltac spec := repeat spec_step.

Lemma Spec_lookup_or A e (o : option A) : Spec _ (lookup_or e o).
Proof. unfold lookup_or. spec. Qed.

Lemma Spec_assert c msg : Spec _ (assert c msg).
Proof. unfold assert. spec. Qed.

Lemma Spec_block_graph b : Spec _ (block_graph b).
Proof. unfold block_graph. spec. Qed.

Lemma Spec_graph_return b : Spec _ (graph_return b).
Proof. unfold graph_return. pose proof Spec_block_graph. spec. Qed.

Lemma Spec__fresh n : Spec _ (_fresh n).
Proof. unfold _fresh. spec. Qed.

Lemma Spec_make_resolve b ns name : Spec _ (make_resolve b ns name).
Proof. unfold make_resolve. pose proof Spec_block_graph. spec. Qed.

Lemma Spec_for_each A (f : A → M unit) xs :
  (∀ x, Spec _ (f x)) → Spec _ (for_each f xs).
Proof. intros Hf. induction xs; simpl; spec. Qed.

Lemma Spec_for_each_Forall A (f : A → M unit) xs :
  Forall (λ x, Spec _ (f x)) xs → Spec _ (for_each f xs).
Proof. induction 1; simpl; spec. Qed.

Lemma Spec_map_each A B (f : A → M B) xs :
  Forall (λ x, Spec _ (f x)) xs → Spec _ (map_each f xs).
Proof. induction 1; simpl; spec. Qed.

Lemma Spec_set_phi_arguments_with rd b phi :
  (∀ p v, Spec _ (rd p v)) → Spec _ (set_phi_arguments_with rd b phi).
Proof.
  intros Hrd. unfold set_phi_arguments_with.
  pose proof Spec_lookup_or. spec.
  apply Spec_for_each. intros. spec.
Qed.

Lemma Spec_read n b v : Spec _ (read ns_contains parser n b v).
Proof.
  revert b v. induction n as [|n IH]; intros b v; simpl; [spec|].
  pose proof Spec__fresh. pose proof Spec_make_resolve.
  pose proof (λ b phi, Spec_set_phi_arguments_with _ b phi IH).
  spec.
Qed.

Lemma Spec_set_phi_arguments n b phi :
  Spec _ (set_phi_arguments ns_contains parser n b phi).
Proof. apply Spec_set_phi_arguments_with, Spec_read. Qed.

Lemma Spec_mature_loop n b k i : Spec _ (mature_loop ns_contains parser n b k i).
Proof.
  revert i. induction k as [|k IH]; intros i; simpl;
    pose proof Spec_set_phi_arguments; spec.
Qed.

Lemma Spec_mature n b : Spec _ (mature ns_contains parser n b).
Proof. unfold mature. pose proof Spec_mature_loop. spec. Qed.

Lemma Spec_cond b c t f : Spec _ (cond b c t f).
Proof. unfold cond. pose proof Spec_block_graph. spec. Qed.

Lemma Spec__resolve_operator b op : Spec _ (_resolve_operator b op).
Proof. unfold _resolve_operator. pose proof Spec_make_resolve. spec. Qed.

Lemma Spec__resolve_unaryop b op : Spec _ (_resolve_unaryop b op).
Proof. unfold _resolve_unaryop. pose proof Spec_make_resolve. spec. Qed.

Lemma Spec__resolve_cmpop b op : Spec _ (_resolve_cmpop b op).
Proof.
  unfold _resolve_cmpop. pose proof Spec_make_resolve. pose proof Spec_lookup_or.
  spec.
Qed.

Lemma Spec_cons op g elts : Spec _ (cons op g elts).
Proof. induction elts; simpl; spec. Qed.

Lemma Spec_process_node b e : Spec _ (process_node ns_contains parser fuel b e).
Proof.
  pose proof Spec_block_graph. pose proof Spec_make_resolve.
  pose proof Spec__resolve_operator. pose proof Spec__resolve_unaryop.
  pose proof Spec_lookup_or. pose proof Spec_assert. pose proof Spec_cons.
  pose proof Spec_read.
  induction e as [| |l ops cs IHl IHcs| | | |f args IHf IHargs| |elts IHelts| | | |]
    using expr_nested_ind; simpl; spec.
  - apply Spec_map_each, Forall_forall. intros. apply Spec__resolve_cmpop.
  - by inversion IHcs.
  - by apply Spec_map_each.
  - by apply Spec_map_each.
Qed.

Lemma Spec_assign_write b targ anf :
  Spec _ (assign_write b targ anf).
Proof.
  pose proof Spec_block_graph. pose proof Spec_make_resolve.
  revert anf.
  induction targ as [| | | | | | | |elts IHelts| | | |]
    using expr_nested_ind; intros anf; simpl; spec.
  generalize 0%Z. induction IHelts; intros i; spec.
Qed.

Lemma Spec_process_Assign b targets v :
  Spec _ (process_Assign ns_contains parser fuel b targets v).
Proof.
  unfold process_Assign. pose proof Spec_process_node. spec.
  apply Spec_for_each. intros. apply Spec_assign_write.
Qed.

Lemma Spec_process_Return b v :
  Spec _ (process_Return ns_contains parser fuel b v).
Proof.
  unfold process_Return. pose proof Spec_process_node. pose proof Spec_block_graph.
  spec.
Qed.

Lemma Spec_jump_unless_returned e t : Spec _ (jump_unless_returned e t).
Proof. unfold jump_unless_returned. pose proof Spec_graph_return. spec. Qed.

Section Statements.
(** Any [mature] that has the property will do. *)
Variable mature_ : block_id → M unit.
Hypothesis Spec_mature_ : ∀ b, Spec _ (mature_ b).

Section Bodies.
Variable process_statements : block_id → list ast.stmt → M block_id.

Lemma Spec_process_If_with b test body orelse :
  (∀ b, Spec _ (process_statements b body)) →
  (∀ b, Spec _ (process_statements b orelse)) →
  Spec _ (process_If_with ns_contains parser fuel mature_ process_statements
            b test body orelse).
Proof.
  intros. unfold process_If_with.
  pose proof Spec_process_node.
  pose proof Spec_jump_unless_returned. pose proof Spec_cond. spec.
Qed.

Lemma Spec_process_While_with b test body :
  (∀ b, Spec _ (process_statements b body)) →
  Spec _ (process_While_with ns_contains parser fuel mature_ process_statements
            b test body).
Proof.
  intros. unfold process_While_with.
  pose proof Spec_process_node.
  pose proof Spec_jump_unless_returned. pose proof Spec_cond. spec.
Qed.

Lemma Spec__process_function_with b name args body :
  (∀ b, Spec _ (process_statements b body)) →
  Spec _ (_process_function_with mature_ process_statements b name args body).
Proof.
  intros. unfold _process_function_with.
  pose proof Spec_block_graph. spec.
  apply Spec_for_each. intros. spec.
Qed.

End Bodies.

Lemma Spec_process_stmt_list (sts : list ast.stmt) :
  Forall (λ st, ∀ b, Spec _ (process_stmt_with ns_contains parser fuel mature_ b st)) sts →
  ∀ b, Spec _ (process_statements_with ns_contains parser fuel mature_ b sts).
Proof. induction 1; intros b; simpl; spec. Qed.

Lemma Spec_process_stmt_with b st :
  Spec _ (process_stmt_with ns_contains parser fuel mature_ b st).
Proof.
  revert b.
  induction st as [name args body IH| | | |test body orelse IHb IHo
                  |test body orelse IHb IHo|] using stmt_nested_ind; intros b.
  - change (Spec _ (r <- _process_function_with mature_
                          (process_statements_with ns_contains parser fuel mature_)
                          (Some b) name args body ;;
                    fn <- get_block_function (snd r) ;;
                    write b name fn ;; ret b)).
    pose proof (Spec__process_function_with _ (Some b) name args body
                  (Spec_process_stmt_list _ IH)). spec.
  - apply Spec_process_Return.
  - apply Spec_process_Assign.
  - simpl. spec.
  - apply (Spec_process_If_with
             (process_statements_with ns_contains parser fuel mature_));
      by apply Spec_process_stmt_list.
  - apply (Spec_process_While_with
             (process_statements_with ns_contains parser fuel mature_));
      by apply Spec_process_stmt_list.
  - simpl. spec.
Qed.

Lemma Spec_process_statements_with b sts :
  Spec _ (process_statements_with ns_contains parser fuel mature_ b sts).
Proof.
  apply Spec_process_stmt_list, Forall_forall. intros. apply Spec_process_stmt_with.
Qed.

Lemma Spec_Parser_parse_with def :
  Spec _ (Parser_parse_with ns_contains parser fuel mature_ def).
Proof.
  unfold Parser_parse_with.
  pose proof (λ b name args body,
    Spec__process_function_with _ b name args body
      (λ b, Spec_process_statements_with b body)).
  pose proof Spec_block_graph. spec.
Qed.

End Statements.

Lemma Spec_process_statements b sts :
  Spec _ (process_statements ns_contains parser fuel b sts).
Proof. apply Spec_process_statements_with, Spec_mature. Qed.

Lemma Spec_Parser_parse def : Spec _ (Parser_parse ns_contains parser fuel def).
Proof. apply Spec_Parser_parse_with, Spec_mature. Qed.

End Closure.

(** ** Every parser operation extends the heap *)

Section Extends.
Import Parser ParserSpec.
Local Open Scope parser_scope.

Lemma node_grows_refl x : node_grows x x.
Proof. destruct x; simpl; done. Qed.

Lemma node_grows_trans x y z : node_grows x y → node_grows y z → node_grows x z.
Proof.
  destruct x, y, z; simpl; try done; try congruence.
  intros [-> H1] [-> H2]. split; [done | by etrans].
Qed.

Lemma extends_refl s : extends s s.
Proof.
  split; eauto.
  - intros n x Hn. exists x. split; [done | apply node_grows_refl].
  - intros n x Hn Hne. done.
Qed.

Lemma extends_trans s1 s2 s3 : extends s1 s2 → extends s2 s3 → extends s1 s3.
Proof.
  intros [N1 C1 J1 R1] [N2 C2 J2 R2]. split.
  - intros n x Hn. destruct (N1 n x Hn) as (y & Hy & Hxy).
    destruct (N2 n y Hy) as (z & Hz & Hyz). exists z.
    split; [done | by eapply node_grows_trans].
  - intros n x Hn Hne.
    destruct (decide (nodes s2 !! n = Some x)) as [Heq|Hneq].
    + eapply J1; [done|]. by eapply C2.
    + by eapply C1.
  - intros n x Hn Hj. destruct (N1 n x Hn) as (y & Hy & _). eauto.
  - intros g G r HG Hr. destruct (R1 g G r HG Hr) as (G' & HG' & Hr'). eauto.
Qed.

(** A step that leaves the nodes and the jumps alone and keeps every
    return node that is set. *)
Lemma extends_quiet s s' :
  nodes s' = nodes s →
  (∀ n, is_jump s' n → is_jump s n) →
  (∀ g G r, graphs s !! g = Some G → return_ G = Some r →
     ∃ G', graphs s' !! g = Some G' ∧ return_ G' = Some r) →
  extends s s'.
Proof.
  intros Hn Hj Hr. split; rewrite ?Hn; eauto.
  - intros n x Hx. exists x. split; [done | apply node_grows_refl].
  - done.
Qed.

(** Allocation of a node. *)
Lemma extends_new_node s x : extends s (set_nodes s (nodes s ++ [x])).
Proof.
  split; simpl; eauto.
  - intros n y Hn. exists y. split; [by apply lookup_app_l_Some | apply node_grows_refl].
  - intros n y Hn Hne. destruct Hne. by apply lookup_app_l_Some.
Qed.

(** Replacing a block by one with the same jumps. *)
Lemma is_jump_update s b B B' n :
  blocks s !! b = Some B → jumps B' = jumps B →
  is_jump (set_blocks s (<[b := B']> (blocks s))) n → is_jump s n.
Proof.
  intros HB Hj (b0 & B0 & t & Hb0 & Ht). simpl in Hb0.
  apply list_lookup_insert_Some in Hb0 as [(Heq & HB' & _)|[Hne Hb0]].
  - subst b0 B0. exists b, B, t. by rewrite <- Hj.
  - by exists b0, B0, t.
Qed.

Lemma extends_update_block s b B B' :
  blocks s !! b = Some B → jumps B' = jumps B →
  extends s (set_blocks s (<[b := B']> (blocks s))).
Proof.
  intros HB Hj. apply extends_quiet; [done| |eauto].
  intros n. by apply is_jump_update with B.
Qed.

Lemma extends_update_graph s g G G' :
  graphs s !! g = Some G →
  (∀ r, return_ G = Some r → return_ G' = Some r) →
  extends s (set_graphs s (<[g := G']> (graphs s))).
Proof.
  intros HG Hr. apply extends_quiet; [done|done|].
  intros g0 G0 r HG0 Hr0. simpl.
  destruct (decide (g0 = g)) as [->|Hne].
  - exists G'. rewrite list_lookup_insert_eq by (by eapply lookup_lt_Some).
    split; [done|]. apply Hr. congruence.
  - exists G0. by rewrite list_lookup_insert_ne.
Qed.

(** Appending an argument to a jump node. *)
Lemma extends_append_input s n inputs g arg :
  is_jump s n → nodes s !! n = Some (Apply inputs g) →
  extends s (set_nodes s (<[n := Apply (inputs ++ [arg]) g]> (nodes s))).
Proof.
  intros Hj Hn. split; simpl; eauto.
  - intros m x Hm. destruct (decide (m = n)) as [->|Hne].
    + exists (Apply (inputs ++ [arg]) g).
      rewrite list_lookup_insert_eq by (by eapply lookup_lt_Some).
      split; [done|]. simplify_eq. simpl. split; [done | by apply prefix_app_r].
    + exists x. rewrite list_lookup_insert_ne by done.
      split; [done | apply node_grows_refl].
  - intros m x Hm Hne. destruct (decide (m = n)) as [->|Hmn]; [done|].
    destruct Hne. by rewrite list_lookup_insert_ne.
Qed.

Lemma extending_ret A (a : A) : extending A (ret a).
Proof. intros s r s' H. unfold ret in H. simplify_eq. apply extends_refl. Qed.

Lemma extending_raise A e : extending A (raise e).
Proof. intros s r s' H. unfold raise in H. simplify_eq. apply extends_refl. Qed.

Lemma extending_bind A B (m : M A) (f : A → M B) :
  extending A m → (∀ a, extending B (f a)) → extending B (bind m f).
Proof.
  intros Hm Hf s r s' H.
  apply bind_inv in H as [(a & s1 & H1 & H2)|(e & H1 & _)].
  - eapply extends_trans; [by eapply Hm | by eapply Hf].
  - by eapply Hm.
Qed.

Lemma extending_get_node n : extending _ (get_node n).
Proof.
  intros s r s' H. unfold get_node, bind, get, lookup_or, ret, raise in H.
  destruct (nodes s !! n); simplify_eq; apply extends_refl.
Qed.

Lemma extending_get_graph g : extending _ (get_graph g).
Proof.
  intros s r s' H. unfold get_graph, bind, get, lookup_or, ret, raise in H.
  destruct (graphs s !! g); simplify_eq; apply extends_refl.
Qed.

Lemma extending_get_block b : extending _ (get_block b).
Proof.
  intros s r s' H. unfold get_block, bind, get, lookup_or, ret, raise in H.
  destruct (blocks s !! b); simplify_eq; apply extends_refl.
Qed.

Lemma extending_new_node x : extending _ (new_node x).
Proof. intros s r s' H. unfold new_node in H. simplify_eq. apply extends_new_node. Qed.

Lemma update_block_inv b f s r s' :
  update_block b f s = (r, s') →
  (∃ B, blocks s !! b = Some B ∧ r = Ok tt ∧
        s' = set_blocks s (<[b := f B]> (blocks s))) ∨
  (blocks s !! b = None ∧ r = Err Dangling ∧ s' = s).
Proof.
  unfold update_block, get_block, bind, get, put, lookup_or, ret, raise.
  destruct (blocks s !! b) as [B|]; intros; simplify_eq; eauto.
Qed.

Lemma update_graph_inv g f s r s' :
  update_graph g f s = (r, s') →
  (∃ G, graphs s !! g = Some G ∧ r = Ok tt ∧
        s' = set_graphs s (<[g := f G]> (graphs s))) ∨
  (graphs s !! g = None ∧ r = Err Dangling ∧ s' = s).
Proof.
  unfold update_graph, get_graph, bind, get, put, lookup_or, ret, raise.
  destruct (graphs s !! g) as [G|]; intros; simplify_eq; eauto.
Qed.

Lemma block_graph_inv b s r s' :
  block_graph b s = (r, s') →
  s' = s ∧ ((∃ B, blocks s !! b = Some B ∧ r = Ok (graph B)) ∨
            (blocks s !! b = None ∧ r = Err Dangling)).
Proof.
  unfold block_graph, get_block, bind, get, lookup_or, ret, raise.
  destruct (blocks s !! b) as [B|]; intros; simplify_eq; eauto.
Qed.

Lemma graph_return_inv b s r s' :
  graph_return b s = (r, s') →
  s' = s ∧ (r = Ok (return_of s b) ∨ r = Err Dangling).
Proof.
  unfold graph_return, block_graph, get_block, get_graph, bind, get, lookup_or,
    ret, raise, return_of.
  destruct (blocks s !! b) as [B|]; simpl; [|intros; simplify_eq; eauto].
  destruct (graphs s !! graph B) as [G|]; simpl; intros; simplify_eq; eauto.
Qed.

Lemma extending_update_block b f :
  (∀ B, jumps (f B) = jumps B) → extending _ (update_block b f).
Proof.
  intros Hf s r s' H.
  apply update_block_inv in H as [(B & HB & _ & ->)|(_ & _ & ->)].
  - by eapply extends_update_block.
  - apply extends_refl.
Qed.

Lemma extending_update_graph g f :
  (∀ G r, return_ G = Some r → return_ (f G) = Some r) →
  extending _ (update_graph g f).
Proof.
  intros Hf s r s' H.
  apply update_graph_inv in H as [(G & HG & _ & ->)|(_ & _ & ->)].
  - eapply extends_update_graph; eauto.
  - apply extends_refl.
Qed.

Lemma extending_block_graph b : extending _ (block_graph b).
Proof. intros s r s' H. apply block_graph_inv in H as [-> _]. apply extends_refl. Qed.

Lemma extending_append_parameter b p : extending _ (append_parameter b p).
Proof.
  unfold append_parameter. apply extending_bind; [apply extending_block_graph|].
  intros g. by apply extending_update_graph.
Qed.

Lemma extending_append_pred b p : extending _ (append_pred b p).
Proof. by apply extending_update_block. Qed.

Lemma extending_register_phi b phi v : extending _ (register_phi b phi v).
Proof. by apply extending_update_block. Qed.

Lemma extending_write b v n : extending _ (write b v n).
Proof. by apply extending_update_block. Qed.

Lemma extending_set_matured b : extending _ (set_matured b).
Proof. by apply extending_update_block. Qed.

Lemma extending_set_Parser_graph g : extending _ (set_Parser_graph g).
Proof.
  intros s r s' H. unfold set_Parser_graph, bind, get, put in H. simplify_eq.
  apply extends_quiet; eauto.
Qed.

Lemma extending_new_block : extending _ new_block.
Proof.
  intros s r s' H. unfold new_block, bind, new_graph in H. simplify_eq.
  apply extends_quiet; simpl.
  - done.
  - intros n (b & B & t & Hb & Ht).
    apply lookup_app_Some in Hb as [Hb|[_ Hb]]; [by exists b, B, t|].
    apply list_lookup_singleton_Some in Hb as [_ <-]. simpl in Ht.
    by rewrite lookup_empty in Ht.
  - intros g G r HG Hr. exists G. split; [by apply lookup_app_l_Some | done].
Qed.

Lemma install_return_inv b r s res s' :
  install_return b r s = (res, s') →
  (res = Ok tt ∧ ∃ B G, blocks s !! b = Some B ∧ graphs s !! graph B = Some G ∧
     return_ G = None ∧
     s' = set_graphs s (<[graph B := mkGraph (parameters G) (Some r)]> (graphs s))) ∨
  (s' = s ∧ ∃ e, res = Err e).
Proof.
  unfold install_return, graph_return, set_return, update_graph, block_graph,
    get_block, get_graph, assert, bind, get, put, lookup_or, ret, raise.
  destruct (blocks s !! b) as [B|] eqn:HB; simpl; [|intros; simplify_eq; eauto].
  destruct (graphs s !! graph B) as [G|] eqn:HG; simpl; [|intros; simplify_eq; eauto].
  case_bool_decide as Hr; simpl; [|intros; simplify_eq; eauto].
  rewrite HB. simpl. rewrite HG. simpl. intros. simplify_eq. left.
  split; [done|]. by exists B, G.
Qed.

Lemma extending_install_return b r : extending _ (install_return b r).
Proof.
  intros s res s' H.
  apply install_return_inv in H as [(_ & B & G & HB & HG & Hr & ->)|[-> _]].
  - eapply extends_update_graph; [done|]. intros r0. by rewrite Hr.
  - apply extends_refl.
Qed.

Lemma append_jump_argument_inv pred self arg s res s' :
  append_jump_argument pred self arg s = (res, s') →
  (res = Ok tt ∧ ∃ P j inputs g, blocks s !! pred = Some P ∧
     jumps P !! self = Some j ∧ nodes s !! j = Some (Apply inputs g) ∧
     s' = set_nodes s (<[j := Apply (inputs ++ [arg]) g]> (nodes s))) ∨
  (s' = s ∧ ∃ e, res = Err e).
Proof.
  unfold append_jump_argument, append_input, get_block, get_node, bind, get, put,
    lookup_or, ret, raise.
  destruct (blocks s !! pred) as [P|] eqn:HP; simpl; [|intros; simplify_eq; eauto].
  destruct (jumps P !! self) as [j|] eqn:Hj; simpl; [|intros; simplify_eq; eauto].
  destruct (nodes s !! j) as [[inputs g| | |]|] eqn:Hn; simpl;
    intros; simplify_eq; eauto.
  left. split; [done|]. by exists P, j, inputs, g.
Qed.

Lemma extending_append_jump_argument p b a :
  extending _ (append_jump_argument p b a).
Proof.
  intros s res s' H.
  apply append_jump_argument_inv in H
    as [(_ & P & j & inputs & g & HP & Hj & Hn & ->)|[-> _]].
  - apply extends_append_input; [|done]. by exists p, P, b.
  - apply extends_refl.
Qed.

Lemma extending__fresh n : extending _ (_fresh n).
Proof.
  unfold _fresh. apply extending_bind; [apply extending_get_node|].
  intros []; first [apply extending_new_node | apply extending_ret].
Qed.

Lemma extending_get_block_function b : extending _ (get_block_function b).
Proof.
  unfold get_block_function. apply extending_bind.
  { intros s r s' H. unfold block_function_of, bind, get, ret in H. simplify_eq.
    apply extends_refl. }
  intros [c|]; [apply extending__fresh|].
  apply extending_bind; [apply extending_block_graph|]. intros g.
  apply extending_bind; [apply extending_new_node|]. intros node.
  apply extending_bind; [|intros; apply extending_ret].
  intros s r s' H. unfold remember_block_function, bind, get, put in H.
  simplify_eq. apply extends_quiet; eauto.
Qed.

(** A jump node is recorded as soon as it is made. *)
Lemma extending_new_jump A x self target (k : node_id → M A) :
  (∀ j, extending A (k j)) →
  extending A (j <- new_node x ;; record_jump self target j ;; k j).
Proof.
  intros Hk s r s' H. unfold bind at 1 in H. unfold new_node in H.
  apply bind_inv in H as [(a & s1 & H1 & H2)|(e & H1 & _)].
  - eapply extends_trans; [|by eapply Hk].
    apply update_block_inv in H1 as [(B & HB & _ & ->)|(_ & _ & ->)];
      [|apply extends_new_node].
    split; simpl.
    + intros n y Hn. exists y.
      split; [by apply lookup_app_l_Some | apply node_grows_refl].
    + intros n y Hn Hne. destruct Hne. by apply lookup_app_l_Some.
    + intros n y Hn (b0 & B0 & t & Hb0 & Ht). simpl in *.
      apply list_lookup_insert_Some in Hb0 as [(Heq & HB' & _)|[Hne Hb0]];
        [|by exists b0, B0, t].
      subst b0 B0. simpl in Ht.
      apply lookup_insert_Some in Ht as [[_ <-]|[_ Ht]]; [|by exists self, B, t].
      apply lookup_lt_Some in Hn. lia.
    + eauto.
  - apply update_block_inv in H1 as [(B & HB & ? & ->)|(_ & _ & ->)]; [done|].
    apply extends_new_node.
Qed.

Lemma extending_jump b t : extending _ (jump b t).
Proof.
  unfold jump. apply extending_bind; [apply extending_block_graph|]. intros g.
  apply extending_bind; [apply extending_get_block_function|]. intros c.
  apply extending_new_jump. intros j.
  apply extending_bind; [apply extending_append_pred|]. intros _.
  apply extending_bind; [apply extending_new_node|]. intros rc.
  apply extending_bind; [apply extending_new_node|]. intros r.
  apply extending_bind; [apply extending_install_return|]. intros _.
  apply extending_ret.
Qed.

(** Every statement list extends the heap. *)
Lemma extending_process_statements ns_contains parser fuel b sts :
  extending _ (process_statements ns_contains parser fuel b sts).
Proof.
  apply Spec_process_statements;
    auto using extending_ret, extending_raise, extending_bind,
      extending_get_node, extending_get_graph, extending_get_block,
      extending_new_node, extending_new_block, extending_append_parameter,
      extending_append_pred, extending_register_phi, extending_write,
      extending_set_matured, extending_set_Parser_graph,
      extending_install_return, extending_append_jump_argument,
      extending_get_block_function, extending_jump.
Qed.

Lemma extending_read ns_contains parser fuel b v :
  extending _ (read ns_contains parser fuel b v).
Proof.
  apply Spec_read;
    auto using extending_ret, extending_raise, extending_bind,
      extending_get_node, extending_get_block, extending_new_node,
      extending_append_parameter, extending_register_phi, extending_write,
      extending_append_jump_argument.
Qed.

Lemma extending_mature ns_contains parser fuel b :
  extending _ (mature ns_contains parser fuel b).
Proof.
  apply Spec_mature;
    auto using extending_ret, extending_raise, extending_bind,
      extending_get_node, extending_get_graph, extending_get_block,
      extending_new_node, extending_append_parameter, extending_register_phi,
      extending_write, extending_set_matured, extending_append_jump_argument.
Qed.



End Extends.

(** ** Return nodes are installed once *)

Section Returns.
Import Parser ParserSpec.
Local Open Scope parser_scope.

Lemma returns_kept_refl s : returns_kept s s.
Proof. split; eauto. Qed.


Lemma returns_kept_return_of s s' b r :
  returns_kept s s' → return_of s b = Some r → return_of s' b = Some r.
Proof.
  intros [HB HG]. unfold return_of.
  destruct (blocks s !! b) as [B|] eqn:Hb; simpl; [|done].
  destruct (graphs s !! graph B) as [G|] eqn:Hg; simpl; [|done].
  destruct (HB b B Hb) as (B' & -> & Hgr). simpl. rewrite Hgr.
  destruct (HG _ G Hg) as (G' & -> & Hr). simpl. congruence.
Qed.





Lemma keeping_get_graph g : keeping _ (get_graph g).
Proof.
  intros s r s' H. unfold get_graph, bind, get, lookup_or, ret, raise in H.
  destruct (graphs s !! g); simplify_eq; apply returns_kept_refl.
Qed.



Lemma keeping_new_block : keeping _ new_block.
Proof.
  intros s r s' H. unfold new_block, bind, new_graph in H. simplify_eq.
  split; simpl.
  - intros b B HB. exists B. split; [by apply lookup_app_l_Some | done].
  - intros g G HG. exists G. split; [by apply lookup_app_l_Some | done].
Qed.












(** A return node is installed only where none was set. *)
Lemma install_return_unset b r s s' :
  install_return b r s = (Ok tt, s') → return_of s b = None.
Proof.
  intros H. apply install_return_inv in H
    as [(_ & B & G & HB & HG & Hr & _)|[_ [e ?]]]; [|done].
  unfold return_of. rewrite HB. simpl. by rewrite HG.
Qed.

Lemma guarded_install A (m : M A) b (k : A → node_id) s a s1 s' r0 :
  keeping A m →
  m s = (Ok a, s1) →
  install_return b (k a) s1 = (Ok tt, s') →
  return_of s b = Some r0 → False.
Proof.
  intros Hm H1 H2 Hr.
  apply install_return_unset in H2.
  apply (returns_kept_return_of _ _ _ _ (Hm _ _ _ H1)) in Hr. congruence.
Qed.

End Returns.

(** ** Well-formed heaps *)

Section WellFormed.
Import Parser ParserSpec.
Local Open Scope parser_scope.

Lemma return_of_transfer s s' b B B' :
  blocks s !! b = Some B → blocks s' !! b = Some B' → graph B' = graph B →
  return_ <$> graphs s' !! graph B = return_ <$> graphs s !! graph B →
  return_of s' b = return_of s b.
Proof.
  intros HB HB' Hg Hr. unfold return_of. rewrite HB, HB'. simpl. rewrite Hg.
  destruct (graphs s' !! graph B), (graphs s !! graph B); simpl in *; congruence.
Qed.

(** A step that keeps the graph and the jumps of every block, the return
    node of every graph and every node keeps the heap well formed. *)
Lemma wf_transfer s s' :
  well_formed s →
  (∀ b B', blocks s' !! b = Some B' →
     ∃ B, blocks s !! b = Some B ∧ graph B' = graph B ∧ jumps B' = jumps B) →
  (∀ g, is_Some (graphs s !! g) → is_Some (graphs s' !! g)) →
  (∀ g, return_ <$> graphs s' !! g = return_ <$> graphs s !! g) →
  keeps_nodes s s' →
  (∀ b c, block_map s' !! b = Some c →
     ∃ g, nodes s' !! c = Some (Constant (CGraph g))) →
  well_formed s'.
Proof.
  intros [Wg Wa Wj Wn Wm] Hb Hdom Hr Hn Hm. split.
  - intros b B' HB'. destruct (Hb b B' HB') as (B & HB & Hg & _).
    rewrite Hg. eauto.
  - intros b1 b2 B1' B2' H1 H2 Hg.
    destruct (Hb b1 B1' H1) as (B1 & HB1 & Hg1 & _).
    destruct (Hb b2 B2' H2) as (B2 & HB2 & Hg2 & _).
    apply (Wa b1 b2 B1 B2); congruence.
  - intros b B' t j HB' Hj.
    destruct (Hb b B' HB') as (B & HB & Hg & Hjs). rewrite Hjs in Hj.
    destruct (Wj b B t j HB Hj) as (B0 & r & c & HB0 & Hret & Hnr & Hnc).
    simplify_eq. exists B', r, c. split; [done|]. split; [|split].
    + by rewrite (return_of_transfer s s' b B B').
    + rewrite Hg. by apply Hn.
    + by apply Hn.
  - intros b B' t j HB' Hj.
    destruct (Hb b B' HB') as (B & HB & Hg & Hjs). rewrite Hjs in Hj.
    destruct (Wn b B t j HB Hj) as (c & args & g & gt & Hnj & Hnc).
    exists c, args, g, gt. split; by apply Hn.
  - done.
Qed.

Lemma wf_new_node s x : well_formed s → well_formed (set_nodes s (nodes s ++ [x])).
Proof.
  intros W. apply (wf_transfer s); simpl; eauto.
  - intros n y Hn. by apply lookup_app_l_Some.
  - intros b c Hc. destruct (wf_block_map s W b c Hc) as [g Hg].
    exists g. by apply lookup_app_l_Some.
Qed.

Lemma wf_update_block s b B B' :
  well_formed s → blocks s !! b = Some B →
  graph B' = graph B → jumps B' = jumps B →
  well_formed (set_blocks s (<[b := B']> (blocks s))).
Proof.
  intros W HB Hg Hj. apply (wf_transfer s); simpl; eauto.
  - intros b0 B0 H0.
    apply list_lookup_insert_Some in H0 as [(Heq & HB' & _)|[Hne H0]]; eauto.
    subst. eauto.
  - by intros n x.
  - apply W.
Qed.

Lemma wf_update_graph s g G G' :
  well_formed s → graphs s !! g = Some G → return_ G' = return_ G →
  well_formed (set_graphs s (<[g := G']> (graphs s))).
Proof.
  intros W HG Hr. apply (wf_transfer s); simpl; eauto.
  - intros g0 H0. by apply list_lookup_insert_is_Some.
  - intros g0. destruct (decide (g0 = g)) as [->|Hne].
    + rewrite list_lookup_insert_eq by (by eapply lookup_lt_Some).
      rewrite HG. simpl. congruence.
    + by rewrite list_lookup_insert_ne.
  - by intros n x.
  - apply W.
Qed.

Local Abbreviation preserving_wf := (preserving well_formed).

Lemma wf_ret A (a : A) : preserving_wf A (ret a).
Proof. intros s x s' W H. unfold ret in H. by simplify_eq. Qed.

Lemma wf_raise A e : preserving_wf A (raise e).
Proof. intros s x s' W H. unfold raise in H. by simplify_eq. Qed.

Lemma wf_bind A B (m : M A) (f : A → M B) :
  preserving_wf A m → (∀ a, preserving_wf B (f a)) → preserving_wf B (bind m f).
Proof.
  intros Hm Hf s x s' W H.
  apply bind_inv in H as [(a & s1 & H1 & H2)|(e & H1 & ?)]; [|done].
  eapply Hf; [|done]. by eapply Hm.
Qed.

Lemma wf_get_node n : preserving_wf _ (get_node n).
Proof.
  intros s x s' W H. unfold get_node, bind, get, lookup_or, ret, raise in H.
  destruct (nodes s !! n); by simplify_eq.
Qed.

Lemma wf_get_graph g : preserving_wf _ (get_graph g).
Proof.
  intros s x s' W H. unfold get_graph, bind, get, lookup_or, ret, raise in H.
  destruct (graphs s !! g); by simplify_eq.
Qed.

Lemma wf_get_block b : preserving_wf _ (get_block b).
Proof.
  intros s x s' W H. unfold get_block, bind, get, lookup_or, ret, raise in H.
  destruct (blocks s !! b); by simplify_eq.
Qed.

Lemma wf_new_node_step x : preserving_wf _ (new_node x).
Proof. intros s n s' W H. unfold new_node in H. simplify_eq. by apply wf_new_node. Qed.

Lemma wf_update_block_step b f :
  (∀ B, graph (f B) = graph B) → (∀ B, jumps (f B) = jumps B) →
  preserving_wf _ (update_block b f).
Proof.
  intros Hg Hj s x s' W H.
  apply update_block_inv in H as [(B & HB & _ & ->)|(_ & ? & _)]; [|done].
  by eapply wf_update_block.
Qed.

Lemma wf_append_parameter b p : preserving_wf _ (append_parameter b p).
Proof.
  unfold append_parameter. apply wf_bind.
  { intros s x s' W H. by apply block_graph_inv in H as [-> _]. }
  intros g s x s' W H.
  apply update_graph_inv in H as [(G & HG & _ & ->)|(_ & ? & _)]; [|done].
  by eapply wf_update_graph.
Qed.

Lemma wf_append_pred b p : preserving_wf _ (append_pred b p).
Proof. by apply wf_update_block_step. Qed.

Lemma wf_register_phi b phi v : preserving_wf _ (register_phi b phi v).
Proof. by apply wf_update_block_step. Qed.

Lemma wf_write b v n : preserving_wf _ (write b v n).
Proof. by apply wf_update_block_step. Qed.

Lemma wf_set_matured b : preserving_wf _ (set_matured b).
Proof. by apply wf_update_block_step. Qed.

Lemma wf_set_Parser_graph g : preserving_wf _ (set_Parser_graph g).
Proof.
  intros s x s' W H. unfold set_Parser_graph, bind, get, put in H. simplify_eq.
  apply (wf_transfer s); simpl; eauto; [by intros n x | apply W].
Qed.

Lemma wf_new_block : preserving_wf _ new_block.
Proof.
  intros s x s' W H. unfold new_block, bind, new_graph in H. simplify_eq.
  destruct W as [Wg Wa Wj Wn Wm].
  assert (Hold : ∀ b B, blocks s !! b = Some B → (graph B < length (graphs s))%nat).
  { intros b B HB. by apply lookup_lt_is_Some, (Wg b). }
  split; simpl.
  - intros b B HB. apply lookup_app_Some in HB as [HB|[_ HB]].
    + destruct (Wg b B HB) as [G HG]. exists G. by apply lookup_app_l_Some.
    + apply list_lookup_singleton_Some in HB as [_ <-]. simpl.
      rewrite lookup_app_r, Nat.sub_diag by done. eauto.
  - intros b1 b2 B1 B2 H1 H2 Hg.
    apply lookup_app_Some in H1 as [H1|[Hl1 H1]];
      apply lookup_app_Some in H2 as [H2|[Hl2 H2]].
    + by apply (Wa b1 b2 B1 B2).
    + apply list_lookup_singleton_Some in H2 as [_ <-]. simpl in Hg.
      apply Hold in H1. lia.
    + apply list_lookup_singleton_Some in H1 as [_ <-]. simpl in Hg.
      apply Hold in H2. lia.
    + apply list_lookup_singleton_Some in H1 as [? _].
      apply list_lookup_singleton_Some in H2 as [? _]. lia.
  - intros b B t j HB Hj. apply lookup_app_Some in HB as [HB|[_ HB]].
    + destruct (Wj b B t j HB Hj) as (B0 & r & c & HB0 & Hret & Hnr & Hnc).
      simplify_eq. exists B, r, c. split; [by apply lookup_app_l_Some|].
      split; [|done]. rewrite <- Hret. unfold return_of. simpl.
      rewrite (lookup_app_l_Some _ _ _ _ HB), HB. simpl.
      destruct (Wg b B HB) as [G HG]. by rewrite (lookup_app_l_Some _ _ _ _ HG), HG.
    + apply list_lookup_singleton_Some in HB as [_ <-]. simpl in Hj.
      by rewrite lookup_empty in Hj.
  - intros b B t j HB Hj. apply lookup_app_Some in HB as [HB|[_ HB]]; [eauto|].
    apply list_lookup_singleton_Some in HB as [_ <-]. simpl in Hj.
    by rewrite lookup_empty in Hj.
  - done.
Qed.

Lemma wf_install_return b r : preserving_wf _ (install_return b r).
Proof.
  intros s x s' W H.
  apply install_return_inv in H as [(_ & B & G & HB & HG & Hr & ->)|[_ [e ?]]];
    [|done].
  destruct W as [Wg Wa Wj Wn Wm]. split; simpl; eauto.
  - intros b0 B0 HB0. apply list_lookup_insert_is_Some. eauto.
  - intros b0 B0 t j HB0 Hj.
    destruct (Wj b0 B0 t j HB0 Hj) as (B1 & r0 & c & HB1 & Hret & Hnr & Hnc).
    simplify_eq. exists B0, r0, c. split; [done|]. split; [|done].
    rewrite <- Hret. unfold return_of. simpl. rewrite HB0. simpl.
    destruct (decide (graph B0 = graph B)) as [Heq|Hne].
    + assert (b0 = b) as -> by (by apply (Wa b0 b B0 B)). simplify_eq.
      unfold return_of in Hret. rewrite HB in Hret. simpl in Hret.
      rewrite HG in Hret. simpl in Hret. congruence.
    + by rewrite list_lookup_insert_ne.
Qed.

Lemma wf_append_jump_argument p b a :
  preserving_wf _ (append_jump_argument p b a).
Proof.
  intros s x s' W H.
  apply append_jump_argument_inv in H
    as [(_ & P & j & inputs & g & HP & Hj & Hn & ->)|[_ [e ?]]]; [|done].
  destruct W as [Wg Wa Wj Wn Wm].
  destruct (Wn p P b j HP Hj) as (c' & args & g' & gt & Hnj & Hnc').
  assert (inputs = c' :: args) as -> by congruence.
  assert (Hconst : ∀ n v, nodes s !! n = Some (Constant v) →
            <[j := Apply ((c' :: args) ++ [a]) g]> (nodes s) !! n = Some (Constant v)).
  { intros n v Hv. rewrite list_lookup_insert_ne; [done|]. intros <-. congruence. }
  split; simpl; eauto.
  - intros b0 B0 t j0 HB0 Hj0.
    destruct (Wj b0 B0 t j0 HB0 Hj0) as (B1 & r0 & c & HB1 & Hret & Hnr & Hnc).
    exists B1, r0, c. split; [done|]. split; [done|]. split; [|by apply Hconst].
    simpl. rewrite list_lookup_insert_ne; [done|]. intros <-.
    rewrite Hnr in Hn. simplify_eq; congruence.
  - intros b0 B0 t j0 HB0 Hj0.
    destruct (Wn b0 B0 t j0 HB0 Hj0) as (c0 & args0 & g0 & gt0 & Hn0 & Hc0).
    destruct (decide (j0 = j)) as [->|Hne].
    + exists c', (args ++ [a]), g, gt.
      rewrite list_lookup_insert_eq by (by eapply lookup_lt_Some).
      split; [done | by apply Hconst].
    + exists c0, args0, g0, gt0. rewrite list_lookup_insert_ne by done.
      split; [done | by apply Hconst].
  - intros b0 c Hc. destruct (Wm b0 c Hc) as [g0 Hg0]. exists g0. by apply Hconst.
Qed.

(** [get_block_function] answers with a graph constant and changes
    neither a block nor a graph nor a node. *)
Lemma get_block_function_spec b s n s' :
  well_formed s →
  get_block_function b s = (Ok n, s') →
  well_formed s' ∧ blocks s' = blocks s ∧ graphs s' = graphs s ∧
  keeps_nodes s s' ∧ ∃ g, nodes s' !! n = Some (Constant (CGraph g)).
Proof.
  intros W H. unfold get_block_function, block_function_of in H.
  unfold bind at 1 2 in H. unfold get, ret in H.
  destruct (block_map s !! b) as [c|] eqn:Hc.
  - destruct (wf_block_map s W b c Hc) as [g Hg].
    rewrite _fresh_cases, Hg in H. simplify_eq.
    split; [by apply wf_new_node|]. split; [done|]. split; [done|]. split.
    + intros m x Hm. by apply lookup_app_l_Some.
    + exists g. simpl. by rewrite lookup_app_r, Nat.sub_diag.
  - apply bind_inv in H as [(g & s1 & H1 & H)|(e & _ & ?)]; [|done].
    apply block_graph_inv in H1 as [-> [(B & HB & ?)|[_ ?]]]; [|done].
    simplify_eq. cbv [bind new_node remember_block_function get put ret] in H.
    simplify_eq. simpl.
    assert (Hk : keeps_nodes s (set_block_map
              (set_nodes s (nodes s ++ [Constant (CGraph (graph B))]))
              (<[b := length (nodes s)]> (block_map s)))).
    { intros m x Hm. by apply lookup_app_l_Some. }
    assert (Hnew : (nodes s ++ [Constant (CGraph (graph B))]) !! length (nodes s) =
                     Some (Constant (CGraph (graph B)))).
    { by rewrite lookup_app_r, Nat.sub_diag. }
    split; [|split; [done|]; split; [done|]; split; [done|]; eauto].
    apply (wf_transfer s); simpl; eauto.
    intros b0 c0 Hc0. apply lookup_insert_Some in Hc0 as [[_ <-]|[_ Hc0]]; [eauto|].
    destruct (wf_block_map s W b0 c0 Hc0) as [g0 Hg0]. exists g0.
    by apply lookup_app_l_Some.
Qed.

Lemma wf_get_block_function b : preserving_wf _ (get_block_function b).
Proof. intros s n s' W H. by apply (get_block_function_spec b s n s'). Qed.

(** The heap after a jump from [b] to [t], seen from the heap in which the
    callee constant [c] has just been made. *)
Lemma wf_jump_installed s s' b t B G c gt :
  well_formed s →
  blocks s !! b = Some B →
  graphs s !! graph B = Some G → return_ G = None →
  nodes s !! c = Some (Constant (CGraph gt)) →
  let j := length (nodes s) in
  nodes s' = nodes s ++ [Apply [c] (graph B); Constant (CPrim primops.return_);
                         Apply [j + 1; j] (graph B)] →
  graphs s' = <[graph B := mkGraph (parameters G) (Some (j + 2))]> (graphs s) →
  (∀ b0 B0', blocks s' !! b0 = Some B0' →
     ∃ B0, blocks s !! b0 = Some B0 ∧ graph B0' = graph B0 ∧
           jumps B0' = if decide (b0 = b) then <[t := j]> (jumps B0) else jumps B0) →
  block_map s' = block_map s →
  well_formed s'.
Proof.
  intros W HB HG Hr Hc j Hn Hgr Hbl Hbm.
  assert (Hk : keeps_nodes s s').
  { intros n x Hx. rewrite Hn. by apply lookup_app_l_Some. }
  assert (Hj0 : nodes s' !! j = Some (Apply [c] (graph B))).
  { rewrite Hn. by rewrite lookup_app_r, Nat.sub_diag. }
  assert (Hj1 : nodes s' !! (j + 1) = Some (Constant (CPrim primops.return_))).
  { rewrite Hn. rewrite lookup_app_r by (unfold j; lia).
    by replace (j + 1 - length (nodes s)) with 1 by (unfold j; lia). }
  assert (Hj2 : nodes s' !! (j + 2) = Some (Apply [j + 1; j] (graph B))).
  { rewrite Hn. rewrite lookup_app_r by (unfold j; lia).
    by replace (j + 2 - length (nodes s)) with 2 by (unfold j; lia). }
  assert (Hnone : return_of s b = None).
  { unfold return_of. rewrite HB. simpl. by rewrite HG. }
  destruct W as [Wg Wa Wj Wn Wm]. split.
  - intros b0 B0' H0. destruct (Hbl b0 B0' H0) as (B0 & HB0 & Hg0 & _).
    rewrite Hg0, Hgr. apply list_lookup_insert_is_Some. eauto.
  - intros b1 b2 B1' B2' H1 H2 Hg.
    destruct (Hbl b1 B1' H1) as (B1 & HB1 & Hg1 & _).
    destruct (Hbl b2 B2' H2) as (B2 & HB2 & Hg2 & _).
    apply (Wa b1 b2 B1 B2); congruence.
  - intros b0 B0' t0 j0 H0 Hjs.
    destruct (Hbl b0 B0' H0) as (B0 & HB0 & Hg0 & Hjm). rewrite Hjm in Hjs.
    destruct (decide (b0 = b)) as [->|Hne].
    + simplify_eq. apply lookup_insert_Some in Hjs as [[_ <-]|[_ Hjs]].
      * exists B0', (j + 2), (j + 1). split; [done|]. split; [|by rewrite Hg0].
        unfold return_of. rewrite H0. simpl. rewrite Hg0, Hgr.
        by rewrite list_lookup_insert_eq by (by eapply lookup_lt_Some).
      * destruct (Wj b B t0 j0 HB Hjs) as (? & r & ? & _ & Hret & _). congruence.
    + destruct (Wj b0 B0 t0 j0 HB0 Hjs) as (B1 & r & c0 & HB1 & Hret & Hnr & Hnc).
      simplify_eq. exists B0', r, c0. split; [done|]. split; [|split].
      * rewrite <- Hret. unfold return_of. rewrite H0, HB0. simpl.
        rewrite Hg0, Hgr. rewrite list_lookup_insert_ne; [done|].
        intros Heq. apply Hne. by apply (Wa b0 b B0 B).
      * rewrite Hg0. by apply Hk.
      * by apply Hk.
  - intros b0 B0' t0 j0 H0 Hjs.
    destruct (Hbl b0 B0' H0) as (B0 & HB0 & Hg0 & Hjm). rewrite Hjm in Hjs.
    assert (Hold : jumps B0 !! t0 = Some j0 →
              ∃ c1 args g g1, nodes s' !! j0 = Some (Apply (c1 :: args) g) ∧
                              nodes s' !! c1 = Some (Constant (CGraph g1))).
    { intros Hjs0.
      destruct (Wn b0 B0 t0 j0 HB0 Hjs0) as (c1 & args & g & g1 & H1 & H2).
      exists c1, args, g, g1. split; by apply Hk. }
    destruct (decide (b0 = b)) as [->|Hne]; [|by apply Hold].
    apply lookup_insert_Some in Hjs as [[_ <-]|[_ Hjs]]; [|by apply Hold].
    exists c, [], (graph B), gt. split; [done | by apply Hk].
  - intros b0 c0 Hc0. rewrite Hbm in Hc0.
    destruct (Wm b0 c0 Hc0) as [g0 Hg0]. exists g0. by apply Hk.
Qed.

(** The blocks after [record_jump b t j] and [append_pred t b]. *)
Lemma jump_blocks_lookup (bl : list Block) b t j B T b0 B0' :
  bl !! b = Some B →
  let Bj := mkBlock (matured B) (variables B) (preds B) (phi_nodes B)
                    (<[t := j]> (jumps B)) (graph B) in
  <[b := Bj]> bl !! t = Some T →
  let T' := mkBlock (matured T) (variables T) (preds T ++ [b]) (phi_nodes T)
                    (jumps T) (graph T) in
  <[t := T']> (<[b := Bj]> bl) !! b0 = Some B0' →
  ∃ B0, bl !! b0 = Some B0 ∧ graph B0' = graph B0 ∧
        jumps B0' = if decide (b0 = b) then <[t := j]> (jumps B0) else jumps B0.
Proof.
  intros HB Bj HT T' H0.
  apply list_lookup_insert_Some in H0 as [(Heq & HB' & _)|[Hne H0]].
  - subst b0 B0'.
    apply list_lookup_insert_Some in HT as [(Heq & HB' & _)|[Hne HT]].
    + subst t T. exists B. by rewrite decide_True.
    + exists T. by rewrite decide_False.
  - apply list_lookup_insert_Some in H0 as [(Heq & HB' & _)|[Hne' H0]].
    + subst b0 B0'. exists B. by rewrite decide_True.
    + exists B0'. by rewrite decide_False.
Qed.

Lemma wf_jump b t : preserving_wf _ (jump b t).
Proof.
  intros s x s' W H. unfold jump in H.
  apply bind_inv in H as [(g & s0 & H0 & H)|(e & _ & ?)]; [|done].
  apply block_graph_inv in H0 as [-> [(B & HB & ?)|[_ ?]]]; [|done]. simplify_eq.
  apply bind_inv in H as [(c & s1 & H1 & H)|(e & _ & ?)]; [|done].
  destruct (get_block_function_spec _ _ _ _ W H1) as (W1 & Hb1 & Hg1 & _ & gt & Hc).
  unfold bind at 1 in H. unfold new_node at 1 in H.
  apply bind_inv in H as [([] & s3 & H3 & H)|(e & _ & ?)]; [|done].
  apply update_block_inv in H3 as [(B2 & HB2 & _ & ->)|(_ & ? & _)]; [|done].
  simpl in HB2. rewrite Hb1, HB in HB2. simplify_eq.
  apply bind_inv in H as [([] & s4 & H4 & H)|(e & _ & ?)]; [|done].
  apply update_block_inv in H4 as [(T & HT & _ & ->)|(_ & ? & _)]; [|done].
  simpl in HT.
  unfold bind at 1 in H. unfold new_node at 1 in H.
  unfold bind at 1 in H. unfold new_node at 1 in H.
  apply bind_inv in H as [([] & s7 & H7 & H)|(e & _ & ?)]; [|done].
  unfold ret in H. simplify_eq.
  apply install_return_inv in H7 as [(_ & B7 & G & HB7 & HG & Hr & ->)|[_ [e ?]]];
    [|done].
  simpl in HB7, HG.
  assert (HB1 : blocks s1 !! b = Some B2) by (by rewrite Hb1).
  destruct (jump_blocks_lookup _ _ _ _ _ _ _ _ HB1 HT HB7) as (B0 & HB0 & Hg7 & _).
  assert (B0 = B2) as -> by congruence.
  apply (wf_jump_installed s1 _ b t B2 G c gt); simpl; try done.
  - by rewrite <- Hg7.
  - rewrite !length_app. simpl. rewrite <- !app_assoc. simpl. done.
  - rewrite !length_app. simpl. rewrite Hg7.
    by replace (length (nodes s1) + 1 + 1) with (length (nodes s1) + 2) by lia.
  - intros b0 B0' H0. by apply (jump_blocks_lookup _ _ _ _ _ _ _ _ HB1 HT H0).
Qed.



Lemma wf_empty_state : well_formed empty_state.
Proof. split; intros *; simpl; done. Qed.

End WellFormed.

(** ** Installing a return node needs it unset *)

Section Guards.
Import Parser ParserSpec.
Local Open Scope parser_scope.







End Guards.

Section ReturnClaim.
Import Parser ParserSpec.
Local Open Scope parser_scope.
Variable ns_contains : Namespace → string → bool.
Variable parser : Parser.
Variable fuel : nat.


End ReturnClaim.


(** ** What [Block.read] leaves alone *)

Section Frame.
Import Parser ParserSpec.
Local Open Scope parser_scope.
Variable ns_contains : Namespace → string → bool.
Variable parser : Parser.
Variable x : string.

Lemma frame_refl s : frame x s s.
Proof. split; eauto. Qed.

Lemma frame_trans s1 s2 s3 : frame x s1 s2 → frame x s2 s3 → frame x s1 s3.
Proof.
  intros [G1 K1] [G2 K2]. split.
  - intros b. by rewrite G2, G1.
  - intros b B HB Hx. destruct (K1 b B HB Hx) as [HB2 Hg2].
    destruct (K2 b B HB2 Hx) as [HB3 Hg3]. split; [done | congruence].
Qed.

Lemma frame_apart s s' : graphs_apart s → frame x s s' → graphs_apart s'.
Proof.
  intros Ha [Hg _] b1 b2 B1 B2 H1 H2 Heq.
  pose proof (Hg b1) as E1. pose proof (Hg b2) as E2. rewrite H1 in E1. rewrite H2 in E2.
  destruct (blocks s !! b1) as [C1|] eqn:HC1; [|done].
  destruct (blocks s !! b2) as [C2|] eqn:HC2; [|done].
  simpl in *. apply (Ha b1 b2 C1 C2); congruence.
Qed.

(** A step that touches only nodes and the parser's own attributes. *)
Lemma frame_quiet s s' :
  blocks s' = blocks s → graphs s' = graphs s → frame x s s'.
Proof. intros Hb Hg. split; rewrite ?Hb, ?Hg; eauto. Qed.

Lemma framing_ret A (a : A) : framing x A (ret a).
Proof. intros s r s' _ H. unfold ret in H. simplify_eq. apply frame_refl. Qed.

Lemma framing_raise A e : framing x A (raise e).
Proof. intros s r s' _ H. unfold raise in H. simplify_eq. apply frame_refl. Qed.

Lemma framing_bind A B (m : M A) (f : A → M B) :
  framing x A m → (∀ a, framing x B (f a)) → framing x B (bind m f).
Proof.
  intros Hm Hf s r s' Ha H.
  apply bind_inv in H as [(a & s1 & H1 & H2)|(e & H1 & _)].
  - pose proof (Hm _ _ _ Ha H1) as F1.
    eapply frame_trans; [done|]. eapply Hf; [|done]. by eapply frame_apart.
  - by eapply Hm.
Qed.

Lemma framing_for_each A (f : A → M unit) xs :
  (∀ a, framing x _ (f a)) → framing x _ (for_each f xs).
Proof.
  intros Hf. induction xs; simpl; [apply framing_ret|].
  apply framing_bind; [apply Hf | by intros _].
Qed.

Lemma framing_append_jump_argument p b a :
  framing x _ (append_jump_argument p b a).
Proof.
  intros s r s' _ H.
  apply append_jump_argument_inv in H
    as [(_ & P & j & inputs & g & HP & Hj & Hn & ->)|[-> _]];
    by apply frame_quiet.
Qed.

Lemma framing_set_phi_arguments_with rd b phi s r s' B :
  (∀ p, framing x _ (rd p x)) →
  graphs_apart s →
  blocks s !! b = Some B → phi_nodes B !! phi = Some x →
  set_phi_arguments_with rd b phi s = (r, s') →
  frame x s s'.
Proof.
  intros Hrd Ha HB Hphi H. unfold set_phi_arguments_with in H.
  rewrite (bind_ok _ _ _ _ _ (get_block_ok _ _ _ HB)), Hphi in H.
  unfold bind at 1 in H. simpl in H.
  revert H. apply framing_for_each; [|done]. intros pred.
  apply framing_bind; [apply Hrd|]. intros arg. apply framing_append_jump_argument.
Qed.

Lemma append_parameter_inv b p s r s' :
  append_parameter b p s = (r, s') →
  (∃ B G, blocks s !! b = Some B ∧ graphs s !! graph B = Some G ∧ r = Ok tt ∧
     s' = set_graphs s (<[graph B := mkGraph (parameters G ++ [p]) (return_ G)]>
                          (graphs s))) ∨
  (s' = s ∧ ∃ e, r = Err e).
Proof.
  unfold append_parameter, update_graph, block_graph, get_block, get_graph, bind,
    get, put, lookup_or, ret, raise.
  destruct (blocks s !! b) as [B|] eqn:HB; simpl; [|intros; simplify_eq; eauto].
  destruct (graphs s !! graph B) as [G|] eqn:HG; simpl; intros; simplify_eq; eauto.
  left. by exists B, G.
Qed.

(** Making a phi node for [x] in a block where [x] is not bound. *)
Lemma frame_phi_state s p P :
  graphs_apart s → blocks s !! p = Some P → variables P !! x = None →
  frame x s (phi_state s p x).
Proof.
  intros Ha HP Hv. unfold phi_state. rewrite HP. split; simpl.
  - intros b. destruct (decide (b = p)) as [->|Hne].
    + rewrite list_lookup_insert_eq by (by eapply lookup_lt_Some). by rewrite HP.
    + by rewrite list_lookup_insert_ne.
  - intros b B HB Hx.
    assert (p ≠ b) as Hne.
    { intros ->. destruct Hx as [v Hx]. simplify_eq. }
    rewrite list_lookup_insert_ne by done. split; [done|].
    rewrite list_lookup_alter_ne; [done|].
    intros Heq. apply Hne. by apply (Ha p b P B).
Qed.

Lemma read_frame fuel p : framing x _ (read ns_contains parser fuel p x).
Proof.
  revert p. induction fuel as [|fuel IH]; intros p s r s' Ha H; simpl in H.
  { unfold raise in H. simplify_eq. apply frame_refl. }
  destruct (blocks s !! p) as [P|] eqn:HP.
  2: { rewrite (bind_err _ _ _ _ _ (get_block_err _ _ HP)) in H.
       simplify_eq. apply frame_refl. }
  rewrite (bind_ok _ _ _ _ _ (get_block_ok _ _ _ HP)) in H.
  destruct (variables P !! x) as [node|] eqn:Hv.
  { rewrite _fresh_cases in H.
    destruct (nodes s !! node) as [[]|]; simplify_eq; by apply frame_quiet. }
  assert (Hphi : ∀ r s',
    (phi <- new_node (Parameter_ (graph P)) ;;
     append_parameter p phi ;;
     register_phi p phi x ;;
     write p x phi ;;
     B <- get_block p ;;
     (if matured B
      then set_phi_arguments_with (read ns_contains parser fuel) p phi
      else ret tt) ;;
     ret phi) s = (r, s') → frame x s s').
  { clear H r s'. intros r s' H.
    destruct (graphs s !! graph P) as [G|] eqn:HG.
    - rewrite (phi_registration p P G x s) in H by done.
      pose proof (frame_phi_state s p P Ha HP Hv) as F1.
      eapply frame_trans; [exact F1|].
      assert (Ha1 := frame_apart _ _ Ha F1).
      assert (HP1 : blocks (phi_state s p x) !! p =
                Some (mkBlock (matured P) (<[x := length (nodes s)]> (variables P))
                        (preds P) (<[length (nodes s) := x]> (phi_nodes P))
                        (jumps P) (graph P))).
      { unfold phi_state. rewrite HP. simpl.
        apply list_lookup_insert_eq. by eapply lookup_lt_Some. }
      rewrite (bind_ok _ _ _ _ _ (get_block_ok _ _ _ HP1)) in H. simpl in H.
      destruct (matured P).
      + apply bind_inv in H as [([] & s1 & H1 & H2)|(e & H1 & _)].
        * unfold ret in H2. simplify_eq.
          eapply framing_set_phi_arguments_with; [apply IH|done|exact HP1| |exact H1].
          simpl. by rewrite lookup_insert_eq.
        * eapply framing_set_phi_arguments_with; [apply IH|done|exact HP1| |exact H1].
          simpl. by rewrite lookup_insert_eq.
      + unfold bind, ret in H. simplify_eq. apply frame_refl.
    - unfold bind at 1 in H. unfold new_node at 1 in H.
      apply bind_inv in H as [([] & s1 & H1 & _)|(e & H1 & _)];
        apply append_parameter_inv in H1
          as [(B & G & HB & HG' & ? & ?)|[-> [e' ?]]];
        simpl in *; simplify_eq; by apply frame_quiet. }
  destruct (matured P), (preds P) as [|pred [|q l]]; try (by eapply Hphi).
  - destruct (ns_contains _ _);
      rewrite (make_resolve_ok _ _ _ _ _ HP) in H; simplify_eq; by apply frame_quiet.
  - by eapply IH.
Qed.

Lemma set_phi_arguments_frame fuel b phi s r s' B :
  graphs_apart s →
  blocks s !! b = Some B → phi_nodes B !! phi = Some x →
  set_phi_arguments ns_contains parser fuel b phi s = (r, s') →
  frame x s s'.
Proof.
  intros. eapply framing_set_phi_arguments_with; eauto.
  intros p. apply read_frame.
Qed.

End Frame.

(** ** Maturing a block *)

Section Mature.
Import Parser ParserSpec.
Local Open Scope parser_scope.
Variable ns_contains : Namespace → string → bool.
Variable parser : Parser.
Variable fuel : nat.

Lemma set_phi_arguments_unfold b B phi name s :
  blocks s !! b = Some B → phi_nodes B !! phi = Some name →
  set_phi_arguments ns_contains parser fuel b phi s =
    for_each (backfill_step ns_contains parser fuel b name) (preds B) s.
Proof.
  intros HB Hphi. unfold set_phi_arguments, set_phi_arguments_with.
  rewrite (bind_ok _ _ _ _ _ (get_block_ok _ _ _ HB)), Hphi. reflexivity.
Qed.

(** The loop of [mature] from index [i] on, against the same loop over
    the parameter list as it stands on entry. *)
Lemma mature_loop_snapshot b B G :
  (∀ phi name, phi_nodes B !! phi = Some name → is_Some (variables B !! name)) →
  ∀ k i s,
    graphs_apart s → blocks s !! b = Some B → graphs s !! graph B = Some G →
    (length (parameters G) ≤ i + k)%nat →
    mature_loop ns_contains parser fuel b k i s =
      for_each (λ phi,
        match phi_nodes B !! phi with
        | Some name => for_each (backfill_step ns_contains parser fuel b name) (preds B)
        | None => ret tt
        end) (drop i (parameters G)) s.
Proof.
  intros Hbound. induction k as [|k IH]; intros i s Ha HB HG Hlen.
  - simpl. rewrite (bind_ok _ _ _ _ _ (get_block_ok _ _ _ HB)).
    rewrite (bind_ok _ _ _ _ _ (get_graph_ok _ _ _ HG)).
    rewrite (lookup_ge_None_2 (parameters G) i) by lia.
    by rewrite drop_ge by lia.
  - simpl. rewrite (bind_ok _ _ _ _ _ (get_block_ok _ _ _ HB)).
    rewrite (bind_ok _ _ _ _ _ (get_graph_ok _ _ _ HG)).
    destruct (parameters G !! i) as [phi|] eqn:Hi.
    2: { apply lookup_ge_None in Hi. by rewrite drop_ge by lia. }
    rewrite (drop_S _ _ _ Hi). simpl.
    destruct (phi_nodes B !! phi) as [name|] eqn:Hphi.
    + rewrite bool_decide_eq_true_2 by eauto.
      unfold bind.
      rewrite (set_phi_arguments_unfold b B phi name s HB Hphi).
      destruct (for_each (backfill_step ns_contains parser fuel b name) (preds B) s)
        as [[[]|e] s1] eqn:Hstep; [|done].
      rewrite <- (set_phi_arguments_unfold b B phi name s HB Hphi) in Hstep.
      pose proof (set_phi_arguments_frame ns_contains parser name fuel b phi s _ s1 B
                    Ha HB Hphi Hstep) as F.
      destruct (proj2 F b B HB (Hbound phi name Hphi)) as [HB1 HG1].
      apply IH; [by eapply frame_apart | done | congruence | lia].
    + rewrite bool_decide_eq_false_2 by (intros [? ?]; congruence).
      unfold bind, ret.
      apply IH; [done..|lia].
Qed.

Lemma mature_snapshot b B G s :
  graphs_apart s → blocks s !! b = Some B → graphs s !! graph B = Some G →
  (∀ phi name, phi_nodes B !! phi = Some name → is_Some (variables B !! name)) →
  (length (parameters G) ≤ fuel)%nat →
  mature ns_contains parser fuel b s = spec_mature ns_contains parser fuel b B G s.
Proof.
  intros Ha HB HG Hbound Hlen. unfold mature, spec_mature, bind.
  by rewrite (mature_loop_snapshot b B G Hbound fuel 0 s Ha HB HG), drop_0 by lia.
Qed.

(** One step of the backfill, when it succeeds: exactly one input is
    appended, to the jump node of the predecessor, and it is the node the
    predecessor's [read] answered with. *)
Lemma backfill_step_appends self name pred s s' :
  backfill_step ns_contains parser fuel self name pred s = (Ok tt, s') →
  ∃ arg s1 P j inputs g,
    read ns_contains parser fuel pred name s = (Ok arg, s1) ∧
    blocks s1 !! pred = Some P ∧ jumps P !! self = Some j ∧
    nodes s1 !! j = Some (Apply inputs g) ∧
    s' = set_nodes s1 (<[j := Apply (inputs ++ [arg]) g]> (nodes s1)).
Proof.
  intros H. unfold backfill_step in H.
  apply bind_inv in H as [(arg & s1 & H1 & H2)|(e & _ & ?)]; [|done].
  apply append_jump_argument_inv in H2
    as [(_ & P & j & inputs & g & HP & Hj & Hn & ->)|[_ [e ?]]]; [|done].
  by exists arg, s1, P, j, inputs, g.
Qed.

End Mature.

(** ** Methods that change no node *)

Section Quiet.
Import Parser ParserSpec.
Local Open Scope parser_scope.

Lemma keeps_nodes_same s s' : nodes s' = nodes s → keeps_nodes s s'.
Proof. intros E n x. by rewrite E. Qed.

Lemma quiet_ret A (a : A) : quiet A (ret a).
Proof. intros s r s' H. unfold ret in H. simplify_eq. by apply keeps_nodes_same. Qed.

Lemma quiet_raise A e : quiet A (raise e).
Proof. intros s r s' H. unfold raise in H. simplify_eq. by apply keeps_nodes_same. Qed.

Lemma quiet_bind A B (m : M A) (f : A → M B) :
  quiet A m → (∀ a, quiet B (f a)) → quiet B (bind m f).
Proof.
  intros Hm Hf s r s' H.
  apply bind_inv in H as [(a & s1 & H1 & H2)|(e & H1 & _)].
  - intros n x Hn. eapply Hf; [done|]. by eapply Hm.
  - by eapply Hm.
Qed.

Lemma quiet_get_node n : quiet _ (get_node n).
Proof.
  intros s r s' H. unfold get_node, bind, get, lookup_or, ret, raise in H.
  destruct (nodes s !! n); simplify_eq; by apply keeps_nodes_same.
Qed.

Lemma quiet_get_block b : quiet _ (get_block b).
Proof.
  intros s r s' H. unfold get_block, bind, get, lookup_or, ret, raise in H.
  destruct (blocks s !! b); simplify_eq; by apply keeps_nodes_same.
Qed.

Lemma quiet_block_graph b : quiet _ (block_graph b).
Proof.
  intros s r s' H. apply block_graph_inv in H as [-> _]. by apply keeps_nodes_same.
Qed.

Lemma quiet_new_node x : quiet _ (new_node x).
Proof.
  intros s r s' H. unfold new_node in H. simplify_eq.
  intros n y Hn. by apply lookup_app_l_Some.
Qed.

Lemma quiet_update_block b f : quiet _ (update_block b f).
Proof.
  intros s r s' H.
  apply update_block_inv in H as [(B & _ & _ & ->)|(_ & _ & ->)];
    by apply keeps_nodes_same.
Qed.

Lemma quiet_install_return b r : quiet _ (install_return b r).
Proof.
  intros s res s' H.
  apply install_return_inv in H as [(_ & B & G & _ & _ & _ & ->)|[-> _]];
    by apply keeps_nodes_same.
Qed.

Lemma quiet_get_block_function b : quiet _ (get_block_function b).
Proof.
  unfold get_block_function. apply quiet_bind.
  { intros s r s' H. unfold block_function_of, bind, get, ret in H. simplify_eq.
    by apply keeps_nodes_same. }
  intros [c|].
  - unfold _fresh. apply quiet_bind; [apply quiet_get_node|].
    intros []; first [apply quiet_new_node | apply quiet_ret].
  - apply quiet_bind; [apply quiet_block_graph|]. intros g.
    apply quiet_bind; [apply quiet_new_node|]. intros node.
    apply quiet_bind; [|intros; apply quiet_ret].
    intros s r s' H. unfold remember_block_function, bind, get, put in H.
    simplify_eq. by apply keeps_nodes_same.
Qed.

Lemma quiet_write b v n : quiet _ (write b v n).
Proof. apply quiet_update_block. Qed.

Lemma quiet_make_resolve b ns name : quiet _ (make_resolve b ns name).
Proof.
  apply Spec_make_resolve; auto using quiet_bind, quiet_get_block, quiet_new_node,
    quiet_ret.
Qed.

Lemma quiet_cond b c t f : quiet _ (cond b c t f).
Proof.
  apply Spec_cond; auto using quiet_ret, quiet_bind, quiet_get_block, quiet_new_node,
    quiet_install_return, quiet_get_block_function.
Qed.

Lemma quiet_jump b t : quiet _ (jump b t).
Proof.
  unfold jump. apply quiet_bind; [apply quiet_block_graph|]. intros g.
  apply quiet_bind; [apply quiet_get_block_function|]. intros c.
  apply quiet_bind; [apply quiet_new_node|]. intros j.
  apply quiet_bind; [apply quiet_update_block|]. intros _.
  apply quiet_bind; [apply quiet_update_block|]. intros _.
  apply quiet_bind; [apply quiet_new_node|]. intros rc.
  apply quiet_bind; [apply quiet_new_node|]. intros r.
  apply quiet_bind; [apply quiet_install_return|]. intros _.
  apply quiet_ret.
Qed.

End Quiet.

(** ** Every block is matured once *)

Section Once.
Import Parser ParserSpec.
Local Open Scope parser_scope.

Lemma flags_same_refl s : flags_same s s.
Proof. done. Qed.

Lemma flags_same_trans s1 s2 s3 :
  flags_same s1 s2 → flags_same s2 s3 → flags_same s1 s3.
Proof. intros H1 H2 b. by rewrite H2, H1. Qed.

Lemma flags_same_blocks s s' : blocks s' = blocks s → flags_same s s'.
Proof. intros H b. by rewrite H. Qed.

Lemma flags_same_lookup s s' b B :
  flags_same s s' → blocks s !! b = Some B →
  ∃ B', blocks s' !! b = Some B' ∧ matured B' = matured B.
Proof.
  intros H HB. specialize (H b). rewrite HB in H.
  destruct (blocks s' !! b) as [B'|]; simplify_eq/=. eauto.
Qed.

Lemma flags_same_lookup_inv s s' b B' :
  flags_same s s' → blocks s' !! b = Some B' →
  ∃ B, blocks s !! b = Some B ∧ matured B' = matured B.
Proof.
  intros H HB. specialize (H b). rewrite HB in H.
  destruct (blocks s !! b) as [B|]; simplify_eq/=. eauto.
Qed.

Lemma flag_keeping_ret A (a : A) : flag_keeping A (ret a).
Proof. intros s r s' H. unfold ret in H. by simplify_eq. Qed.

Lemma flag_keeping_raise A e : flag_keeping A (raise e).
Proof. intros s r s' H. unfold raise in H. by simplify_eq. Qed.

Lemma flag_keeping_bind A B (m : M A) (f : A → M B) :
  flag_keeping A m → (∀ a, flag_keeping B (f a)) → flag_keeping B (bind m f).
Proof.
  intros Hm Hf s r s' H.
  apply bind_inv in H as [(a & s1 & H1 & H2)|(e & H1 & _)].
  - eapply flags_same_trans; [by eapply Hm | by eapply Hf].
  - by eapply Hm.
Qed.

Lemma flag_keeping_get_node n : flag_keeping _ (get_node n).
Proof.
  intros s r s' H. unfold get_node, bind, get, lookup_or, ret, raise in H.
  destruct (nodes s !! n); by simplify_eq.
Qed.

Lemma flag_keeping_get_graph g : flag_keeping _ (get_graph g).
Proof.
  intros s r s' H. unfold get_graph, bind, get, lookup_or, ret, raise in H.
  destruct (graphs s !! g); by simplify_eq.
Qed.

Lemma flag_keeping_get_block b : flag_keeping _ (get_block b).
Proof.
  intros s r s' H. unfold get_block, bind, get, lookup_or, ret, raise in H.
  destruct (blocks s !! b); by simplify_eq.
Qed.

Lemma flag_keeping_new_node x : flag_keeping _ (new_node x).
Proof. intros s r s' H. unfold new_node in H. by simplify_eq. Qed.

Lemma flag_keeping_update_block b f :
  (∀ B, matured (f B) = matured B) → flag_keeping _ (update_block b f).
Proof.
  intros Hf s r s' H.
  apply update_block_inv in H as [(B & HB & _ & ->)|(_ & _ & ->)]; [|done].
  intros b0. simpl. destruct (decide (b0 = b)) as [->|Hne].
  - rewrite list_lookup_insert_eq by (by eapply lookup_lt_Some).
    rewrite HB. simpl. by rewrite Hf.
  - by rewrite list_lookup_insert_ne.
Qed.

Lemma flag_keeping_update_graph g f : flag_keeping _ (update_graph g f).
Proof.
  intros s r s' H.
  by apply update_graph_inv in H as [(G & HG & _ & ->)|(_ & _ & ->)].
Qed.

Lemma flag_keeping_block_graph b : flag_keeping _ (block_graph b).
Proof. intros s r s' H. by apply block_graph_inv in H as [-> _]. Qed.

Lemma flag_keeping_append_parameter b p : flag_keeping _ (append_parameter b p).
Proof.
  unfold append_parameter. apply flag_keeping_bind; [apply flag_keeping_block_graph|].
  intros g. apply flag_keeping_update_graph.
Qed.

Lemma flag_keeping_append_pred b p : flag_keeping _ (append_pred b p).
Proof. by apply flag_keeping_update_block. Qed.

Lemma flag_keeping_register_phi b phi v : flag_keeping _ (register_phi b phi v).
Proof. by apply flag_keeping_update_block. Qed.

Lemma flag_keeping_record_jump b t j : flag_keeping _ (record_jump b t j).
Proof. by apply flag_keeping_update_block. Qed.

Lemma flag_keeping_write b v n : flag_keeping _ (write b v n).
Proof. by apply flag_keeping_update_block. Qed.

Lemma flag_keeping_set_Parser_graph g : flag_keeping _ (set_Parser_graph g).
Proof.
  intros s r s' H. unfold set_Parser_graph, bind, get, put in H. by simplify_eq.
Qed.

Lemma flag_keeping_install_return b r : flag_keeping _ (install_return b r).
Proof.
  intros s res s' H.
  by apply install_return_inv in H as [(_ & B & G & _ & _ & _ & ->)|[-> _]].
Qed.

Lemma flag_keeping_append_jump_argument p b a :
  flag_keeping _ (append_jump_argument p b a).
Proof.
  intros s res s' H.
  by apply append_jump_argument_inv in H
    as [(_ & P & j & inputs & g & _ & _ & _ & ->)|[-> _]].
Qed.

Lemma flag_keeping_get_block_function b : flag_keeping _ (get_block_function b).
Proof.
  unfold get_block_function. apply flag_keeping_bind.
  { intros s r s' H. unfold block_function_of, bind, get, ret in H. by simplify_eq. }
  intros [c|].
  - unfold _fresh. apply flag_keeping_bind; [apply flag_keeping_get_node|].
    intros []; first [apply flag_keeping_new_node | apply flag_keeping_ret].
  - apply flag_keeping_bind; [apply flag_keeping_block_graph|]. intros g.
    apply flag_keeping_bind; [apply flag_keeping_new_node|]. intros node.
    apply flag_keeping_bind; [|intros; apply flag_keeping_ret].
    intros s r s' H. unfold remember_block_function, bind, get, put in H.
    by simplify_eq.
Qed.

Lemma flag_keeping_jump b t : flag_keeping _ (jump b t).
Proof.
  unfold jump.
  repeat first
    [ apply flag_keeping_block_graph | apply flag_keeping_get_block_function
    | apply flag_keeping_new_node | apply flag_keeping_record_jump
    | apply flag_keeping_append_pred | apply flag_keeping_install_return
    | apply flag_keeping_ret
    | apply flag_keeping_bind; [|intros ?] ].
Qed.

Create HintDb flags discriminated.
Hint Resolve flag_keeping_ret flag_keeping_raise flag_keeping_bind
  flag_keeping_get_node flag_keeping_get_graph flag_keeping_get_block
  flag_keeping_new_node flag_keeping_append_parameter flag_keeping_append_pred
  flag_keeping_register_phi flag_keeping_write flag_keeping_set_Parser_graph
  flag_keeping_install_return flag_keeping_append_jump_argument
  flag_keeping_get_block_function flag_keeping_jump flag_keeping_block_graph : flags.

Variable ns_contains : Namespace → string → bool.
Variable parser : Parser.
Variable fuel : nat.

Lemma flag_keeping_process_node b e :
  flag_keeping _ (process_node ns_contains parser fuel b e).
Proof. apply Spec_process_node; auto with flags. Qed.

Lemma flag_keeping_mature_loop n b k i :
  flag_keeping _ (mature_loop ns_contains parser n b k i).
Proof. apply Spec_mature_loop; auto with flags. Qed.

Lemma flag_keeping_cond b c t f : flag_keeping _ (cond b c t f).
Proof. apply Spec_cond; auto with flags. Qed.

Lemma flag_keeping_jump_unless_returned e t :
  flag_keeping _ (jump_unless_returned e t).
Proof. apply Spec_jump_unless_returned; auto with flags. Qed.

Lemma flag_keeping_process_Return b v :
  flag_keeping _ (process_Return ns_contains parser fuel b v).
Proof. apply Spec_process_Return; auto with flags. Qed.

Lemma flag_keeping_process_Assign b targets v :
  flag_keeping _ (process_Assign ns_contains parser fuel b targets v).
Proof. apply Spec_process_Assign; auto with flags. Qed.

(** *** Where a lowering stands *)

Lemma lowered_refl s : lowered s s.
Proof.
  split.
  - eauto.
  - intros b B' Hb HB'. apply lookup_lt_Some in HB'. lia.
  - set_solver.
Qed.

Lemma pending_length P s0 s :
  pending P s0 s → (length (blocks s0) ≤ length (blocks s))%nat.
Proof.
  intros [Ho _ _].
  destruct (decide (length (blocks s0) ≤ length (blocks s))%nat) as [|Hn]; [done|].
  destruct (lookup_lt_is_Some_2 (blocks s0) (length (blocks s))) as [B HB]; [lia|].
  destruct (Ho _ _ HB) as (B' & HB' & _). apply lookup_lt_Some in HB'. lia.
Qed.

Lemma pending_proper P Q s0 s : P ≡ Q → pending P s0 s → pending Q s0 s.
Proof. by intros ->%leibniz_equiv. Qed.

Lemma pending_step P s0 s1 s2 :
  pending P s0 s1 → lowered s1 s2 → pending P s0 s2.
Proof.
  intros H1 H2. pose proof (pending_length _ _ _ H1) as Hl.
  destruct H1 as [Ho1 Hn1 Hi1], H2 as [Ho2 Hn2 _]. split.
  - intros b B HB. destruct (Ho1 _ _ HB) as (B1 & HB1 & E1).
    destruct (Ho2 _ _ HB1) as (B2 & HB2 & E2). exists B2. split; congruence.
  - intros b B2 Hb HB2. destruct (blocks s1 !! b) as [B1|] eqn:HB1.
    + destruct (Ho2 _ _ HB1) as (B2' & HB2' & E). simplify_eq. rewrite E.
      by apply Hn1.
    + apply lookup_ge_None in HB1. rewrite (Hn2 _ _ HB1 HB2).
      rewrite !bool_decide_eq_true_2; [done| |set_solver].
      intros Hin. destruct (Hi1 _ Hin) as [_ [? ?%lookup_lt_Some]]. lia.
  - intros x Hx. destruct (Hi1 _ Hx) as [? [B1 HB1]]. split; [done|].
    destruct (Ho2 _ _ HB1) as (? & -> & _). eauto.
Qed.

Lemma flags_same_lowered s s' : flags_same s s' → lowered s s'.
Proof.
  intros H. split.
  - intros. by eapply flags_same_lookup.
  - intros b B' Hb HB'.
    destruct (flags_same_lookup_inv _ _ _ _ H HB') as (B & HB & _).
    apply lookup_lt_Some in HB. lia.
  - set_solver.
Qed.

Lemma pending_same P s0 s1 s2 :
  pending P s0 s1 → flags_same s1 s2 → pending P s0 s2.
Proof. intros ? ?. eapply pending_step; [done|by apply flags_same_lowered]. Qed.

Lemma new_block_inv s r s' :
  new_block s = (r, s') →
  r = Ok (length (blocks s)) ∧
  blocks s' = blocks s ++ [mkBlock false ∅ [] ∅ ∅ (length (graphs s))].
Proof. unfold new_block, bind, new_graph. intros; by simplify_eq. Qed.

(** A new block is pending, and it is none of those that were. *)
Lemma pending_new_block P s0 s1 x s2 :
  pending P s0 s1 → new_block s1 = (Ok x, s2) →
  (x ∉ P) ∧ pending ({[x]} ∪ P) s0 s2.
Proof.
  intros HP H. apply new_block_inv in H as [[= ->] Hb].
  pose proof (pending_length _ _ _ HP) as Hl. destruct HP as [Ho Hn Hi].
  split; [|split].
  - intros Hin. destruct (Hi _ Hin) as [_ [? ?%lookup_lt_Some]]. lia.
  - intros b B HB. destruct (Ho _ _ HB) as (B' & HB' & E). exists B'.
    rewrite Hb. split; [by apply lookup_app_l_Some|done].
  - intros b B' Hge HB'. rewrite Hb in HB'.
    apply lookup_app_Some in HB' as [HB'|[Hge' HB']].
    + rewrite (Hn _ _ Hge HB'). apply lookup_lt_Some in HB'.
      apply bool_decide_ext. set_unfold. naive_solver lia.
    + apply list_lookup_singleton_Some in HB' as [Hz <-]. simpl. symmetry.
      apply bool_decide_eq_false_2. intros Hnot. apply Hnot.
      assert (b = length (blocks s1)) as -> by lia. set_solver.
  - intros y [Hy%elem_of_singleton|Hy]%elem_of_union.
    + subst. split; [lia|]. rewrite Hb. apply lookup_lt_is_Some.
      rewrite length_app. simpl. lia.
    + destruct (Hi _ Hy) as [? [B HB]]. split; [done|]. rewrite Hb. exists B.
      by apply lookup_app_l_Some.
Qed.

(** What a successful [mature] does to the flags: it sets the one of its
    block. *)
Lemma mature_flags x s s' :
  mature ns_contains parser fuel x s = (Ok tt, s') →
  ∃ s1 B, flags_same s s1 ∧ blocks s1 !! x = Some B ∧
    blocks s' = <[x := mkBlock true (variables B) (preds B) (phi_nodes B)
                          (jumps B) (graph B)]> (blocks s1).
Proof.
  intros H. unfold mature in H.
  apply bind_inv in H as [([] & s1 & H1 & H)|(? & _ & ?)]; [|done].
  apply flag_keeping_mature_loop in H1. unfold set_matured in H.
  apply update_block_inv in H as [(B & HB & _ & ->)|(_ & ? & _)]; [|done].
  by exists s1, B.
Qed.

Lemma pending_mature P s0 s1 x s2 :
  pending P s0 s1 → x ∈ P →
  mature ns_contains parser fuel x s1 = (Ok tt, s2) →
  pending (P ∖ {[x]}) s0 s2.
Proof.
  intros HP Hx H. apply mature_flags in H as (s & B & Hs & HB & Hb).
  apply (pending_same _ _ _ _ HP) in Hs. clear HP.
  destruct Hs as [Ho Hn Hi]. destruct (Hi _ Hx) as [Hlx _].
  pose proof (lookup_lt_Some _ _ _ HB) as Hlt. split.
  - intros b B0 HB0. destruct (Ho _ _ HB0) as (B' & HB' & E). exists B'.
    rewrite Hb. rewrite list_lookup_insert_ne; [done|].
    apply lookup_lt_Some in HB0. lia.
  - intros b B' Hge HB'. rewrite Hb in HB'.
    apply list_lookup_insert_Some in HB' as [(<- & <- & _)|[Hne HB']].
    + simpl. symmetry. apply bool_decide_eq_true_2. set_solver.
    + rewrite (Hn _ _ Hge HB'). apply bool_decide_ext. set_solver.
  - intros y [Hy Hne%not_elem_of_singleton]%elem_of_difference.
    destruct (Hi _ Hy) as [? [B0 HB0]]. split; [done|]. rewrite Hb.
    exists B0. by rewrite list_lookup_insert_ne.
Qed.

(** On a pending block the check of [mature_once] passes. *)
Lemma mature_once_pending P s0 s x :
  pending P s0 s → x ∈ P →
  mature_once ns_contains parser fuel x s = mature ns_contains parser fuel x s.
Proof.
  intros [Ho Hn Hi] Hx. destruct (Hi _ Hx) as [Hge [B HB]].
  unfold mature_once. rewrite (bind_ok _ _ _ _ _ (get_block_ok _ _ _ HB)).
  rewrite (Hn _ _ Hge HB). by rewrite bool_decide_eq_false_2 by (by intros []).
Qed.

(** *** The statements, lowered with the check *)

Lemma lowers_same A (m : M A) : flag_keeping A m → lowers A m m.
Proof.
  intros Hm s r s' H. split; [done|]. intros _ _.
  apply flags_same_lowered. by eapply Hm.
Qed.

Lemma lock_bind A B (m_once m : M A) (f_once f : A → M B) s r s' (Q : Prop) :
  bind m f s = (r, s') →
  (∀ r1 s1, m s = (r1, s1) → m_once s = (r1, s1)) →
  (∀ a s1, m s = (Ok a, s1) → f a s1 = (r, s') →
     f_once a s1 = (r, s') ∧ (∀ b : B, r = Ok b → Q)) →
  bind m_once f_once s = (r, s') ∧ (∀ b : B, r = Ok b → Q).
Proof.
  intros H Hm Hf. apply bind_inv in H as [(a & s1 & H1 & H2)|(e & H1 & ->)].
  - rewrite (bind_ok _ _ _ _ _ (Hm _ _ H1)). by apply Hf.
  - rewrite (bind_err _ _ _ _ _ (Hm _ _ H1)). done.
Qed.

Lemma lowers_bind A B (m_once m : M A) (f_once f : A → M B) :
  lowers A m_once m → (∀ a, lowers B (f_once a) (f a)) →
  lowers B (bind m_once f_once) (bind m f).
Proof.
  intros Hm Hf s r s' H.
  apply bind_inv in H as [(a & s1 & H1 & H2)|(e & H1 & ->)].
  - destruct (Hm _ _ _ H1) as [E1 L1]. destruct (Hf _ _ _ _ H2) as [E2 L2].
    rewrite (bind_ok _ _ _ _ _ E1). split; [done|]. intros b Hb.
    eapply pending_step; [by eapply L1 | by eapply L2].
  - destruct (Hm _ _ _ H1) as [E1 _]. by rewrite (bind_err _ _ _ _ _ E1).
Qed.

Ltac lock_same H HP lem :=
  let H1 := fresh "Hstep" in
  eapply lock_bind; [exact H | done | clear H; intros ? ? H1 H];
  apply lem in H1; apply (pending_same _ _ _ _ HP) in H1; clear HP;
  rename H1 into HP.

Ltac lock_new H HP :=
  let H1 := fresh "Hstep" in
  let Hx := fresh "Hnew" in
  eapply lock_bind; [exact H | done | clear H; intros ? ? H1 H];
  apply (pending_new_block _ _ _ _ _ HP) in H1 as [Hx H1]; clear HP;
  rename H1 into HP.

Ltac lock_mature H HP :=
  let H1 := fresh "Hstep" in
  eapply lock_bind;
    [ exact H
    | intros ? ? <-; apply (mature_once_pending _ _ _ _ HP); set_solver
    | clear H; intros [] ? H1 H ];
  apply (pending_mature _ _ _ _ _ HP) in H1; [|set_solver]; clear HP;
  rename H1 into HP.

Ltac lock_nested H HP IH :=
  let H1 := fresh "Hstep" in
  let Hx := fresh "Hx" in
  eapply lock_bind;
    [ exact H
    | intros ? ? Hx; apply (IH _ _ _ _ Hx)
    | clear H; intros ? ? H1 H ];
  apply IH in H1 as [_ H1]; specialize (H1 _ eq_refl);
  apply (pending_step _ _ _ _ HP) in H1; clear HP; rename H1 into HP.

Ltac lock_ret H HP :=
  split; [exact H|]; intros ? _; unfold ret in H; simplify_eq;
  eapply pending_proper; [|exact HP]; set_solver.

Section Bodies.
Variable ps_once ps : block_id → list ast.stmt → M block_id.

Local Abbreviation once := (mature_once ns_contains parser fuel).
Local Abbreviation real := (mature ns_contains parser fuel).

Lemma lowers_process_If b test body orelse :
  (∀ b, lowers _ (ps_once b body) (ps b body)) →
  (∀ b, lowers _ (ps_once b orelse) (ps b orelse)) →
  lowers _ (process_If_with ns_contains parser fuel once ps_once b test body orelse)
           (process_If_with ns_contains parser fuel real ps b test body orelse).
Proof.
  intros IHb IHo s0 r s' H. pose proof (lowered_refl s0) as HP.
  unfold lowered in HP. unfold process_If_with in *.
  lock_same H HP flag_keeping_process_node.
  lock_new H HP.
  lock_new H HP.
  lock_same H HP flag_keeping_append_pred.
  lock_same H HP flag_keeping_append_pred.
  lock_mature H HP.
  lock_mature H HP.
  lock_new H HP.
  lock_nested H HP IHb.
  lock_same H HP flag_keeping_jump_unless_returned.
  lock_nested H HP IHo.
  lock_same H HP flag_keeping_jump_unless_returned.
  lock_same H HP flag_keeping_cond.
  lock_mature H HP.
  lock_ret H HP.
Qed.

Lemma lowers_process_While b test body :
  (∀ b, lowers _ (ps_once b body) (ps b body)) →
  lowers _ (process_While_with ns_contains parser fuel once ps_once b test body)
           (process_While_with ns_contains parser fuel real ps b test body).
Proof.
  intros IHb s0 r s' H. pose proof (lowered_refl s0) as HP.
  unfold lowered in HP. unfold process_While_with in *.
  lock_new H HP.
  lock_new H HP.
  lock_new H HP.
  lock_same H HP flag_keeping_append_pred.
  lock_same H HP flag_keeping_append_pred.
  lock_same H HP flag_keeping_jump.
  lock_same H HP flag_keeping_process_node.
  lock_mature H HP.
  lock_same H HP flag_keeping_cond.
  lock_nested H HP IHb.
  lock_same H HP flag_keeping_jump_unless_returned.
  lock_mature H HP.
  lock_mature H HP.
  lock_ret H HP.
Qed.

Lemma flag_keeping_function_head (block : option block_id) function_block :
  flag_keeping _
    (match block with
     | Some block => append_pred function_block block
     | None =>
         g_ct <- get_block_function function_block ;;
         c <- get_node g_ct ;;
         match c with
         | Constant (CGraph g) => set_Parser_graph g
         | _ => raise AttributeError
         end
     end).
Proof.
  destruct block; [auto with flags|].
  apply flag_keeping_bind; [auto with flags|]. intros g_ct.
  apply flag_keeping_bind; [auto with flags|].
  intros [| [] | |]; auto with flags.
Qed.

Lemma flag_keeping_declare function_block (args : list string) :
  flag_keeping _
    (for_each (λ arg,
       g <- block_graph function_block ;;
       anf_node <- new_node (Parameter_ g) ;;
       append_parameter function_block anf_node ;;
       write function_block arg anf_node) args).
Proof.
  apply Spec_for_each; auto 10 with flags.
Qed.

Lemma lowers__process_function b name args body :
  (∀ b, lowers _ (ps_once b body) (ps b body)) →
  lowers _ (_process_function_with once ps_once b name args body)
           (_process_function_with real ps b name args body).
Proof.
  intros IHb s0 r s' H. pose proof (lowered_refl s0) as HP.
  unfold lowered in HP. unfold _process_function_with in *.
  lock_new H HP.
  lock_same H HP flag_keeping_function_head.
  lock_mature H HP.
  lock_same H HP flag_keeping_declare.
  lock_same H HP flag_keeping_get_block_function.
  lock_same H HP flag_keeping_write.
  lock_nested H HP IHb.
  lock_ret H HP.
Qed.

End Bodies.

Lemma lowers_process_stmt_list (sts : list ast.stmt) :
  Forall (λ st, ∀ b,
    lowers _ (process_stmt_with ns_contains parser fuel
                (mature_once ns_contains parser fuel) b st)
             (process_stmt ns_contains parser fuel b st)) sts →
  ∀ b, lowers _ (process_statements_with ns_contains parser fuel
                   (mature_once ns_contains parser fuel) b sts)
                (process_statements ns_contains parser fuel b sts).
Proof.
  induction 1 as [|st sts Hst _ IH]; intros b; simpl.
  - apply lowers_same, flag_keeping_ret.
  - apply lowers_bind; [apply Hst | intros a; apply IH].
Qed.

Lemma lowers_process_stmt b st :
  lowers _ (process_stmt_with ns_contains parser fuel
              (mature_once ns_contains parser fuel) b st)
           (process_stmt ns_contains parser fuel b st).
Proof.
  revert b.
  induction st as [name args body IH| | | |test body orelse IHb IHo
                  |test body orelse IHb IHo|] using stmt_nested_ind; intros b.
  - apply (lowers_bind _ _
      (_process_function_with (mature_once ns_contains parser fuel)
         (process_statements_with ns_contains parser fuel
            (mature_once ns_contains parser fuel)) (Some b) name args body)
      (_process_function_with (mature ns_contains parser fuel)
         (process_statements ns_contains parser fuel) (Some b) name args body)).
    + apply lowers__process_function. by apply lowers_process_stmt_list.
    + intros r. apply lowers_same.
      repeat (apply flag_keeping_bind; [auto with flags|intros ?]).
      auto with flags.
  - apply lowers_same, flag_keeping_process_Return.
  - apply lowers_same, flag_keeping_process_Assign.
  - apply lowers_same, flag_keeping_ret.
  - apply (lowers_process_If
             (process_statements_with ns_contains parser fuel
                (mature_once ns_contains parser fuel))
             (process_statements ns_contains parser fuel));
      by apply lowers_process_stmt_list.
  - apply (lowers_process_While
             (process_statements_with ns_contains parser fuel
                (mature_once ns_contains parser fuel))
             (process_statements ns_contains parser fuel));
      by apply lowers_process_stmt_list.
  - apply lowers_same, flag_keeping_raise.
Qed.

Lemma lowers_process_statements b sts :
  lowers _ (process_statements_with ns_contains parser fuel
              (mature_once ns_contains parser fuel) b sts)
           (process_statements ns_contains parser fuel b sts).
Proof.
  apply lowers_process_stmt_list, Forall_forall. intros. apply lowers_process_stmt.
Qed.

Lemma lowers_Parser_parse def :
  lowers _ (Parser_parse_with ns_contains parser fuel
              (mature_once ns_contains parser fuel) def)
           (Parser_parse ns_contains parser fuel def).
Proof.
  destruct def; try apply lowers_same, flag_keeping_raise.
  apply (lowers_bind _ _
    (_process_function_with (mature_once ns_contains parser fuel)
       (process_statements_with ns_contains parser fuel
          (mature_once ns_contains parser fuel)) None _ _ _)
    (_process_function_with (mature ns_contains parser fuel)
       (process_statements ns_contains parser fuel) None _ _ _)).
  - apply lowers__process_function. intros. apply lowers_process_statements.
  - intros r. apply lowers_same, flag_keeping_block_graph.
Qed.

End Once.

Section BackfillClaim.
Import Parser ParserSpec.
Local Open Scope parser_scope.
Variable ns_contains : Namespace → string → bool.
Variable parser : Parser.
Variable fuel : nat.

(** C1. Maturing a block whose phi names are bound in it (as [read]
    leaves them) runs the backfill once: for each parameter of the block's
    graph that is a phi node, in the order of the parameter list, and for
    each predecessor, in the order of [preds], the predecessor resolves the
    phi's variable name and the node it answers with is appended to the
    predecessor's jump to the block; each such step appends exactly one
    input.  Through any lowering, and through [read] and [mature], a node
    that is there stays the same or, when it is the [Apply] of a jump,
    gets further inputs at the end; [write], [make_resolve], [jump] and
    [cond] change no node that is there.  The parser matures each block it
    makes exactly once: lowered with a [mature] that refuses a block that
    is matured already, a function or a statement list gives what it gives
    with [Block.mature]; and when a lowering succeeds, every block made by
    it is matured and the older blocks have the flag they had, so that
    parsing from the empty heap leaves every block matured. *)
Theorem mature_backfills :
  (∀ b B G s,
     graphs_apart s → blocks s !! b = Some B → graphs s !! graph B = Some G →
     (∀ phi name, phi_nodes B !! phi = Some name → is_Some (variables B !! name)) →
     (length (parameters G) ≤ fuel)%nat →
     mature ns_contains parser fuel b s =
       spec_mature ns_contains parser fuel b B G s) ∧
  (∀ self name pred s s',
     backfill_step ns_contains parser fuel self name pred s = (Ok tt, s') →
     ∃ arg s1 P j inputs g,
       read ns_contains parser fuel pred name s = (Ok arg, s1) ∧
       blocks s1 !! pred = Some P ∧ jumps P !! self = Some j ∧
       nodes s1 !! j = Some (Apply inputs g) ∧
       s' = set_nodes s1 (<[j := Apply (inputs ++ [arg]) g]> (nodes s1))) ∧
  (∀ b sts s r s',
     process_statements ns_contains parser fuel b sts s = (r, s') →
     ∀ n x, nodes s !! n = Some x →
       nodes s' !! n = Some x ∨
       ∃ inputs extra g, x = Apply inputs g ∧ is_jump s n ∧
                         nodes s' !! n = Some (Apply (inputs ++ extra) g)) ∧
  (∀ b s r s',
     mature ns_contains parser fuel b s = (r, s') →
     ∀ n x, nodes s !! n = Some x →
       nodes s' !! n = Some x ∨
       ∃ inputs extra g, x = Apply inputs g ∧ is_jump s n ∧
                         nodes s' !! n = Some (Apply (inputs ++ extra) g)) ∧
  (∀ b v s r s',
     read ns_contains parser fuel b v s = (r, s') →
     ∀ n x, nodes s !! n = Some x →
       nodes s' !! n = Some x ∨
       ∃ inputs extra g, x = Apply inputs g ∧ is_jump s n ∧
                         nodes s' !! n = Some (Apply (inputs ++ extra) g)) ∧
  (∀ b v n, quiet _ (write b v n)) ∧
  (∀ b ns name, quiet _ (make_resolve b ns name)) ∧
  (∀ b t, quiet _ (jump b t)) ∧
  (∀ b c t f, quiet _ (cond b c t f)) ∧
  (∀ def s,
     Parser_parse_with ns_contains parser fuel
       (mature_once ns_contains parser fuel) def s =
     Parser_parse ns_contains parser fuel def s) ∧
  (∀ b sts s,
     process_statements_with ns_contains parser fuel
       (mature_once ns_contains parser fuel) b sts s =
     process_statements ns_contains parser fuel b sts s) ∧
  (∀ def s g s',
     Parser_parse ns_contains parser fuel def s = (Ok g, s') → lowered s s') ∧
  (∀ b sts s b' s',
     process_statements ns_contains parser fuel b sts s = (Ok b', s') →
     lowered s s') ∧
  (∀ def g s',
     Parser_parse ns_contains parser fuel def empty_state = (Ok g, s') →
     ∀ b B, blocks s' !! b = Some B → matured B = true).
Proof.
  assert (Hgrow : ∀ s s', extends s s' →
    ∀ n x, nodes s !! n = Some x →
      nodes s' !! n = Some x ∨
      ∃ inputs extra g, x = Apply inputs g ∧ is_jump s n ∧
                        nodes s' !! n = Some (Apply (inputs ++ extra) g)).
  { intros s s' [N C _ _] n x Hn.
    destruct (decide (nodes s' !! n = Some x)) as [|Hne]; [by left|right].
    destruct (N n x Hn) as (x' & Hx' & Hg).
    destruct x as [inputs g| | |], x' as [inputs' g'| | |]; simpl in Hg;
      try congruence; try done.
    destruct Hg as [<- [extra ->]]. exists inputs, extra, g.
    split; [done|]. split; [by eapply C | done]. }
  repeat apply conj.
  - intros. by apply mature_snapshot.
  - apply backfill_step_appends.
  - intros b sts s r s' H. apply Hgrow.
    apply (extending_process_statements _ _ _ _ _ _ _ _ H).
  - intros b s r s' H. apply Hgrow. apply (extending_mature _ _ _ _ _ _ _ H).
  - intros b v s r s' H. apply Hgrow. apply (extending_read _ _ _ _ _ _ _ _ H).
  - apply quiet_write.
  - apply quiet_make_resolve.
  - apply quiet_jump.
  - apply quiet_cond.
  - intros def s.
    destruct (Parser_parse ns_contains parser fuel def s) as [r s'] eqn:H.
    by apply lowers_Parser_parse.
  - intros b sts s.
    destruct (process_statements ns_contains parser fuel b sts s) as [r s'] eqn:H.
    by apply lowers_process_statements.
  - intros def s g s' H.
    by apply (proj2 (lowers_Parser_parse _ _ _ _ _ _ _ H) g).
  - intros b sts s b' s' H.
    by apply (proj2 (lowers_process_statements _ _ _ _ _ _ _ _ H) b').
  - intros def g s' H b B HB.
    destruct (proj2 (lowers_Parser_parse _ _ _ _ _ _ _ H) g eq_refl) as [_ Hn _].
    rewrite (Hn b B); [by apply bool_decide_eq_true_2|simpl; lia|done].
Qed.

End BackfillClaim.

Lemma mature_backfills_witness :
  let run := Parser.mature ParserSamples.nowhere ParserSamples.sample_parser 3 2
               ParserSamples.join_state in
  run = ParserSpec.spec_mature ParserSamples.nowhere ParserSamples.sample_parser 3 2
          ParserSamples.join_block ParserSamples.join_graph ParserSamples.join_state ∧
  Parser.nodes run.2 !! 3 = Some (Apply [2; 0] 0) ∧
  Parser.nodes run.2 !! 5 = Some (Apply [4; 1] 1) ∧
  (∀ b B, Parser.blocks ParserSamples.loop_state !! b = Some B →
          Parser.matured B = true).
Proof.
  intros run.
  assert (H : run = ParserSpec.spec_mature ParserSamples.nowhere
                      ParserSamples.sample_parser 3 2 ParserSamples.join_block
                      ParserSamples.join_graph ParserSamples.join_state).
  { apply (proj1 (mature_backfills ParserSamples.nowhere ParserSamples.sample_parser 3)).
    - intros [|[|[|?]]] [|[|[|?]]] B1 B2 H1 H2 Hg; simpl in *; simplify_eq; done.
    - reflexivity.
    - reflexivity.
    - intros phi name Hphi. simpl in Hphi.
      apply lookup_singleton_Some in Hphi as [_ <-]. by eexists.
    - simpl. lia. }
  split; [exact H|]. rewrite H. split; [vm_compute; reflexivity|].
  split; [vm_compute; reflexivity|].
  destruct (mature_backfills ParserSamples.nowhere ParserSamples.sample_parser 10)
    as (_ & _ & _ & _ & _ & _ & _ & _ & _ & _ & _ & _ & _ & Hall).
  apply (Hall ParserSamples.loop_def 0). vm_compute. reflexivity.
Defined.

(** * Further properties of the code *)

(** ** The other shape rules *)

Section ShapeRulesFacts.
Import Shape ShapeRules.
Local Open Scope res_scope.

Lemma prod_from (a : Z) xs : foldl Z.mul a xs = (a * prod xs)%Z.
Proof.
  unfold prod. revert a. induction xs as [|x xs IH]; intros a; simpl; [lia|].
  rewrite (IH (a * x)%Z), (IH (1 * x)%Z). lia.
Qed.

Lemma prod_cons x xs : prod (x :: xs) = (x * prod xs)%Z.
Proof. unfold prod at 1. simpl. rewrite prod_from. lia. Qed.

Lemma extents_length s es : extents s = Some es → length es = length s.
Proof.
  revert es. induction s as [|[|n] s IH]; intros es H; simpl in H; simplify_eq;
    [done|].
  destruct (extents s) as [es'|]; simplify_eq/=. f_equal. by apply IH.
Qed.

Lemma extents_replicate n : (0 < n)%nat → extents (replicate n ANYTHING) = None.
Proof. destruct n; [lia|done]. Qed.

(** What [reshape] comes to once the target and the shape of [v] are
    known. *)
Lemma infer_shape_reshape_unfold (v shape : ref Shape.shape) shp v_shp :
  target_shape shape = Ok (AVTuple shp) →
  r_shape v = Ok v_shp →
  infer_shape_reshape v shape =
    match extents shp, extents v_shp with
    | Some es, Some vs =>
        if bool_decide (prod es ≠ prod vs)
        then Err (MyiaShapeError
                    "Cannot change the total number of elements in reshape")
        else Ok (AVTuple shp)
    | _, _ => Ok (AVTuple shp)
    end.
Proof.
  intros Ht Hv. unfold infer_shape_reshape. rewrite Ht, Hv. simpl.
  destruct (extents shp); [|done]. by destruct (extents v_shp).
Qed.

(** X1. [reshape(v, shape)] keeps the number of elements whenever it can
    tell: when every extent of the target and of [v] is known, it returns
    the target if the two products of extents are equal and raises a shape
    error if they differ; when an extent of either is [ANYTHING], it
    returns the target without a check. *)
Theorem infer_shape_reshape_size (v shape : ref Shape.shape)
    (shp v_shp : Shape.shape) :
  target_shape shape = Ok (AVTuple shp) →
  r_shape v = Ok v_shp →
  (∀ es vs, extents shp = Some es → extents v_shp = Some vs →
     (prod es = prod vs → infer_shape_reshape v shape = Ok (AVTuple shp)) ∧
     (prod es ≠ prod vs →
        infer_shape_reshape v shape =
          Err (MyiaShapeError
                 "Cannot change the total number of elements in reshape"))) ∧
  (extents shp = None ∨ extents v_shp = None →
     infer_shape_reshape v shape = Ok (AVTuple shp)).
Proof.
  intros Ht Hv. rewrite (infer_shape_reshape_unfold v shape shp v_shp Ht Hv).
  split.
  - intros es vs -> ->. split; intros H.
    + by rewrite bool_decide_eq_false_2 by (by intros []).
    + by rewrite bool_decide_eq_true_2.
  - intros [->| ->]; [done|]. by destruct (extents shp).
Qed.

(** X2. Reshapes compose: when [v] reshapes to a fully known shape [s1], and
    an array of shape [s1] reshapes to [s2], then [v] reshapes to [s2]
    directly. *)
Theorem infer_shape_reshape_trans (v shape1 shape2 : ref Shape.shape)
    (s1 s2 : Shape.shape) :
  target_shape shape1 = Ok (AVTuple s1) →
  target_shape shape2 = Ok (AVTuple s2) →
  is_Some (extents s1) →
  infer_shape_reshape v shape1 = Ok (AVTuple s1) →
  infer_shape_reshape (of_shape (Ok s1)) shape2 = Ok (AVTuple s2) →
  infer_shape_reshape v shape2 = Ok (AVTuple s2).
Proof.
  intros H1 H2 [e1 He1] Hv1 H12.
  destruct (r_shape v) as [v_shp|e] eqn:Hv.
  2:{ unfold infer_shape_reshape in Hv1. rewrite H1, Hv in Hv1. done. }
  rewrite (infer_shape_reshape_unfold v shape1 s1 v_shp H1 Hv), He1 in Hv1.
  rewrite (infer_shape_reshape_unfold (of_shape (Ok s1)) shape2 s2 s1 H2 eq_refl),
    He1 in H12.
  rewrite (infer_shape_reshape_unfold v shape2 s2 v_shp H2 Hv).
  destruct (extents s2) as [e2|]; [|done].
  destruct (extents v_shp) as [ev|]; [|done].
  repeat case_bool_decide; try done. congruence.
Qed.

(** When [dot(a, b)] is accepted on two known shapes, and with what. *)
Lemma infer_shape_dot_ok (a b : ref Shape.shape) (a_shp b_shp : Shape.shape) :
  r_shape a = Ok a_shp →
  r_shape b = Ok b_shp →
  ∀ r, infer_shape_dot a b = Ok r ↔
    ∃ a0 a1 b0 b1, a_shp = [a0; a1] ∧ b_shp = [b0; b1] ∧
      (a1 = b0 ∨ a1 = ANYTHING ∨ b0 = ANYTHING) ∧ r = [a0; b1].
Proof.
  intros Ha Hb r. unfold infer_shape_dot. rewrite Ha, Hb. simpl.
  destruct a_shp as [|a0 [|a1 [|? ?]]];
    try (split; [done|intros (?&?&?&?&?&?&?&?); done]).
  destruct b_shp as [|b0 [|b1 [|? ?]]];
    try (split; [done|intros (?&?&?&?&?&?&?&?); done]).
  simpl. split.
  - repeat case_bool_decide; simpl; try done; intros [= <-];
      exists a0, a1, b0, b1; naive_solver.
  - intros (?&?&?&?&?&?&Hin&->). simplify_eq.
    destruct Hin as [-> | [-> | ->]]; repeat case_bool_decide; done.
Qed.

(** X3. [dot(a, b)] on two known shapes: it returns [(a0, b1)] exactly when
    both shapes have two extents and the inner extents are equal or one
    of them is [ANYTHING]; anything else is a shape error, and an operand
    that is no matrix is reported before the inner extents are compared. *)
Theorem infer_shape_dot_spec (a b : ref Shape.shape) (a_shp b_shp : Shape.shape) :
  r_shape a = Ok a_shp →
  r_shape b = Ok b_shp →
  (∀ r, infer_shape_dot a b = Ok r ↔
     ∃ a0 a1 b0 b1, a_shp = [a0; a1] ∧ b_shp = [b0; b1] ∧
       (a1 = b0 ∨ a1 = ANYTHING ∨ b0 = ANYTHING) ∧ r = [a0; b1]) ∧
  (length a_shp ≠ 2%nat ∨ length b_shp ≠ 2%nat →
     infer_shape_dot a b = Err (MyiaShapeError "dot needs matrix inputs")) ∧
  ((∃ r, infer_shape_dot a b = Ok r) ∨
   (∃ msg, infer_shape_dot a b = Err (MyiaShapeError msg))).
Proof.
  intros Ha Hb. split; [exact (infer_shape_dot_ok a b a_shp b_shp Ha Hb)|].
  unfold infer_shape_dot. rewrite Ha, Hb. simpl.
  destruct a_shp as [|a0 [|a1 [|? ?]]]; try (split; [done|right; eauto]).
  destruct b_shp as [|b0 [|b1 [|? ?]]];
    try (split; [intros _; reflexivity|right; eauto]).
  simpl. split; [intros [?|?]; done|].
  destruct (negb (bool_decide (a1 = b0)) && negb (bool_decide (a1 = ANYTHING))
            && negb (bool_decide (b0 = ANYTHING))); [right|left]; eauto.
Qed.

(** X4. The shape of a product of three matrices does not depend on how it
    is bracketed: [dot(dot(a, b), c)] is accepted exactly when
    [dot(a, dot(b, c))] is, and then both give the same shape. *)
Theorem infer_shape_dot_assoc (a b c : ref Shape.shape)
    (a_shp b_shp c_shp : Shape.shape) :
  r_shape a = Ok a_shp →
  r_shape b = Ok b_shp →
  r_shape c = Ok c_shp →
  let ab := of_shape (infer_shape_dot a b) in
  let bc := of_shape (infer_shape_dot b c) in
  ∀ r, infer_shape_dot ab c = Ok r ↔ infer_shape_dot a bc = Ok r.
Proof.
  intros Ha Hb Hc ab bc r.
  pose proof (infer_shape_dot_ok a b a_shp b_shp Ha Hb) as Hab.
  pose proof (infer_shape_dot_ok b c b_shp c_shp Hb Hc) as Hbc.
  split; intros H.
  - destruct (infer_shape_dot a b) as [ab_shp|e] eqn:Eab; [|done].
    pose proof (infer_shape_dot_ok ab c ab_shp c_shp eq_refl Hc) as Habc.
    apply Habc in H as (x0 & x1 & c0 & c1 & -> & -> & Hin & ->).
    destruct (proj1 (Hab _) eq_refl) as (a0 & a1 & b0 & b1 & -> & -> & Hin' & ?).
    simplify_eq.
    assert (Ebc : infer_shape_dot b c = Ok [b0; c1]).
    { apply Hbc. exists b0, b1, c0, c1. naive_solver. }
    assert (Hr := infer_shape_dot_ok a bc [a0; a1] [b0; c1] Ha).
    lapply Hr; [clear Hr; intros Hr|by subst bc; simpl; rewrite Ebc].
    apply Hr. exists a0, a1, b0, c1. naive_solver.
  - destruct (infer_shape_dot b c) as [bc_shp|e] eqn:Ebc.
    2:{ unfold infer_shape_dot in H. rewrite Ha in H. simpl in H. done. }
    pose proof (infer_shape_dot_ok a bc a_shp bc_shp Ha eq_refl) as Habc.
    apply Habc in H as (x0 & x1 & y0 & y1 & -> & -> & Hin & ->).
    destruct (proj1 (Hbc _) eq_refl) as (b0 & b1 & c0 & c1 & -> & -> & Hin' & ?).
    simplify_eq.
    assert (Eab : infer_shape_dot a b = Ok [x0; b1]).
    { apply Hab. exists x0, x1, b0, b1. naive_solver. }
    assert (Hr := infer_shape_dot_ok ab c [x0; b1] [c0; c1]).
    lapply Hr; [clear Hr; intros Hr|by subst ab; simpl; rewrite Eab].
    specialize (Hr Hc).
    apply Hr. exists x0, b1, c0, c1. naive_solver.
Qed.

(** X5. [reduce_array(fn, init, ary, ax)] drops the extent at [ax] from the
    shape of [ary]: an axis from 0 up to the rank drops that extent, a
    negative axis down to minus the rank counts from the end, and any
    other axis is an [IndexError]; with an [ANYTHING] axis the result is
    all [ANYTHING], of rank one less, and of rank 0 for a shape that is
    empty already. *)
Theorem infer_shape_reduce_array_axis (fn init ary ax : ref Shape.shape)
    (shp : Shape.shape) :
  r_shape ary = Ok shp →
  let n := Z.of_nat (length shp) in
  (r_value ax = Ok AVAnything →
     infer_shape_reduce_array fn init ary ax =
       Ok (replicate (length shp - 1) ANYTHING)) ∧
  (∀ i, r_value ax = Ok (AVInt i) →
     ((0 ≤ i < n)%Z →
        infer_shape_reduce_array fn init ary ax =
          Ok (take (Z.to_nat i) shp ++ drop (S (Z.to_nat i)) shp)) ∧
     ((- n ≤ i < 0)%Z →
        infer_shape_reduce_array fn init ary ax =
          Ok (take (Z.to_nat (i + n)) shp ++ drop (S (Z.to_nat (i + n))) shp)) ∧
     ((i < - n ∨ n ≤ i)%Z →
        infer_shape_reduce_array fn init ary ax = Err IndexError) ∧
     (∀ r, infer_shape_reduce_array fn init ary ax = Ok r →
        S (length r) = length shp)).
Proof.
  intros Hs n. unfold infer_shape_reduce_array. rewrite Hs. simpl. split.
  - by intros ->.
  - intros i ->. simpl. unfold del_at. fold n.
    split; [|split; [|split]].
    + intros Hi. rewrite bool_decide_eq_true_2 by done.
      by rewrite delete_take_drop.
    + intros Hi. rewrite bool_decide_eq_false_2 by lia.
      rewrite bool_decide_eq_true_2 by done. by rewrite delete_take_drop.
    + intros Hi. rewrite !bool_decide_eq_false_2 by lia. done.
    + intros r. repeat case_bool_decide; intros Hr; simplify_eq.
      * rewrite length_delete; [lia|]. apply lookup_lt_is_Some. lia.
      * rewrite length_delete; [lia|]. apply lookup_lt_is_Some. lia.
Qed.

End ShapeRulesFacts.

Section ShapeRulesWitnesses.
Import Shape ShapeRules.

Lemma infer_shape_reshape_size_witness :
  let shape s := Ref (Err KeyError) (Ok (AVTuple s)) (Err KeyError) in
  infer_shape_reshape (of_shape (Ok [Dim 2; Dim 6])) (shape [Dim 3; Dim 4]) =
    Ok (AVTuple [Dim 3; Dim 4]) ∧
  infer_shape_reshape (of_shape (Ok [Dim 2; Dim 6])) (shape [Dim 5]) =
    Err (MyiaShapeError "Cannot change the total number of elements in reshape") ∧
  infer_shape_reshape (of_shape (Ok [Dim 2; ANYTHING])) (shape [Dim 5]) =
    Ok (AVTuple [Dim 5]).
Proof.
  intros shape. split; [|split].
  - apply (proj1 (infer_shape_reshape_size (of_shape (Ok [Dim 2; Dim 6]))
                    (shape [Dim 3; Dim 4]) [Dim 3; Dim 4] [Dim 2; Dim 6]
                    eq_refl eq_refl) [3; 4]%Z [2; 6]%Z eq_refl eq_refl).
    reflexivity.
  - apply (proj1 (infer_shape_reshape_size (of_shape (Ok [Dim 2; Dim 6]))
                    (shape [Dim 5]) [Dim 5] [Dim 2; Dim 6]
                    eq_refl eq_refl) [5]%Z [2; 6]%Z eq_refl eq_refl).
    discriminate.
  - apply (proj2 (infer_shape_reshape_size (of_shape (Ok [Dim 2; ANYTHING]))
                    (shape [Dim 5]) [Dim 5] [Dim 2; ANYTHING] eq_refl eq_refl)).
    by right.
Defined.

Lemma infer_shape_reshape_trans_witness :
  let shape s := Ref (Err KeyError) (Ok (AVTuple s)) (Err KeyError) in
  infer_shape_reshape (of_shape (Ok [Dim 2; Dim 6])) (shape [Dim 12]) =
    Ok (AVTuple [Dim 12]).
Proof.
  intros shape.
  apply (infer_shape_reshape_trans (of_shape (Ok [Dim 2; Dim 6]))
           (shape [Dim 3; Dim 4]) (shape [Dim 12]) [Dim 3; Dim 4] [Dim 12]);
    first [reflexivity | by eexists].
Defined.

Lemma infer_shape_dot_spec_witness :
  infer_shape_dot (of_shape (Ok [Dim 2; Dim 3])) (of_shape (Ok [ANYTHING; Dim 4])) =
    Ok [Dim 2; Dim 4] ∧
  infer_shape_dot (of_shape (Ok [Dim 2])) (of_shape (Ok [Dim 2; Dim 4])) =
    Err (MyiaShapeError "dot needs matrix inputs").
Proof.
  split.
  - apply (proj1 (infer_shape_dot_spec (of_shape (Ok [Dim 2; Dim 3]))
                    (of_shape (Ok [ANYTHING; Dim 4])) [Dim 2; Dim 3]
                    [ANYTHING; Dim 4] eq_refl eq_refl)).
    exists (Dim 2), (Dim 3), ANYTHING, (Dim 4). tauto.
  - apply (proj1 (proj2 (infer_shape_dot_spec (of_shape (Ok [Dim 2]))
                    (of_shape (Ok [Dim 2; Dim 4])) [Dim 2] [Dim 2; Dim 4]
                    eq_refl eq_refl))).
    left. discriminate.
Defined.

Lemma infer_shape_dot_assoc_witness :
  let a := of_shape (Ok [Dim 2; Dim 3]) in
  let b := of_shape (Ok [Dim 3; Dim 4]) in
  let c := of_shape (Ok [Dim 4; Dim 5]) in
  infer_shape_dot a (of_shape (infer_shape_dot b c)) = Ok [Dim 2; Dim 5].
Proof.
  intros a b c.
  apply (infer_shape_dot_assoc a b c [Dim 2; Dim 3] [Dim 3; Dim 4] [Dim 4; Dim 5]
           eq_refl eq_refl eq_refl).
  reflexivity.
Defined.

Lemma infer_shape_reduce_array_axis_witness :
  let ary := of_shape (Ok [Dim 2; Dim 3; Dim 4]) in
  let ax i := Ref (Err KeyError) (Ok (AVInt i)) (Err KeyError) in
  infer_shape_reduce_array ary ary ary (ax 1%Z) = Ok [Dim 2; Dim 4] ∧
  infer_shape_reduce_array ary ary ary (ax (-1)%Z) = Ok [Dim 2; Dim 3] ∧
  infer_shape_reduce_array ary ary ary (ax 3%Z) = Err IndexError.
Proof.
  intros ary ax.
  pose proof (λ i, proj2 (infer_shape_reduce_array_axis ary ary ary (ax i)
                            [Dim 2; Dim 3; Dim 4] eq_refl) i eq_refl) as H.
  split; [|split].
  - apply (proj1 (H 1%Z)). simpl. lia.
  - apply (proj1 (proj2 (H (-1)%Z))). simpl. lia.
  - apply (proj1 (proj2 (proj2 (H 3%Z)))). simpl. lia.
Defined.

End ShapeRulesWitnesses.

(** ** Calls, closures and whole evaluations of the VM *)

Section VMCalls.
Import VM.
Variable nodes : gmap node_id ANFNode.
Variable graphs : graph_id → Graph.
Variable toposort_vm : graph_id → list node_id.
Variable _vars : graph_id → list node_id.
Variable implementations : Primitive → list value → res value.
Variable py_implementations : Primitive → value.
Variable convert : list value → list value.

Local Abbreviation handle := (_handle_node nodes graphs toposort_vm _vars implementations).
Local Abbreviation run := (run_todo nodes graphs toposort_vm _vars implementations).
Local Abbreviation run_n := (run_todo_n nodes graphs toposort_vm _vars implementations).
Local Abbreviation round_ :=
  (evaluate_round nodes graphs toposort_vm _vars implementations py_implementations).
Local Abbreviation loop :=
  (evaluate_loop nodes graphs toposort_vm _vars implementations py_implementations).

Lemma bind_parameters_frame f ps args :
  todo (bind_parameters f ps args) = todo f ∧
  closure (bind_parameters f ps args) = closure f.
Proof.
  revert f args. induction ps as [|p ps IH]; intros f [|a args]; simpl; try done.
  destruct (IH (_set_node_value f p a) args) as [-> ->]. done.
Qed.

Lemma bind_parameters_other f ps args n :
  n ∉ ps → values (bind_parameters f ps args) !! n = values f !! n.
Proof.
  revert f args. induction ps as [|p ps IH]; intros f [|a args] Hn; simpl; try done.
  apply not_elem_of_cons in Hn as [Hne Hn]. rewrite IH by done. simpl.
  by rewrite lookup_insert_ne.
Qed.

Lemma bind_parameters_lookup f ps args i p x :
  NoDup ps → ps !! i = Some p → args !! i = Some x →
  values (bind_parameters f ps args) !! p = Some x.
Proof.
  revert f args i. induction ps as [|p0 ps IH]; intros f [|a args] i Hnd Hp Hx;
    try done.
  apply NoDup_cons in Hnd as [Hnotin Hnd]. destruct i as [|i]; simpl in *.
  - simplify_eq. rewrite bind_parameters_other by done. simpl.
    by rewrite lookup_insert_eq.
  - by eapply IH.
Qed.

(** X6. [_call] on a graph, a closure or a partial application: the
    arguments (after those a partial holds) must be as many as the
    graph's parameters, or a [RuntimeError] is raised; otherwise the call
    signal carries a frame whose work list is the graph's node order
    reversed, whose closure is the one of the callee, and in which, the
    parameters being distinct nodes, each parameter reads as the argument
    at its position, nothing else having a value yet. *)
Theorem call_binds_parameters (fn : value) (args full : list value)
    (g : graph_id) (clos : option (gmap node_id value)) :
  (fn = VConst (CGraph g) ∧ clos = None ∧ full = args) ∨
  (fn = Closure g clos ∧ full = args) ∨
  (∃ pargs, fn = Partial g pargs ∧ clos = None ∧ full = pargs ++ args) →
  let ps := parameters (graphs g) in
  (length full ≠ length ps →
     _call graphs toposort_vm fn args =
       Raise (RuntimeError "Call with wrong number of arguments")) ∧
  (length full = length ps →
     ∃ frame,
       _call graphs toposort_vm fn args = _Call frame ∧
       todo frame = reverse (toposort_vm g) ∧
       closure frame = clos ∧
       (∀ n, n ∉ ps → values frame !! n = None) ∧
       (NoDup ps → ∀ i p x, ps !! i = Some p → full !! i = Some x →
          frame_get nodes frame p = Ok x)).
Proof.
  intros Hfn ps.
  assert (Hcall : _call graphs toposort_vm fn args =
    if bool_decide (length full ≠ length ps)
    then Raise (RuntimeError "Call with wrong number of arguments")
    else _Call (bind_parameters (new_frame (toposort_vm g) clos) ps full)).
  { destruct Hfn as [(-> & -> & ->)|[(-> & ->)|(pargs & -> & -> & ->)]]; done. }
  rewrite Hcall. split.
  - intros Hlen. by rewrite bool_decide_eq_true_2.
  - intros Hlen. rewrite bool_decide_eq_false_2 by (by intros []).
    eexists. split; [done|].
    destruct (bind_parameters_frame (new_frame (toposort_vm g) clos) ps full)
      as [-> ->].
    split; [done|]. split; [done|]. split.
    + intros n Hn. by rewrite bind_parameters_other.
    + intros Hnd i p x Hp Hx. unfold frame_get.
      by rewrite (bind_parameters_lookup _ _ _ _ _ _ Hnd Hp Hx).
Qed.

Lemma frame_get_error frame v e : frame_get nodes frame v = Err e → e = ValueError.
Proof.
  unfold frame_get. intros H.
  repeat (match type of H with
          | context [match ?x with _ => _ end] => destruct x
          end; simplify_eq; try done).
Qed.

Lemma capture_ok frame vs clos0 clos :
  capture nodes frame vs clos0 = Ok clos →
  (∀ v, v ∈ vs → ∃ x, clos !! v = Some x ∧ frame_get nodes frame v = Ok x) ∧
  (∀ v, v ∉ vs → clos !! v = clos0 !! v).
Proof.
  revert clos0. induction vs as [|v vs IH]; intros clos0 H; simpl in H.
  - simplify_eq. split; [by intros v ?%elem_of_nil|done].
  - destruct (frame_get nodes frame v) as [x|] eqn:Hx; [|done]. simpl in H.
    destruct (IH _ H) as [Hin Hout]. split.
    + intros u [Heq|Hu]%elem_of_cons; [subst u|by apply Hin].
      destruct (decide (v ∈ vs)) as [Hu|Hu]; [by apply Hin|].
      exists x. rewrite (Hout _ Hu), lookup_insert_eq. done.
    + intros u [Hne Hu]%not_elem_of_cons. rewrite (Hout _ Hu).
      by rewrite lookup_insert_ne.
Qed.

Lemma capture_err frame vs clos0 e :
  capture nodes frame vs clos0 = Err e →
  ∃ v, v ∈ vs ∧ frame_get nodes frame v = Err e.
Proof.
  revert clos0. induction vs as [|v vs IH]; intros clos0 H; simpl in H; [done|].
  destruct (frame_get nodes frame v) as [x|e'] eqn:Hx; simpl in H.
  - destruct (IH _ H) as (u & Hu & He). exists u. split; [by right|done].
  - simplify_eq. exists v. split; [by left|done].
Qed.

(** X7. [_make_closure] snapshots the free variables of a graph: the closure
    it builds binds exactly the nodes of [_vars[g]], each to what the
    defining frame reads for it, so a frame entered with this closure
    reads the same value for a free variable as the defining frame did;
    it fails, with the [ValueError] of the frame, exactly when the frame
    cannot read one of them. *)
Theorem make_closure_captures (g : graph_id) (frame : VMFrame) :
  (∀ c, _make_closure nodes _vars g frame = Ok c →
     ∃ clos, c = Closure g (Some clos) ∧
       (∀ v, v ∉ _vars g → clos !! v = None) ∧
       (∀ v, v ∈ _vars g →
          ∃ x, clos !! v = Some x ∧ frame_get nodes frame v = Ok x ∧
               ∀ inner, closure inner = Some clos → values inner !! v = None →
                 frame_get nodes inner v = Ok x)) ∧
  (∀ e, _make_closure nodes _vars g frame = Err e →
     e = ValueError ∧
     ∃ v, v ∈ _vars g ∧ frame_get nodes frame v = Err ValueError) ∧
  ((∀ v, v ∈ _vars g → ∃ x, frame_get nodes frame v = Ok x) →
     ∃ c, _make_closure nodes _vars g frame = Ok c).
Proof.
  unfold _make_closure.
  destruct (capture nodes frame (_vars g) ∅) as [clos|e] eqn:Hc; simpl.
  - destruct (capture_ok _ _ _ _ Hc) as [Hin Hout].
    split; [|split; [done|eauto]].
    intros c [= <-]. exists clos. split; [done|]. split.
    + intros v Hv. by rewrite (Hout _ Hv).
    + intros v Hv. destruct (Hin _ Hv) as (x & Hx & Hf). exists x.
      split; [done|]. split; [done|].
      intros inner Hcl Hval. unfold frame_get. rewrite Hval, Hcl. simpl.
      by rewrite Hx.
  - destruct (capture_err _ _ _ _ Hc) as (v & Hv & He).
    pose proof (frame_get_error _ _ _ He) as ->.
    split; [done|]. split.
    + intros e' [= <-]. eauto.
    + intros Hall. destruct (Hall _ Hv) as [x Hx]. congruence.
Qed.

Lemma run_n_normal n frame frame' :
  run_n n frame = (Normal, frame') → todo frame' = [].
Proof.
  revert frame. induction n as [|n IH]; intros frame H; simpl in H.
  - destruct (last (todo frame)) eqn:Hl; simplify_eq. by apply last_None.
  - destruct (last (todo frame)) as [node|] eqn:Hl;
      [|simplify_eq; by apply last_None].
    destruct (handle node frame) as [[] f]; simplify_eq. by eapply IH.
Qed.

(** X8. A frame whose work list runs dry without a return keeps [evaluate]
    going for ever: the frame stays on the stack with nothing to do, and
    no number of rounds ends the loop with a value or an exception. *)
Theorem evaluate_spins_without_return (below : list VMFrame)
    (frame frame' : VMFrame) :
  run frame = (Normal, frame') →
  todo frame' = [] ∧
  round_ (below ++ [frame]) = Continue (below ++ [frame']) ∧
  round_ (below ++ [frame']) = Continue (below ++ [frame']) ∧
  ∀ fuel, loop fuel (below ++ [frame]) = Err OutOfFuel.
Proof.
  intros Hrun. pose proof (run_n_normal _ _ _ Hrun) as Htodo.
  assert (Hrun' : run frame' = (Normal, frame')).
  { unfold run_todo. rewrite Htodo. simpl. by rewrite Htodo. }
  assert (H1 : round_ (below ++ [frame]) = Continue (below ++ [frame'])).
  { unfold evaluate_round. by rewrite last_snoc, Hrun, set_last_snoc. }
  assert (H2 : round_ (below ++ [frame']) = Continue (below ++ [frame'])).
  { unfold evaluate_round. by rewrite last_snoc, Hrun', set_last_snoc. }
  assert (Hfix : ∀ fuel, loop fuel (below ++ [frame']) = Err OutOfFuel).
  { induction fuel as [|fuel IH]; [done|]. simpl. by rewrite H2. }
  split; [done|]. split; [done|]. split; [done|].
  intros [|fuel]; [done|]. simpl. by rewrite H1.
Qed.

Lemma run_n_parameters (l : list node_id) :
  Forall (λ n, ∃ g', nodes !! n = Some (Parameter_ g')) l →
  ∀ rest frame m,
    todo frame = rest ++ l →
    run_n (length l + m) frame = run_n m (set_todo frame rest).
Proof.
  induction l as [|a l IH] using rev_ind; intros Hall rest frame m Ht.
  - rewrite app_nil_r in Ht. simpl. destruct frame. simpl in *. by subst.
  - apply Forall_app in Hall as [Hl [[g' Ha] _]%Forall_cons].
    rewrite length_app. simpl.
    replace (length l + 1 + m) with (S (length l + m)) by lia. simpl.
    rewrite Ht, app_assoc, last_snoc.
    assert (Hh : handle a frame = (Normal, frame)).
    { unfold _handle_node. by rewrite Ha. }
    rewrite Hh, Ht, app_assoc, removelast_last.
    rewrite (IH Hl rest (set_todo frame (rest ++ l)) m eq_refl). done.
Qed.

(** X9. Evaluating a graph that returns one of its parameters gives the
    argument at that parameter's position, exported: the call binds the
    parameters, the parameter nodes of the work list are passed over, and
    the [return_] node raises the return signal with the value read for
    the parameter. *)
Theorem evaluate_returns_parameter (fuel : nat) (g gr : graph_id)
    (_args : list value) (clos : option (gmap node_id value))
    (pre : list node_id) (r rc p : node_id) (i : nat) (x : value) :
  toposort_vm g = pre ++ [r] →
  Forall (λ n, ∃ g', nodes !! n = Some (Parameter_ g')) pre →
  nodes !! r = Some (Apply [rc; p] gr) →
  nodes !! rc = Some (Constant (CPrim primops.return_)) →
  rc ∉ parameters (graphs g) →
  clos ≫= (.!! rc) = None →
  NoDup (parameters (graphs g)) →
  parameters (graphs g) !! i = Some p →
  length (convert _args) = length (parameters (graphs g)) →
  convert _args !! i = Some x →
  evaluate nodes graphs toposort_vm _vars implementations py_implementations
    convert (S fuel) g _args clos = Ok (export py_implementations x).
Proof.
  intros Htopo Hpre Hr Hrc Hnotin Hclos Hnd Hp Hlen Hx.
  unfold evaluate. rewrite bool_decide_eq_false_2 by (by intros []).
  set (top := bind_parameters (new_frame (toposort_vm g) clos)
                (parameters (graphs g)) (convert _args)).
  destruct (bind_parameters_frame (new_frame (toposort_vm g) clos)
              (parameters (graphs g)) (convert _args)) as [Htodo Hcl].
  fold top in Htodo, Hcl. simpl in Htodo, Hcl.
  rewrite Htopo, reverse_app in Htodo. simpl in Htodo.
  assert (Hrun : run top = (_Return x, set_todo top [r])).
  { unfold run_todo. rewrite Htodo. simpl length.
    replace (S (length (reverse pre))) with (length (reverse pre) + 1) by lia.
    rewrite (run_n_parameters (reverse pre)) with (rest := [r]);
      [|by apply Forall_reverse|done].
    simpl. unfold _handle_node. rewrite Hr.
    assert (Hfrc : frame_get nodes (set_todo top [r]) rc =
                   Ok (VConst (CPrim primops.return_))).
    { unfold frame_get. simpl. subst top.
      rewrite bind_parameters_other by done. simpl. rewrite lookup_empty.
      rewrite Hcl, Hclos, Hrc. done. }
    rewrite Hfrc. simpl.
    assert (Hfp : frame_get nodes (set_todo top [r]) p = Ok x).
    { unfold frame_get. simpl. subst top.
      by rewrite (bind_parameters_lookup _ _ _ _ _ _ Hnd Hp Hx). }
    rewrite Hfp. done. }
  simpl. unfold evaluate_round. simpl. rewrite Hrun. done.
Qed.

End VMCalls.

Section VMCallsWitnesses.
Import VM VMSamples VMSamples2.

Lemma call_binds_parameters_witness :
  ∃ frame,
    _call graphs2 toposort2 (Partial 2 [VConst (CInt 1)]) [VConst (CInt 2)] =
      _Call frame ∧
    todo frame = [13; 11] ∧
    frame_get nodes2 frame 10 = Ok (VConst (CInt 1)) ∧
    frame_get nodes2 frame 11 = Ok (VConst (CInt 2)).
Proof.
  destruct (proj2 (call_binds_parameters nodes2 graphs2 toposort2
              (Partial 2 [VConst (CInt 1)]) [VConst (CInt 2)]
              [VConst (CInt 1); VConst (CInt 2)] 2 None
              (or_intror (or_intror (ex_intro _ [VConst (CInt 1)]
                 (conj eq_refl (conj eq_refl eq_refl)))))) eq_refl)
    as (frame & Hc & Ht & _ & _ & Hget).
  exists frame. split; [exact Hc|]. split; [exact Ht|].
  assert (Hnd : NoDup (parameters (graphs2 2))).
  { apply NoDup_cons. split; [|apply NoDup_singleton].
    intros H%list_elem_of_singleton. discriminate. }
  split.
  - apply (Hget Hnd 0 10 (VConst (CInt 1))); reflexivity.
  - apply (Hget Hnd 1 11 (VConst (CInt 2))); reflexivity.
Defined.

Lemma evaluate_spins_without_return_witness :
  evaluate_loop nodes0 graphs0 toposort0 no_vars no_impl host 1000
    [mkFrame ∅ [] None] = Err OutOfFuel.
Proof.
  exact (proj2 (proj2 (proj2
           (evaluate_spins_without_return nodes0 graphs0 toposort0 no_vars
              no_impl host [] (mkFrame ∅ [] None) (mkFrame ∅ [] None) eq_refl)))
           1000).
Defined.

Lemma evaluate_returns_parameter_witness :
  evaluate nodes2 graphs2 toposort2 no_vars no_impl host same 1 2
    [VConst (CInt 5); VConst (CInt 8)] None = Ok (VConst (CInt 8)).
Proof.
  apply (evaluate_returns_parameter nodes2 graphs2 toposort2 no_vars no_impl host
           same 0 2 2 [VConst (CInt 5); VConst (CInt 8)] None [11] 13 12 11 1
           (VConst (CInt 8))); try reflexivity.
  - apply Forall_cons. split; [by exists 2|apply Forall_nil_2].
  - intros [H|[H|H%elem_of_nil]%elem_of_cons]%elem_of_cons; done.
  - apply NoDup_cons. split; [|apply NoDup_singleton].
    intros H%list_elem_of_singleton. discriminate.
Defined.

End VMCallsWitnesses.

(** ** What the lowering of expressions rejects, and what it builds *)

Section Expressions.
Import Parser ParserSpec ParserMore.
Local Open Scope parser_scope.
Variable ns_contains : Namespace → string → bool.
Variable parser : Parser.
Variable fuel : nat.

Local Abbreviation lower := (process_node ns_contains parser fuel).

Lemma never_ok_raise A e : never_ok (raise e : M A).
Proof. intros s. by exists e, s. Qed.

Lemma never_ok_bind_l A B (m : M A) (f : A → M B) :
  never_ok m → never_ok (bind m f).
Proof.
  intros Hm s. destruct (Hm s) as (e & s' & H). exists e, s'.
  by rewrite (bind_err _ _ _ _ _ H).
Qed.

Lemma never_ok_bind_r A B (m : M A) (f : A → M B) :
  (∀ a, never_ok (f a)) → never_ok (bind m f).
Proof.
  intros Hf s. unfold bind. destruct (m s) as [[a|e] s1]; [apply Hf|eauto].
Qed.

Lemma never_ok_map_each A B (f : A → M B) xs :
  Exists (λ x, never_ok (f x)) xs → never_ok (map_each f xs).
Proof.
  induction 1 as [x xs Hx|x xs _ IH]; simpl.
  - by apply never_ok_bind_l.
  - apply never_ok_bind_r. intros y. by apply never_ok_bind_l.
Qed.

Lemma map_each_length A B (f : A → M B) xs s ys s' :
  map_each f xs s = (Ok ys, s') → length ys = length xs.
Proof.
  revert s ys. induction xs as [|x xs IH]; intros s ys H; simpl in H.
  - unfold ret in H. by simplify_eq.
  - apply bind_inv in H as [(y & s1 & _ & H)|(? & _ & ?)]; [|done].
    apply bind_inv in H as [(ys' & s2 & H2 & H)|(? & _ & ?)]; [|done].
    unfold ret in H. simplify_eq. simpl. f_equal. by eapply IH.
Qed.

Lemma existsb_Exists A (p : A → bool) (P : A → Prop) xs :
  Forall (λ x, p x = true → P x) xs → existsb p xs = true → Exists P xs.
Proof.
  induction 1 as [|x xs Hx _ IH]; simpl; [done|].
  intros [?|?]%orb_true_iff; [left; auto|right; auto].
Qed.

Lemma rejected_never_ok e :
  rejected e = true → ∀ b, never_ok (lower b e).
Proof.
  induction e as [l op r IHl IHr|op e IH|l ops cs IHl IHcs|id|n|str
                 |f args IHf IHargs|v|elts IHelts|v sl IHv IHsl|v IH
                 |v attr IH|] using expr_nested_ind;
    intros Hr b; simpl in Hr; try done.
  - simpl. apply never_ok_bind_r. intros func.
    apply orb_true_iff in Hr as [Hr|Hr]; [by apply never_ok_bind_l, IHl|].
    apply never_ok_bind_r. intros left_. by apply never_ok_bind_l, IHr.
  - simpl. apply never_ok_bind_r. intros func. by apply never_ok_bind_l, IH.
  - simpl.
    apply orb_true_iff in Hr as [Hr|Hr]; [apply orb_true_iff in Hr as [Hr|Hr];
      [apply orb_true_iff in Hr as [Hr|Hr]|]|].
    + apply never_ok_bind_l, never_ok_map_each.
      apply (existsb_Exists _ is_NotIn); [|done].
      apply Forall_forall. intros [] _ Hop; try done.
      unfold _resolve_cmpop. simpl. apply never_ok_bind_l, never_ok_raise.
    + intros s. unfold bind at 1.
      destruct (map_each _ ops s) as [[ys|e] s1] eqn:Hm; [|eauto].
      apply map_each_length in Hm.
      apply negb_true_iff, bool_decide_eq_false in Hr.
      rewrite bool_decide_eq_false_2 by congruence.
      apply (never_ok_bind_l _ _ _ _ (never_ok_raise _ _)).
    + apply never_ok_bind_r. intros ops'. apply never_ok_bind_r. intros _.
      by apply never_ok_bind_l, IHl.
    + apply never_ok_bind_r. intros ops'. apply never_ok_bind_r. intros _.
      apply never_ok_bind_r. intros left_. apply never_ok_bind_l.
      destruct cs as [|c cs]; [apply never_ok_raise|].
      apply Forall_cons in IHcs as [IHc _]. by apply IHc.
  - apply never_ok_raise.
  - simpl. apply orb_true_iff in Hr as [Hr|Hr]; [by apply never_ok_bind_l, IHf|].
    apply never_ok_bind_r. intros func. apply never_ok_bind_l, never_ok_map_each.
    apply (existsb_Exists _ rejected); [|done].
    eapply Forall_impl; [exact IHargs|]. simpl. auto.
  - simpl. apply never_ok_bind_r. intros op. apply never_ok_bind_l, never_ok_map_each.
    apply (existsb_Exists _ rejected); [|done].
    eapply Forall_impl; [exact IHelts|]. simpl. auto.
  - simpl. apply never_ok_bind_r. intros op.
    apply orb_true_iff in Hr as [Hr|Hr]; [by apply never_ok_bind_l, IHv|].
    apply never_ok_bind_r. intros value. by apply never_ok_bind_l, IHsl.
  - simpl. by apply IH.
  - simpl. apply never_ok_bind_r. intros op. by apply never_ok_bind_l, IH.
  - apply never_ok_raise.
Qed.

(** X10. The parser lowers no string literal: [process_Str] reads an attribute
    the parser does not have.  So an expression in which lowering comes
    across a string literal, and likewise across an expression class
    without a method, a [not in] or a comparison chain, is lowered on no
    heap; nor is an assignment or a [return] of such an expression.  An
    expression statement is not lowered at all, so there it does no
    harm. *)
Theorem rejected_never_lowers (e : ast.expr) :
  rejected e = true →
  (∀ b, never_ok (lower b e)) ∧
  (∀ b targets, never_ok (process_Assign ns_contains parser fuel b targets e)) ∧
  (∀ b, never_ok (process_Return ns_contains parser fuel b (Some e))) ∧
  (∀ b s, process_stmt ns_contains parser fuel b (ast.Expr e) s = (Ok b, s)).
Proof.
  intros Hr. pose proof (rejected_never_ok e Hr) as H.
  split; [done|]. split; [|split].
  - intros b targets. unfold process_Assign. by apply never_ok_bind_l.
  - intros b. unfold process_Return. apply never_ok_bind_r. intros rc.
    by apply never_ok_bind_l.
  - done.
Qed.

(** *** Expressions without variables *)

Lemma allocated_refl s : allocated s s.
Proof. by repeat split. Qed.

Lemma allocated_trans s1 s2 s3 :
  allocated s1 s2 → allocated s2 s3 → allocated s1 s3.
Proof.
  intros (N1 & G1 & B1 & M1 & P1) (N2 & G2 & B2 & M2 & P2).
  repeat split; try congruence. by etrans.
Qed.

Lemma allocating_ret A (a : A) : allocating A (ret a).
Proof. intros s r s' H. unfold ret in H. simplify_eq. apply allocated_refl. Qed.

Lemma allocating_raise A e : allocating A (raise e).
Proof. intros s r s' H. unfold raise in H. simplify_eq. apply allocated_refl. Qed.

Lemma allocating_bind A B (m : M A) (f : A → M B) :
  allocating A m → (∀ a, allocating B (f a)) → allocating B (bind m f).
Proof.
  intros Hm Hf s r s' H.
  apply bind_inv in H as [(a & s1 & H1 & H2)|(e & H1 & _)].
  - eapply allocated_trans; [by eapply Hm | by eapply Hf].
  - by eapply Hm.
Qed.

Lemma allocating_get_block b : allocating _ (get_block b).
Proof.
  intros s r s' H. unfold get_block, bind, get, lookup_or, ret, raise in H.
  destruct (blocks s !! b); simplify_eq; apply allocated_refl.
Qed.

Lemma allocating_new_node x : allocating _ (new_node x).
Proof.
  intros s r s' H. unfold new_node in H. simplify_eq.
  repeat split. by apply prefix_app_r.
Qed.

Lemma allocating_block_graph b : allocating _ (block_graph b).
Proof.
  apply Spec_block_graph;
    auto using allocating_ret, allocating_raise, allocating_bind,
      allocating_get_block.
Qed.

Lemma allocating_make_resolve b ns name : allocating _ (make_resolve b ns name).
Proof.
  apply Spec_make_resolve;
    auto using allocating_ret, allocating_raise, allocating_bind,
      allocating_get_block, allocating_new_node.
Qed.

Lemma allocating_cons op g elts : allocating _ (cons op g elts).
Proof.
  apply Spec_cons; auto using allocating_bind, allocating_new_node.
Qed.

Lemma forallb_Forall_impl A (p : A → bool) (P : A → Prop) xs :
  Forall (λ x, p x = true → P x) xs → forallb p xs = true → Forall P xs.
Proof.
  induction 1 as [|x xs Hx _ IH]; simpl; [done|].
  intros [? ?]%andb_true_iff. constructor; auto.
Qed.

Ltac alloc :=
  repeat first
    [ apply allocating_ret | apply allocating_raise | apply allocating_new_node
    | apply allocating_block_graph | apply allocating_make_resolve
    | apply allocating_cons | assumption
    | apply allocating_bind; [|intros ?] ].

(** X11. Lowering an expression without variables only allocates: it appends
    nodes to the node store and leaves every block, every graph and the
    parser's own attributes as they are, whether it succeeds or raises. *)
Theorem no_names_allocates (e : ast.expr) :
  no_names e = true → ∀ b, allocating _ (lower b e).
Proof.
  induction e as [l op r IHl IHr|op e IH|l ops cs IHl IHcs|id|n|str
                 |f args IHf IHargs|v|elts IHelts|v sl IHv IHsl|v IH
                 |v attr IH|] using expr_nested_ind;
    intros Hn b; simpl in Hn; try done; simpl.
  - apply andb_true_iff in Hn as [Hl Hr].
    specialize (IHl Hl b). specialize (IHr Hr b).
    unfold _resolve_operator. destruct (ast_map_operator op). alloc.
  - specialize (IH Hn b).
    unfold _resolve_unaryop. destruct (ast_map_unaryop op). alloc.
  - apply andb_true_iff in Hn as [Hl Hc]. specialize (IHl Hl b).
    apply allocating_bind.
    { apply Spec_map_each; auto using allocating_ret, allocating_bind.
      apply Forall_forall. intros o _. unfold _resolve_cmpop.
      destruct (ast_map_cmpop o) as [[]|]; simpl; alloc. }
    intros ops'. apply allocating_bind.
    { unfold assert. destruct (bool_decide _); alloc. }
    intros _. apply allocating_bind; [done|]. intros left_.
    apply allocating_bind.
    { destruct cs as [|c cs]; [alloc|].
      apply Forall_cons in IHcs as [IHc _]. by apply IHc. }
    intros right_. apply allocating_bind.
    { unfold lookup_or. destruct (ops' !! 0); alloc. }
    intros o. alloc.
  - alloc.
  - alloc.
  - apply andb_true_iff in Hn as [Hf Ha]. specialize (IHf Hf b).
    apply allocating_bind; [done|]. intros func. apply allocating_bind.
    { apply Spec_map_each; auto using allocating_ret, allocating_bind.
      eapply Forall_impl; [exact (forallb_Forall_impl _ _ _ _ IHargs Ha)|].
      simpl. auto. }
    intros args'. alloc.
  - alloc.
  - apply allocating_bind; [alloc|]. intros op. apply allocating_bind.
    { apply Spec_map_each; auto using allocating_ret, allocating_bind.
      eapply Forall_impl; [exact (forallb_Forall_impl _ _ _ _ IHelts Hn)|].
      simpl. auto. }
    intros elts'. alloc.
  - apply andb_true_iff in Hn as [Hv Hs].
    specialize (IHv Hv b). specialize (IHsl Hs b). alloc.
  - by apply IH.
  - specialize (IH Hn b). alloc.
  - alloc.
Qed.

(** *** Tuple literals *)

Lemma tuple_elements_more nodes extra op n root l :
  tuple_elements nodes op n root = Some l →
  tuple_elements (nodes ++ extra) op n root = Some l.
Proof.
  revert root l. induction n as [|n IH]; intros root l H; simpl in *; [done|].
  destruct (nodes !! root) as [x|] eqn:Hx; [|done].
  rewrite (lookup_app_l_Some _ _ _ _ Hx).
  destruct x as [[|op' [|y [|tail [|? ?]]]] g|[]| |]; try done.
  case_bool_decide; [|done].
  destruct (tuple_elements nodes op n tail) as [l'|] eqn:Hl; [|done].
  by rewrite (IH _ _ Hl).
Qed.

(** The inner [cons] of [process_Tuple] never fails, allocates one node
    per element and one for the end, and what it builds reads back as the
    elements it was given. *)
Lemma cons_chain op g elts s :
  ∃ added,
    cons op g elts s =
      (Ok (length (nodes s) + length elts), set_nodes s (nodes s ++ added)) ∧
    length added = S (length elts) ∧
    tuple_elements (nodes s ++ added) op (S (length elts))
      (length (nodes s) + length elts) = Some elts.
Proof.
  induction elts as [|x rest IH].
  - exists [Constant CEmptyTuple]. simpl. unfold new_node.
    rewrite Nat.add_0_r. split; [done|]. split; [done|].
    by rewrite lookup_app_r, Nat.sub_diag.
  - destruct IH as (added & Hc & Hlen & Hdec).
    exists (added ++ [Apply [op; x; length (nodes s) + length rest] g]).
    split; [|split].
    + change (cons op g (x :: rest)) with
        (tail <- cons op g rest ;; new_node (Apply [op; x; tail] g)).
      rewrite (bind_ok _ _ _ _ _ Hc). unfold new_node, set_nodes. simpl.
      f_equal; [f_equal; rewrite length_app, Hlen; lia | by rewrite app_assoc].
    + rewrite length_app, Hlen. simpl. lia.
    + rewrite app_assoc.
      set (n' := (nodes s ++ added) ++
                 [Apply [op; x; length (nodes s) + length rest] g]).
      assert (Hd' : tuple_elements n' op (S (length rest))
                      (length (nodes s) + length rest) = Some rest)
        by apply tuple_elements_more, Hdec.
      assert (Hroot : n' !! (length (nodes s) + length (x :: rest)) =
                Some (Apply [op; x; length (nodes s) + length rest] g)).
      { subst n'.
        replace (length (nodes s) + length (x :: rest))
          with (length (nodes s ++ added))
          by (rewrite length_app, Hlen; simpl; lia).
        by rewrite lookup_app_r, Nat.sub_diag. }
      change (tuple_elements n' op (S (length (x :: rest)))
                (length (nodes s) + length (x :: rest))) with
        (match n' !! (length (nodes s) + length (x :: rest)) with
         | Some (Constant CEmptyTuple) => Some []
         | Some (Apply [op'; y; tail] _) =>
             if bool_decide (op' = op)
             then (λ l, y :: l) <$> tuple_elements n' op (S (length rest)) tail
             else None
         | _ => None
         end).
      rewrite Hroot. cbv beta iota.
      rewrite bool_decide_eq_true_2 by done. by rewrite Hd'.
Qed.

Lemma extending_process_node b e : extending _ (lower b e).
Proof.
  apply Spec_process_node;
    auto using extending_ret, extending_raise, extending_bind,
      extending_get_node, extending_get_block, extending_new_node,
      extending_append_parameter, extending_register_phi, extending_write,
      extending_append_jump_argument.
Qed.

(** X12. Lowering a tuple literal: a constant for [cons_tuple] is made first,
    the elements are lowered from left to right, and the node returned
    reads back, through applications of that constant ending in
    [Constant(())], as the nodes of the elements in their order. *)
Theorem process_Tuple_reads_back (b : block_id) (elts : list ast.expr)
    (s s' : state) (root : node_id) :
  lower b (ast.Tuple elts) s = (Ok root, s') →
  let op := length (nodes s) in
  ∃ xs s1,
    map_each (lower b) elts
      (set_nodes s (nodes s ++ [Constant (CPrim primops.cons_tuple)])) = (Ok xs, s1) ∧
    length xs = length elts ∧
    nodes s' !! op = Some (Constant (CPrim primops.cons_tuple)) ∧
    tuple_elements (nodes s') op (S (length elts)) root = Some xs ∧
    allocated s1 s'.
Proof.
  intros H op. subst op. set (op := length (nodes s)).
  simpl in H. unfold bind at 1 in H. unfold new_node at 1 in H. fold op in H.
  apply bind_inv in H as [(xs & s1 & H1 & H)|(? & _ & ?)]; [|done].
  apply bind_inv in H as [(g & s2 & H2 & H)|(? & _ & ?)]; [|done].
  apply block_graph_inv in H2 as [-> _].
  destruct (cons_chain op g xs s1) as (added & Hc & Hlen & Hdec).
  rewrite Hc in H. simplify_eq.
  pose proof (map_each_length _ _ _ _ _ _ _ H1) as Hxs.
  exists xs, s1. split; [done|]. split; [done|].
  assert (Hop : nodes s1 !! op = Some (Constant (CPrim primops.cons_tuple))).
  { assert (Hext : extends
      (set_nodes s (nodes s ++ [Constant (CPrim primops.cons_tuple)])) s1).
    { eapply (Spec_map_each extending); [..|exact H1];
        auto using extending_ret, extending_bind.
      apply Forall_forall. intros e _. apply extending_process_node. }
    destruct (ext_nodes _ _ Hext op (Constant (CPrim primops.cons_tuple)))
      as (x' & Hx' & Hg).
    { simpl. by rewrite lookup_app_r, Nat.sub_diag. }
    simpl in Hg. by subst x'. }
  split; [|split].
  - simpl. by apply lookup_app_l_Some.
  - simpl. by rewrite <- Hxs.
  - repeat split. simpl. by apply prefix_app_r.
Qed.

(** *** Variables *)

(** X13. Writing a variable and reading it back in the same block: the read
    answers the node that was written, or a fresh copy of it when it is a
    constant, whatever the block's predecessors are and whether it is
    matured or not; the write touches no other block, no node and no
    graph, and a second write to the same name supersedes the first. *)
Theorem write_then_read (s : state) (b : block_id) (B : Block) (v : string)
    (n : node_id) (x : ANFNode) :
  blocks s !! b = Some B →
  nodes s !! n = Some x →
  ∃ s1,
    write b v n s = (Ok tt, s1) ∧
    nodes s1 = nodes s ∧ graphs s1 = graphs s ∧
    (∀ b', b' ≠ b → blocks s1 !! b' = blocks s !! b') ∧
    read ns_contains parser (S fuel) b v s1 =
      match x with
      | Constant c =>
          (Ok (length (nodes s)), set_nodes s1 (nodes s ++ [Constant c]))
      | _ => (Ok n, s1)
      end ∧
    (∀ n2, write b v n2 s1 = write b v n2 s).
Proof.
  intros HB Hn. eexists. split; [by apply update_block_ok|].
  split; [done|]. split; [done|]. split; [|split].
  - intros b' Hne. simpl. by rewrite list_lookup_insert_ne.
  - erewrite read_local;
      [| simpl; apply list_lookup_insert_eq; by eapply lookup_lt_Some
       | simpl; apply lookup_insert_eq].
    simpl. rewrite Hn. by destruct x.
  - intros n2. unfold write.
    erewrite update_block_ok;
      [|simpl; apply list_lookup_insert_eq; by eapply lookup_lt_Some].
    erewrite update_block_ok; [|done].
    unfold set_blocks. simpl. rewrite list_insert_insert_eq.
    by rewrite insert_insert_eq.
Qed.

(** X14. A block that is not matured makes at most one phi node for a name:
    the first read of a name it does not bind appends a fresh parameter
    to the block's graph and binds the name to it, and every later read
    answers that same parameter and changes nothing. *)
Theorem read_phi_once (fuel' : nat) (s : state) (b : block_id) (B : Block)
    (G : Graph) (v : string) :
  blocks s !! b = Some B →
  matured B = false →
  variables B !! v = None →
  graphs s !! graph B = Some G →
  let phi := length (nodes s) in
  let s1 := phi_state s b v in
  read ns_contains parser (S fuel) b v s = (Ok phi, s1) ∧
  nodes s1 = nodes s ++ [Parameter_ (graph B)] ∧
  graphs s1 !! graph B = Some (mkGraph (parameters G ++ [phi]) (return_ G)) ∧
  read ns_contains parser (S fuel') b v s1 = (Ok phi, s1).
Proof.
  intros HB Hm Hv HG phi s1.
  assert (Hs1 : blocks s1 !! b =
            Some (mkBlock (matured B) (<[v := phi]> (variables B)) (preds B)
                    (<[phi := v]> (phi_nodes B)) (jumps B) (graph B))).
  { subst s1. unfold phi_state. rewrite HB. simpl.
    apply list_lookup_insert_eq. by eapply lookup_lt_Some. }
  assert (Hn1 : nodes s1 = nodes s ++ [Parameter_ (graph B)]).
  { subst s1. unfold phi_state. by rewrite HB. }
  split; [|split; [done|split]].
  - rewrite (read_phi ns_contains parser fuel s b B G v HB Hv (or_introl Hm) HG).
    by rewrite Hm.
  - subst s1. unfold phi_state. rewrite HB. simpl.
    rewrite list_lookup_alter_eq, HG. done.
  - erewrite read_local; [|exact Hs1|simpl; apply lookup_insert_eq].
    rewrite Hn1. subst phi. by rewrite lookup_app_r, Nat.sub_diag.
Qed.

End Expressions.

Section ExpressionsWitnesses.
Import Parser ParserSpec ParserMore ParserSamples.

Lemma rejected_never_lowers_witness :
  ∃ e s', process_node nowhere sample_parser 1 0
            (ast.BinOp (ast.Num 1) ast.Add (ast.Str "a")) entry_state = (Err e, s').
Proof.
  apply (proj1 (rejected_never_lowers nowhere sample_parser 1
                  (ast.BinOp (ast.Num 1) ast.Add (ast.Str "a")) eq_refl) 0).
Defined.

Lemma no_names_allocates_witness :
  blocks (process_node nowhere sample_parser 1 0
            (ast.BinOp (ast.Num 1) ast.Add (ast.Num 2)) entry_state).2 =
    blocks entry_state.
Proof.
  destruct (process_node nowhere sample_parser 1 0
              (ast.BinOp (ast.Num 1) ast.Add (ast.Num 2)) entry_state)
    as [r s'] eqn:H.
  apply (no_names_allocates nowhere sample_parser 1
           (ast.BinOp (ast.Num 1) ast.Add (ast.Num 2)) eq_refl 0 _ _ _ H).
Defined.

Lemma process_Tuple_reads_back_witness :
  let run := process_node nowhere sample_parser 1 0
               (ast.Tuple [ast.Num 7; ast.Num 8]) entry_state in
  tuple_elements (nodes run.2) 1 3 6 = Some [2; 3].
Proof.
  intros run.
  assert (Hrun : run = (Ok 6, run.2)) by (vm_compute; reflexivity).
  destruct (process_Tuple_reads_back nowhere sample_parser 1 0
              [ast.Num 7; ast.Num 8] entry_state run.2 6 Hrun)
    as (xs & s1 & Hm & _ & _ & Hd & _).
  vm_compute in Hm. injection Hm as <- _. exact Hd.
Defined.

Lemma write_then_read_witness :
  ∃ s1, write 0 "y" 0 entry_state = (Ok tt, s1) ∧
        read nowhere sample_parser 1 0 "y" s1 =
          (Ok 1, set_nodes s1 [Constant (CInt 1); Constant (CInt 1)]).
Proof.
  destruct (write_then_read nowhere sample_parser 0 entry_state 0 entry_block "y"
              0 (Constant (CInt 1)) eq_refl eq_refl)
    as (s1 & Hw & _ & _ & _ & Hr & _).
  exists s1. split; [exact Hw|exact Hr].
Defined.

Lemma read_phi_once_witness :
  let s1 := phi_state join_state 2 "z" in
  read nowhere sample_parser 1 2 "z" join_state = (Ok 7, s1) ∧
  read nowhere sample_parser 1 2 "z" s1 = (Ok 7, s1).
Proof.
  intros s1.
  destruct (read_phi_once nowhere sample_parser 0 0 join_state 2 join_block
              join_graph "z" eq_refl eq_refl eq_refl eq_refl)
    as (H1 & _ & _ & H2).
  split; [exact H1|exact H2].
Defined.

End ExpressionsWitnesses.

(** ** The constants that stand for blocks *)

Section BlockMap.
Import Parser ParserSpec ParserMore.
Local Open Scope parser_scope.

Local Abbreviation keeping_map := (preserving block_map_ok).

Lemma block_map_ok_transfer s s' :
  block_map_ok s →
  block_map s' = block_map s →
  (∀ b B, blocks s !! b = Some B →
     ∃ B', blocks s' !! b = Some B' ∧ graph B' = graph B) →
  (∀ c g, nodes s !! c = Some (Constant (CGraph g)) →
     nodes s' !! c = Some (Constant (CGraph g))) →
  block_map_ok s'.
Proof.
  intros Hok Hm Hb Hn b c Hc. rewrite Hm in Hc.
  destruct (Hok b c Hc) as (B & HB & Hcn).
  destruct (Hb b B HB) as (B' & HB' & Hg). exists B'. split; [done|].
  rewrite Hg. by apply Hn.
Qed.

Lemma bmo_ret A (a : A) : keeping_map A (ret a).
Proof. intros s x s' W H. unfold ret in H. by simplify_eq. Qed.

Lemma bmo_raise A e : keeping_map A (raise e).
Proof. intros s x s' W H. unfold raise in H. by simplify_eq. Qed.

Lemma bmo_bind A B (m : M A) (f : A → M B) :
  keeping_map A m → (∀ a, keeping_map B (f a)) → keeping_map B (bind m f).
Proof.
  intros Hm Hf s x s' W H.
  apply bind_inv in H as [(a & s1 & H1 & H2)|(e & H1 & ?)]; [|done].
  eapply Hf; [|done]. by eapply Hm.
Qed.

Lemma bmo_get_node n : keeping_map _ (get_node n).
Proof.
  intros s x s' W H. unfold get_node, bind, get, lookup_or, ret, raise in H.
  destruct (nodes s !! n); by simplify_eq.
Qed.

Lemma bmo_get_graph g : keeping_map _ (get_graph g).
Proof.
  intros s x s' W H. unfold get_graph, bind, get, lookup_or, ret, raise in H.
  destruct (graphs s !! g); by simplify_eq.
Qed.

Lemma bmo_get_block b : keeping_map _ (get_block b).
Proof.
  intros s x s' W H. unfold get_block, bind, get, lookup_or, ret, raise in H.
  destruct (blocks s !! b); by simplify_eq.
Qed.

Lemma block_map_ok_new_node s x :
  block_map_ok s → block_map_ok (set_nodes s (nodes s ++ [x])).
Proof.
  intros W. apply (block_map_ok_transfer s); [done|done|eauto|].
  intros c g Hc. by apply lookup_app_l_Some.
Qed.

Lemma bmo_new_node x : keeping_map _ (new_node x).
Proof.
  intros s a s' W H. unfold new_node in H. simplify_eq.
  by apply block_map_ok_new_node.
Qed.

Lemma bmo_update_block b f :
  (∀ B, graph (f B) = graph B) → keeping_map _ (update_block b f).
Proof.
  intros Hf s a s' W H.
  apply update_block_inv in H as [(B & HB & _ & ->)|(_ & ? & _)]; [|done].
  apply (block_map_ok_transfer s); [done|done| |done].
  intros b0 B0 HB0. simpl. destruct (decide (b0 = b)) as [->|Hne].
  - exists (f B). rewrite list_lookup_insert_eq by (by eapply lookup_lt_Some).
    split; [done|]. rewrite Hf. congruence.
  - exists B0. by rewrite list_lookup_insert_ne.
Qed.

Lemma bmo_update_graph g f : keeping_map _ (update_graph g f).
Proof.
  intros s a s' W H.
  apply update_graph_inv in H as [(G & HG & _ & ->)|(_ & ? & _)]; [|done].
  apply (block_map_ok_transfer s); eauto.
Qed.

Lemma bmo_block_graph b : keeping_map _ (block_graph b).
Proof. intros s a s' W H. by apply block_graph_inv in H as [-> _]. Qed.

Lemma bmo_append_parameter b p : keeping_map _ (append_parameter b p).
Proof.
  unfold append_parameter. apply bmo_bind; [apply bmo_block_graph|].
  intros g. apply bmo_update_graph.
Qed.

Lemma bmo_append_pred b p : keeping_map _ (append_pred b p).
Proof. by apply bmo_update_block. Qed.

Lemma bmo_register_phi b phi v : keeping_map _ (register_phi b phi v).
Proof. by apply bmo_update_block. Qed.

Lemma bmo_record_jump b t j : keeping_map _ (record_jump b t j).
Proof. by apply bmo_update_block. Qed.

Lemma bmo_write b v n : keeping_map _ (write b v n).
Proof. by apply bmo_update_block. Qed.

Lemma bmo_set_matured b : keeping_map _ (set_matured b).
Proof. by apply bmo_update_block. Qed.

Lemma bmo_set_Parser_graph g : keeping_map _ (set_Parser_graph g).
Proof.
  intros s a s' W H. unfold set_Parser_graph, bind, get, put in H. simplify_eq.
  apply (block_map_ok_transfer s); eauto.
Qed.

Lemma bmo_new_block : keeping_map _ new_block.
Proof.
  intros s a s' W H. unfold new_block, bind, new_graph in H. simplify_eq.
  apply (block_map_ok_transfer s); [done|done| |done].
  intros b B HB. exists B. split; [by apply lookup_app_l_Some|done].
Qed.

Lemma bmo_install_return b r : keeping_map _ (install_return b r).
Proof.
  intros s a s' W H.
  apply install_return_inv in H as [(_ & B & G & _ & _ & _ & ->)|[-> _]];
    [|done].
  apply (block_map_ok_transfer s); eauto.
Qed.

Lemma bmo_append_jump_argument p b a : keeping_map _ (append_jump_argument p b a).
Proof.
  intros s x s' W H.
  apply append_jump_argument_inv in H
    as [(_ & P & j & inputs & g & _ & _ & Hj & ->)|[-> _]]; [|done].
  apply (block_map_ok_transfer s); [done|done|eauto|].
  intros c g0 Hc. simpl. rewrite list_lookup_insert_ne; [done|].
  intros ->. congruence.
Qed.

(** [get_block_function] on a block that is there: what it returns and
    the heap it leaves. *)
Lemma get_block_function_ok s b B :
  block_map_ok s →
  blocks s !! b = Some B →
  get_block_function b s =
    (Ok (length (nodes s)),
     mkState (nodes s ++ [Constant (CGraph (graph B))]) (graphs s) (blocks s)
       (match block_map s !! b with
        | Some _ => block_map s
        | None => <[b := length (nodes s)]> (block_map s)
        end) (parser_graph s)).
Proof.
  intros W HB. unfold get_block_function, block_function_of.
  unfold bind at 1 2. unfold get, ret.
  destruct (block_map s !! b) as [c|] eqn:Hc.
  - destruct (W b c Hc) as (B' & HB' & Hcn). simplify_eq.
    rewrite _fresh_cases, Hcn. done.
  - rewrite (bind_ok _ _ _ _ _ (block_graph_ok _ _ _ HB)). done.
Qed.

Lemma bmo_get_block_function b : keeping_map _ (get_block_function b).
Proof.
  intros s c s' W H.
  destruct (blocks s !! b) as [B|] eqn:HB.
  - rewrite (get_block_function_ok s b B W HB) in H. simplify_eq.
    intros b0 c0 Hc0. simpl in *.
    assert (Hcases : (b0 = b ∧ c0 = length (nodes s) ∧ block_map s !! b = None) ∨
                     block_map s !! b0 = Some c0).
    { destruct (block_map s !! b) eqn:Hb; [by right|].
      apply lookup_insert_Some in Hc0 as [[-> <-]|[_ ?]]; [left|right]; done. }
    destruct Hcases as [(-> & -> & _)|Hc].
    + exists B. split; [done|]. by rewrite lookup_app_r, Nat.sub_diag.
    + destruct (W b0 c0 Hc) as (B0 & HB0 & Hn). exists B0. split; [done|].
      by apply lookup_app_l_Some.
  - unfold get_block_function, block_function_of in H.
    unfold bind at 1 2 in H. unfold get, ret in H.
    destruct (block_map s !! b) as [c0|] eqn:Hc.
    + destruct (W b c0 Hc) as (B' & HB' & _). congruence.
    + assert (Hg : block_graph b s = (Err Dangling, s)).
      { unfold block_graph. by rewrite (bind_err _ _ _ _ _ (get_block_err _ _ HB)). }
      by rewrite (bind_err _ _ _ _ _ Hg) in H.
Qed.

Lemma bmo_jump b t : keeping_map _ (jump b t).
Proof.
  unfold jump.
  repeat first
    [ apply bmo_block_graph | apply bmo_get_block_function
    | apply bmo_new_node | apply bmo_record_jump
    | apply bmo_append_pred | apply bmo_install_return
    | apply bmo_ret
    | apply bmo_bind; [|intros ?] ].
Qed.

(** X15. [parser.block_map] stays what it is meant to be: it is empty in the
    empty heap, and when its entries take blocks to constants of their
    own graphs before a function or a statement list is lowered, they do
    so afterwards. *)
Theorem block_map_designates_graphs ns_contains parser fuel :
  block_map_ok empty_state ∧
  (∀ def s g s',
     block_map_ok s →
     Parser_parse ns_contains parser fuel def s = (Ok g, s') →
     block_map_ok s') ∧
  (∀ b sts s b' s',
     block_map_ok s →
     process_statements ns_contains parser fuel b sts s = (Ok b', s') →
     block_map_ok s').
Proof.
  split; [by intros b c ?|]. split.
  - intros def s g s' W H. revert s g s' W H.
    apply (Spec_Parser_parse ns_contains parser fuel keeping_map);
      auto using bmo_ret, bmo_raise, bmo_bind, bmo_get_node, bmo_get_graph,
        bmo_get_block, bmo_new_node, bmo_new_block, bmo_append_parameter,
        bmo_append_pred, bmo_register_phi, bmo_write, bmo_set_matured,
        bmo_set_Parser_graph, bmo_install_return, bmo_append_jump_argument,
        bmo_get_block_function, bmo_jump.
  - intros b sts s b' s' W H. revert s b' s' W H.
    apply (Spec_process_statements ns_contains parser fuel keeping_map);
      auto using bmo_ret, bmo_raise, bmo_bind, bmo_get_node, bmo_get_graph,
        bmo_get_block, bmo_new_node, bmo_new_block, bmo_append_parameter,
        bmo_append_pred, bmo_register_phi, bmo_write, bmo_set_matured,
        bmo_set_Parser_graph, bmo_install_return, bmo_append_jump_argument,
        bmo_get_block_function, bmo_jump.
Qed.

(** X16. [get_block_function] never hands out the same node twice: each call
    on a block builds a new constant of the block's graph; the first one
    is entered in [block_map], the later ones are copies and leave
    [block_map] alone.  Nothing else changes. *)
Theorem get_block_function_copies (s : state) (b : block_id) (B : Block) :
  block_map_ok s →
  blocks s !! b = Some B →
  ∃ s',
    get_block_function b s = (Ok (length (nodes s)), s') ∧
    nodes s' = nodes s ++ [Constant (CGraph (graph B))] ∧
    graphs s' = graphs s ∧ blocks s' = blocks s ∧
    parser_graph s' = parser_graph s ∧
    (block_map s !! b = None →
       block_map s' = <[b := length (nodes s)]> (block_map s)) ∧
    (is_Some (block_map s !! b) → block_map s' = block_map s) ∧
    ∃ s'',
      get_block_function b s' = (Ok (S (length (nodes s))), s'') ∧
      nodes s'' = nodes s' ++ [Constant (CGraph (graph B))] ∧
      block_map s'' = block_map s'.
Proof.
  intros W HB. eexists. split; [by apply get_block_function_ok|].
  split; [done|]. split; [done|]. split; [done|]. split; [done|].
  split; [by intros ->|]. split; [by intros [c ->]|].
  match goal with |- ∃ s'', get_block_function b ?s1 = _ ∧ _ =>
    assert (W1 : block_map_ok s1) by
      (eapply bmo_get_block_function; [exact W|by apply get_block_function_ok]);
    assert (Hin : is_Some (block_map s1 !! b))
  end.
  { simpl. destruct (block_map s !! b) eqn:Hb; [by rewrite Hb|].
    rewrite lookup_insert_eq. by eexists. }
  eexists. split.
  { rewrite (get_block_function_ok _ b B W1 HB). simpl.
    rewrite length_app. simpl. rewrite Nat.add_1_r. reflexivity. }
  split; [done|]. destruct Hin as [c Hc]. simpl in *. by rewrite Hc.
Qed.

Lemma graph_return_ok b s B G :
  blocks s !! b = Some B → graphs s !! graph B = Some G →
  graph_return b s = (Ok (return_ G), s).
Proof.
  intros HB HG. unfold graph_return.
  rewrite (bind_ok _ _ _ _ _ (block_graph_ok _ _ _ HB)).
  by rewrite (bind_ok _ _ _ _ _ (get_graph_ok _ _ _ HG)).
Qed.

Lemma install_return_ok b r s B G :
  blocks s !! b = Some B → graphs s !! graph B = Some G → return_ G = None →
  install_return b r s =
    (Ok tt, set_graphs s (<[graph B := mkGraph (parameters G) (Some r)]> (graphs s))).
Proof.
  intros HB HG Hr. unfold install_return.
  rewrite (bind_ok _ _ _ _ _ (graph_return_ok _ _ _ _ HB HG)), Hr. simpl.
  unfold bind at 1. unfold ret at 1. unfold set_return.
  rewrite (bind_ok _ _ _ _ _ (block_graph_ok _ _ _ HB)).
  by rewrite (update_graph_ok _ _ _ _ HG).
Qed.

Lemma install_return_set b r s B G r0 :
  blocks s !! b = Some B → graphs s !! graph B = Some G → return_ G = Some r0 →
  install_return b r s = (Err (AssertionError "graph.return_ is None"), s).
Proof.
  intros HB HG Hr. unfold install_return.
  by rewrite (bind_ok _ _ _ _ _ (graph_return_ok _ _ _ _ HB HG)), Hr.
Qed.

(** X17. [Block.cond] on a block that has not returned: it builds
    [if_(cond, true graph, false graph)] in the block's graph, with a new
    constant for each of the two branch graphs, and installs the return
    of that application as the graph's return node.  It touches no block:
    the branches do not become successors through [cond], their [preds]
    are not written. *)
Theorem cond_installs_if (s : state) (b : block_id) (B : Block) (G : Graph)
    (c : node_id) (t f : block_id) (T F : Block) :
  block_map_ok s →
  blocks s !! b = Some B →
  graphs s !! graph B = Some G →
  return_ G = None →
  blocks s !! t = Some T →
  blocks s !! f = Some F →
  let n := length (nodes s) in
  ∃ s',
    cond b c t f s = (Ok (n + 5), s') ∧
    nodes s' = nodes s ++
      [Constant (CPrim primops.if_); Constant (CGraph (graph T));
       Constant (CGraph (graph F)); Apply [n; c; n + 1; n + 2] (graph B);
       Constant (CPrim primops.return_); Apply [n + 4; n + 3] (graph B)] ∧
    graphs s' = <[graph B := mkGraph (parameters G) (Some (n + 5))]> (graphs s) ∧
    blocks s' = blocks s ∧
    return_of s' b = Some (n + 5).
Proof.
  intros W HB HG Hr HT HF n. unfold cond.
  rewrite (bind_ok _ _ _ _ _ (block_graph_ok _ _ _ HB)).
  unfold bind at 1. unfold new_node at 1.
  set (s1 := set_nodes s _).
  assert (W1 : block_map_ok s1) by by apply block_map_ok_new_node.
  rewrite (bind_ok _ _ _ _ _ (get_block_function_ok s1 t T W1 HT)).
  set (s2 := mkState _ _ _ _ _).
  assert (W2 : block_map_ok s2).
  { eapply bmo_get_block_function; [exact W1|].
    by apply (get_block_function_ok s1 t T). }
  rewrite (bind_ok _ _ _ _ _ (get_block_function_ok s2 f F W2 HF)).
  unfold bind at 1. unfold new_node at 1.
  unfold bind at 1. unfold new_node at 1.
  unfold bind at 1. unfold new_node at 1.
  match goal with
  | |- ∃ s', bind (install_return b ?r) _ ?sx = _ ∧ _ =>
      rewrite (bind_ok _ _ _ _ _ (install_return_ok b r sx B G HB HG Hr))
  end.
  eexists. split.
  { unfold ret. subst s1 s2. unfold set_nodes, set_graphs. simpl.
    rewrite ?length_app. simpl. f_equal. f_equal. lia. }
  subst s1 s2. unfold set_nodes, set_graphs. simpl. rewrite ?length_app. simpl.
  rewrite <- !app_assoc. simpl. fold n. rewrite <- !Nat.add_assoc. simpl.
  split; [done|]. split; [done|]. split; [done|].
  unfold return_of. simpl. rewrite HB. simpl.
  rewrite list_lookup_insert_eq by (by eapply lookup_lt_Some). done.
Qed.

(** X18. A jump from a block that has returned fails, but not cleanly: the
    assertion on the return node is the last thing [Block.jump] does, so
    by then the jump node is made and recorded in [jumps], and the block
    stands in the target's [preds].  The heap is left changed. *)
Theorem jump_fails_late (s : state) (b : block_id) (B : Block) (G : Graph)
    (r0 : node_id) (t : block_id) (T : Block) :
  block_map_ok s →
  blocks s !! b = Some B →
  graphs s !! graph B = Some G →
  return_ G = Some r0 →
  blocks s !! t = Some T →
  ∃ s',
    jump b t s = (Err (AssertionError "graph.return_ is None"), s') ∧
    length (nodes s') = length (nodes s) + 4 ∧
    nodes s' !! (length (nodes s) + 1) =
      Some (Apply [length (nodes s)] (graph B)) ∧
    (∃ B', blocks s' !! b = Some B' ∧
           jumps B' !! t = Some (length (nodes s) + 1)) ∧
    (∃ T', blocks s' !! t = Some T' ∧ preds T' = preds T ++ [b]) ∧
    graphs s' = graphs s.
Proof.
  intros W HB HG Hr HT. unfold jump.
  rewrite (bind_ok _ _ _ _ _ (block_graph_ok _ _ _ HB)).
  rewrite (bind_ok _ _ _ _ _ (get_block_function_ok s t T W HT)).
  unfold bind at 1. unfold new_node at 1.
  set (s1 := set_nodes _ _).
  assert (HB1 : blocks s1 !! b = Some B) by done.
  unfold record_jump.
  rewrite (bind_ok _ _ _ _ _ (update_block_ok _ _ _ _ HB1)).
  set (B' := mkBlock (matured B) _ _ _ _ _).
  set (s2 := set_blocks s1 _).
  assert (HB2 : blocks s2 !! b = Some B').
  { subst s2. simpl. apply list_lookup_insert_eq. by eapply lookup_lt_Some. }
  assert (HT2 : ∃ T2, blocks s2 !! t = Some T2 ∧ preds T2 = preds T).
  { destruct (decide (t = b)) as [->|Hne].
    - exists B'. split; [done|]. simpl. congruence.
    - exists T. split; [|done]. subst s2. simpl.
      by rewrite list_lookup_insert_ne. }
  destruct HT2 as (T2 & HT2 & HpT).
  unfold append_pred.
  rewrite (bind_ok _ _ _ _ _ (update_block_ok _ _ _ _ HT2)).
  set (T' := mkBlock (matured T2) _ _ _ _ _).
  set (s3 := set_blocks s2 _).
  unfold bind at 1. unfold new_node at 1.
  unfold bind at 1. unfold new_node at 1.
  match goal with
  | |- ∃ s', bind (install_return b _) _ ?sx = _ ∧ _ => set (s5 := sx)
  end.
  assert (HB5 : ∃ B5, blocks s5 !! b = Some B5 ∧ graph B5 = graph B ∧
                      jumps B5 !! t = Some (length (nodes s) + 1)).
  { destruct (decide (t = b)) as [->|Hne].
    - exists T'. split; [|split].
      + subst s5 s3. simpl. apply list_lookup_insert_eq.
        apply lookup_lt_Some in HT2. done.
      + simplify_eq. done.
      + simplify_eq. simpl. rewrite lookup_insert_eq. f_equal.
        rewrite length_app. simpl. done.
    - exists B'. split; [|split].
      + subst s5 s3. simpl. by rewrite list_lookup_insert_ne.
      + done.
      + simpl. rewrite lookup_insert_eq. f_equal. rewrite length_app. done. }
  destruct HB5 as (B5 & HB5 & Hg5 & Hj5).
  assert (HG5 : graphs s5 !! graph B5 = Some G) by (by rewrite Hg5).
  rewrite (bind_err _ _ _ _ _ (install_return_set _ _ _ _ _ _ HB5 HG5 Hr)).
  eexists. split; [done|].
  split; [|split; [|split; [|split]]].
  - subst s5 s3 s2 s1. simpl. rewrite !length_app. simpl. lia.
  - subst s5 s3 s2 s1. simpl. rewrite <- !app_assoc. simpl.
    rewrite lookup_app_r by lia.
    replace (length (nodes s) + 1 - length (nodes s)) with 1 by lia. done.
  - eauto.
  - exists T'. split.
    + subst s5 s3. simpl. apply list_lookup_insert_eq.
      by apply lookup_lt_Some in HT2.
    + simpl. by rewrite HpT.
  - done.
Qed.

End BlockMap.

Section BlockMapWitnesses.
Import Parser ParserSpec ParserMore ParserSamples.

Lemma entry_state_block_map_ok : block_map_ok entry_state.
Proof. intros b c H. done. Qed.

Lemma block_map_designates_graphs_witness :
  block_map_ok loop_state.
Proof.
  apply (proj1 (proj2 (block_map_designates_graphs nowhere sample_parser 10))
           loop_def empty_state 0 loop_state).
  - apply (proj1 (block_map_designates_graphs nowhere sample_parser 10)).
  - vm_compute. reflexivity.
Defined.

Lemma get_block_function_copies_witness :
  ∃ s' s'',
    get_block_function 0 entry_state = (Ok 1, s') ∧
    get_block_function 0 s' = (Ok 2, s'') ∧
    nodes s'' = [Constant (CInt 1); Constant (CGraph 0); Constant (CGraph 0)].
Proof.
  destruct (get_block_function_copies entry_state 0 entry_block
              entry_state_block_map_ok eq_refl)
    as (s' & H1 & Hn & _ & _ & _ & _ & _ & s'' & H2 & Hn2 & _).
  exists s', s''. split; [exact H1|]. split; [exact H2|].
  rewrite Hn2, Hn. reflexivity.
Defined.

Lemma cond_installs_if_witness :
  ∃ s', cond 0 0 0 0 entry_state = (Ok 6, s') ∧
        return_of s' 0 = Some 6.
Proof.
  destruct (cond_installs_if entry_state 0 entry_block (mkGraph [] None) 0 0 0
              entry_block entry_block entry_state_block_map_ok
              eq_refl eq_refl eq_refl eq_refl eq_refl)
    as (s' & H & _ & _ & _ & Hr).
  exists s'. split; [exact H|exact Hr].
Defined.

Lemma jump_fails_late_witness :
  ∃ s1 s2,
    jump 0 0 entry_state = (Ok 4, s1) ∧
    jump 0 0 s1 = (Err (AssertionError "graph.return_ is None"), s2) ∧
    ∃ T', blocks s2 !! 0 = Some T' ∧ preds T' = [0; 0].
Proof.
  eexists. 
  assert (H1 : jump 0 0 entry_state = (Ok 4, (jump 0 0 entry_state).2))
    by (vm_compute; reflexivity).
  set (s1 := (jump 0 0 entry_state).2) in *.
  assert (W1 : block_map_ok s1).
  { eapply bmo_jump; [exact entry_state_block_map_ok|exact H1]. }
  destruct (jump_fails_late s1 0
              (mkBlock true {["x" := 0]} [0] ∅ {[0 := 2]} 0)
              (mkGraph [] (Some 4)) 4 0
              (mkBlock true {["x" := 0]} [0] ∅ {[0 := 2]} 0) W1)
    as (s2 & H2 & _ & _ & _ & (T' & HT' & Hp) & _);
    try (vm_compute; reflexivity).
  exists s2. split; [exact H1|]. split; [exact H2|].
  exists T'. split; [exact HT'|exact Hp].
Defined.

End BlockMapWitnesses.

(** ** Matured blocks are settled *)

Section Kept.
Import Parser ParserSpec ParserMore ParserKept.
Local Open Scope parser_scope.

Lemma settled_below_refl n s : settled_below n s s.
Proof. split; eauto. Qed.

Lemma settled_below_trans n s1 s2 s3 :
  settled_below n s1 s2 → settled_below n s2 s3 → settled_below n s1 s3.
Proof.
  intros [L1 P1 B1 G1] [L2 P2 B2 G2]. split.
  - lia.
  - congruence.
  - intros x B Hx HB Hm. destruct (B1 x B Hx HB Hm) as (B' & HB' & Hm' & Hp & Hg).
    destruct (B2 x B' Hx HB' Hm') as (B'' & HB'' & Hm'' & Hp' & Hg').
    exists B''. repeat split; congruence.
  - intros x B G Hx HB Hm Hl HG.
    destruct (B1 x B Hx HB Hm) as (B' & HB' & Hm' & Hp & Hg).
    destruct (G1 x B G Hx HB Hm Hl HG) as (G' & HG' & Hpar).
    destruct (G2 x B' G' Hx HB' Hm') as (G'' & HG'' & Hpar');
      [congruence|congruence|].
    exists G''. split; congruence.
Qed.

Lemma settled_below_mono m n s s' :
  (m ≤ n)%nat → settled_below n s s' → settled_below m s s'.
Proof.
  intros Hmn [L P B G]. split; [done|done| |].
  - intros x B0 Hx. apply B. lia.
  - intros x B0 G0 Hx. apply G. lia.
Qed.

Lemma settled_below_all n s s' : settled s s' → settled_below n s s'.
Proof.
  intros [L P B G]. split; [done|done| |].
  - intros x B0 _ HB. apply (B x B0); [|done]. by eapply lookup_lt_Some.
  - intros x B0 G0 _ HB. apply (G x B0 G0); [|done]. by eapply lookup_lt_Some.
Qed.

Lemma settled_same n s s' :
  blocks s' = blocks s → graphs s' = graphs s → parser_graph s' = parser_graph s →
  settled_below n s s'.
Proof.
  intros Hb Hg Hp. split.
  - by rewrite Hb.
  - done.
  - intros x B _ HB Hm. exists B. by rewrite Hb.
  - intros x B G _ HB Hm _ HG. exists G. by rewrite Hg.
Qed.

(** *** Steps that settle the blocks on any heap *)

Lemma steady_ret A (a : A) : steady A (ret a).
Proof. intros n s x s' H. unfold ret in H. simplify_eq. apply settled_below_refl. Qed.

Lemma steady_raise A e : steady A (raise e).
Proof. intros n s x s' H. unfold raise in H. by simplify_eq. Qed.

Lemma steady_bind A B (m : M A) (f : A → M B) :
  steady A m → (∀ a, steady B (f a)) → steady B (bind m f).
Proof.
  intros Hm Hf n s x s' H.
  apply bind_inv in H as [(a & s1 & H1 & H2)|(e & H1 & ?)]; [|done].
  eapply settled_below_trans; [by eapply Hm | by eapply Hf].
Qed.

Lemma steady_get_node n : steady _ (get_node n).
Proof.
  intros k s x s' H. unfold get_node, bind, get, lookup_or, ret, raise in H.
  destruct (nodes s !! n); simplify_eq. apply settled_below_refl.
Qed.

Lemma steady_get_graph g : steady _ (get_graph g).
Proof.
  intros k s x s' H. unfold get_graph, bind, get, lookup_or, ret, raise in H.
  destruct (graphs s !! g); simplify_eq. apply settled_below_refl.
Qed.

Lemma steady_get_block b : steady _ (get_block b).
Proof.
  intros k s x s' H. unfold get_block, bind, get, lookup_or, ret, raise in H.
  destruct (blocks s !! b); simplify_eq. apply settled_below_refl.
Qed.

Lemma steady_new_node x : steady _ (new_node x).
Proof. intros k s a s' H. unfold new_node in H. simplify_eq. by apply settled_same. Qed.

Lemma steady_new_block : steady _ new_block.
Proof.
  intros k s a s' H. unfold new_block, bind, new_graph in H. simplify_eq.
  split; simpl.
  - rewrite length_app. lia.
  - done.
  - intros x B _ HB Hm. exists B. split; [by apply lookup_app_l_Some|done].
  - intros x B G _ HB Hm _ HG. exists G. split; [by apply lookup_app_l_Some|done].
Qed.

Lemma settled_update_block n s b B B' :
  blocks s !! b = Some B →
  (b < n → matured B = true →
     matured B' = true ∧ preds B' = preds B ∧ graph B' = graph B)%nat →
  settled_below n s (set_blocks s (<[b := B']> (blocks s))).
Proof.
  intros HB Hf. split; simpl.
  - by rewrite length_insert.
  - done.
  - intros x B0 Hx HB0 Hm. destruct (decide (x = b)) as [->|Hne].
    + exists B'. rewrite list_lookup_insert_eq by (by eapply lookup_lt_Some).
      simplify_eq. destruct (Hf Hx Hm) as (? & ? & ?). done.
    + exists B0. by rewrite list_lookup_insert_ne.
  - intros x B0 G _ HB0 Hm _ HG. eauto.
Qed.

Lemma steady_update_block b f :
  (∀ B, (matured B = true → matured (f B) = true) ∧
        preds (f B) = preds B ∧ graph (f B) = graph B) →
  steady _ (update_block b f).
Proof.
  intros Hf n s a s' H.
  apply update_block_inv in H as [(B & HB & _ & ->)|(_ & ? & _)]; [|done].
  apply (settled_update_block n s b B); [done|]. intros _ Hm.
  destruct (Hf B) as (? & ? & ?). auto.
Qed.

Lemma steady_update_graph g f :
  (∀ G, parameters (f G) = parameters G) → steady _ (update_graph g f).
Proof.
  intros Hf n s a s' H.
  apply update_graph_inv in H as [(G & HG & _ & ->)|(_ & ? & _)]; [|done].
  split; simpl; [done|done|eauto|].
  intros x B G0 _ HB Hm _ HG0. destruct (decide (graph B = g)) as [<-|Hne].
  - exists (f G). rewrite list_lookup_insert_eq by (by eapply lookup_lt_Some).
    split; [done|]. rewrite Hf. congruence.
  - exists G0. by rewrite list_lookup_insert_ne.
Qed.

Lemma steady_block_graph b : steady _ (block_graph b).
Proof.
  intros n s a s' H. apply block_graph_inv in H as [-> _]. apply settled_below_refl.
Qed.

Lemma steady_register_phi b phi v : steady _ (register_phi b phi v).
Proof. by apply steady_update_block. Qed.

Lemma steady_record_jump b t j : steady _ (record_jump b t j).
Proof. by apply steady_update_block. Qed.

Lemma steady_write b v n : steady _ (write b v n).
Proof. by apply steady_update_block. Qed.

Lemma steady_set_matured b : steady _ (set_matured b).
Proof. by apply steady_update_block. Qed.

Lemma steady_install_return b r : steady _ (install_return b r).
Proof.
  unfold install_return, graph_return, set_return, assert.
  repeat first
    [ apply steady_block_graph | apply steady_get_graph | apply steady_ret
    | apply steady_raise | by apply steady_update_graph
    | apply steady_bind; [|intros ?]
    | match goal with |- steady _ (if ?c then _ else _) => destruct c end ].
Qed.

Lemma steady_append_jump_argument p b a : steady _ (append_jump_argument p b a).
Proof.
  intros n s x s' H.
  apply append_jump_argument_inv in H
    as [(_ & P & j & inputs & g & _ & _ & _ & ->)|[-> _]];
    [by apply settled_same|apply settled_below_refl].
Qed.

Lemma steady_get_block_function b : steady _ (get_block_function b).
Proof.
  unfold get_block_function. apply steady_bind.
  { intros n s r s' H. unfold block_function_of, bind, get, ret in H. simplify_eq.
    apply settled_below_refl. }
  intros [c|].
  - unfold _fresh. apply steady_bind; [apply steady_get_node|].
    intros []; first [apply steady_new_node | apply steady_ret].
  - apply steady_bind; [apply steady_block_graph|]. intros g.
    apply steady_bind; [apply steady_new_node|]. intros node.
    apply steady_bind; [|intros; apply steady_ret].
    intros n s r s' H. unfold remember_block_function, bind, get, put in H.
    simplify_eq. by apply settled_same.
Qed.

Lemma steady_cond b c t f : steady _ (cond b c t f).
Proof.
  apply Spec_cond;
    auto using steady_ret, steady_raise, steady_bind, steady_get_node,
      steady_get_graph, steady_get_block, steady_new_node, steady_install_return,
      steady_get_block_function.
Qed.

Lemma steady_to_below n A (m : M A) : steady A m → steady_below n A m.
Proof. intros H s a s' _. apply H. Qed.

Lemma steady_below_bind n A B (m : M A) (f : A → M B) :
  steady_below n A m → (∀ a, steady_below n B (f a)) → steady_below n B (bind m f).
Proof.
  intros Hm Hf s x s' Hn H.
  apply bind_inv in H as [(a & s1 & H1 & H2)|(e & H1 & ?)]; [|done].
  pose proof (Hm _ _ _ Hn H1) as S1.
  eapply settled_below_trans; [done|]. eapply Hf; [|done].
  pose proof (sb_length _ _ _ S1). lia.
Qed.

(** A predecessor is only ever added to a block at or above [n]. *)
Lemma steady_below_append_pred n t p :
  (n ≤ t)%nat → steady_below n _ (append_pred t p).
Proof.
  intros Hnt s a s' _ H.
  apply update_block_inv in H as [(B & HB & _ & ->)|(_ & ? & _)]; [|done].
  apply (settled_update_block n s t B); [done|]. lia.
Qed.

Lemma steady_below_jump n b t : (n ≤ t)%nat → steady_below n _ (jump b t).
Proof.
  intros Hnt. unfold jump.
  repeat first
    [ apply steady_to_below;
      first [ apply steady_block_graph | apply steady_get_block_function
            | apply steady_new_node | apply steady_record_jump
            | apply steady_install_return | apply steady_ret ]
    | by apply steady_below_append_pred
    | apply steady_below_bind; [|intros ?] ].
Qed.

Lemma steady_below_jump_unless_returned n e t :
  (n ≤ t)%nat → steady_below n _ (jump_unless_returned e t).
Proof.
  intros Hnt. unfold jump_unless_returned, graph_return.
  apply steady_below_bind.
  { apply steady_to_below.
    repeat first [ apply steady_block_graph | apply steady_get_graph
                 | apply steady_ret | apply steady_bind; [|intros ?] ]. }
  intros [r|]; [apply steady_to_below, steady_ret|].
  apply steady_below_bind; [by apply steady_below_jump|].
  intros _. apply steady_to_below, steady_ret.
Qed.

(** A parameter appended to the graph of a block at or above [n], on a
    heap where no two blocks share a graph. *)
Lemma settled_append_parameter n s b p s' :
  well_formed s → (n ≤ b)%nat →
  append_parameter b p s = (Ok tt, s') → settled_below n s s'.
Proof.
  intros W Hnb H. unfold append_parameter in H.
  apply bind_inv in H as [(g & s1 & H1 & H)|(? & _ & ?)]; [|done].
  apply block_graph_inv in H1 as [-> [(Bb & HBb & ?)|[_ ?]]]; [|done].
  simplify_eq.
  apply update_graph_inv in H as [(G & HG & _ & ->)|(_ & ? & _)]; [|done].
  split; simpl; [done|done|eauto|].
  intros x B G0 Hx HB Hm _ HG0. exists G0. split; [|done].
  rewrite list_lookup_insert_ne; [done|].
  intros Heq. pose proof (wf_apart s W b x Bb B HBb HB Heq). lia.
Qed.

(** A parameter appended to the graph of a block in which [read] makes a
    phi node: the block is not matured, or has two predecessors or more. *)
Lemma settled_append_phi n s b B p s' :
  well_formed s → blocks s !! b = Some B →
  matured B = false ∨ (2 ≤ length (preds B))%nat →
  append_parameter b p s = (Ok tt, s') → settled_below n s s'.
Proof.
  intros W HBb Hcase H. unfold append_parameter in H.
  apply bind_inv in H as [(g & s1 & H1 & H)|(? & _ & ?)]; [|done].
  apply block_graph_inv in H1 as [-> [(Bb & HBb' & ?)|[_ ?]]]; [|done].
  simplify_eq.
  apply update_graph_inv in H as [(G & HG & _ & ->)|(_ & ? & _)]; [|done].
  split; simpl; [done|done|eauto|].
  intros x B0 G0 Hx HB Hm Hl HG0. exists G0. split; [|done].
  rewrite list_lookup_insert_ne; [done|].
  intros Heq. pose proof (wf_apart s W b x B B0 HBb HB Heq). subst x.
  simplify_eq. destruct Hcase; [congruence|lia].
Qed.

(** *** Steps on a well-formed heap *)

Lemma good_intro A (m : M A) :
  preserving well_formed A m → steady A m → good A m.
Proof.
  intros Hw Hs s a s' W H. split; [by eapply Hw|]. by eapply Hs.
Qed.

Lemma good_below_intro n A (m : M A) :
  preserving well_formed A m → steady_below n A m → good_below n A m.
Proof.
  intros Hw Hs s a s' W Hn H. split; [by eapply Hw|]. by eapply Hs.
Qed.

Lemma good_to_below n A (m : M A) : good A m → good_below n A m.
Proof.
  intros Hm s a s' W Hn H. destruct (Hm _ _ _ W H) as [W' S].
  split; [done|]. by apply settled_below_all.
Qed.

Lemma good_ret A (a : A) : good A (ret a).
Proof. apply good_intro; [apply wf_ret|apply steady_ret]. Qed.

Lemma good_raise A e : good A (raise e).
Proof. apply good_intro; [apply wf_raise|apply steady_raise]. Qed.

Lemma good_bind A B (m : M A) (f : A → M B) :
  good A m → (∀ a, good B (f a)) → good B (bind m f).
Proof.
  intros Hm Hf s x s' W H.
  apply bind_inv in H as [(a & s1 & H1 & H2)|(e & H1 & ?)]; [|done].
  destruct (Hm _ _ _ W H1) as [W1 S1]. destruct (Hf _ _ _ _ W1 H2) as [W2 S2].
  split; [done|]. eapply settled_below_trans; [exact S1|].
  eapply settled_below_mono; [|exact S2]. apply (sb_length _ _ _ S1).
Qed.

Lemma good_below_bind n A B (m : M A) (f : A → M B) :
  good_below n A m → (∀ a, good_below n B (f a)) → good_below n B (bind m f).
Proof.
  intros Hm Hf s x s' W Hn H.
  apply bind_inv in H as [(a & s1 & H1 & H2)|(e & H1 & ?)]; [|done].
  destruct (Hm _ _ _ W Hn H1) as [W1 S1].
  destruct (Hf a s1 x s' W1) as [W2 S2]; [|done|].
  { pose proof (sb_length _ _ _ S1). lia. }
  split; [done|]. by eapply settled_below_trans.
Qed.

(** A block made in the course gets an index that is not below [n]. *)
Lemma good_below_new_block n B (f : block_id → M B) :
  (∀ a, (n ≤ a)%nat → good_below n B (f a)) →
  good_below n B (bind new_block f).
Proof.
  intros Hf s x s' W Hn H.
  apply bind_inv in H as [(a & s1 & H1 & H2)|(e & H1 & ?)]; [|done].
  pose proof (wf_new_block _ _ _ W H1) as W1.
  pose proof (steady_new_block n _ _ _ H1) as S1.
  apply new_block_inv in H1 as [[= ->] Hb].
  destruct (Hf _ Hn s1 x s' W1) as [W2 S2]; [|done|].
  { pose proof (sb_length _ _ _ S1). lia. }
  split; [done|]. by eapply settled_below_trans.
Qed.

Lemma good_get_node n : good _ (get_node n).
Proof. apply good_intro; [apply wf_get_node|apply steady_get_node]. Qed.

Lemma good_get_graph g : good _ (get_graph g).
Proof. apply good_intro; [apply wf_get_graph|apply steady_get_graph]. Qed.

Lemma good_get_block b : good _ (get_block b).
Proof. apply good_intro; [apply wf_get_block|apply steady_get_block]. Qed.

Lemma good_new_node x : good _ (new_node x).
Proof. apply good_intro; [apply wf_new_node_step|apply steady_new_node]. Qed.

Lemma good_register_phi b phi v : good _ (register_phi b phi v).
Proof. apply good_intro; [apply wf_register_phi|apply steady_register_phi]. Qed.

Lemma good_write b v n : good _ (write b v n).
Proof. apply good_intro; [apply wf_write|apply steady_write]. Qed.

Lemma good_set_matured b : good _ (set_matured b).
Proof. apply good_intro; [apply wf_set_matured|apply steady_set_matured]. Qed.

Lemma good_install_return b r : good _ (install_return b r).
Proof. apply good_intro; [apply wf_install_return|apply steady_install_return]. Qed.

Lemma good_append_jump_argument p b a : good _ (append_jump_argument p b a).
Proof.
  apply good_intro;
    [apply wf_append_jump_argument|apply steady_append_jump_argument].
Qed.

Lemma good_get_block_function b : good _ (get_block_function b).
Proof.
  apply good_intro; [apply wf_get_block_function|apply steady_get_block_function].
Qed.

Lemma good_cond b c t f : good _ (cond b c t f).
Proof.
  apply good_intro; [|apply steady_cond].
  apply Spec_cond;
    auto using wf_ret, wf_raise, wf_bind, wf_get_node, wf_get_graph, wf_get_block,
      wf_new_node_step, wf_install_return, wf_get_block_function.
Qed.

Lemma good_below_append_pred n t p :
  (n ≤ t)%nat → good_below n _ (append_pred t p).
Proof.
  intros. apply good_below_intro; [apply wf_append_pred|].
  by apply steady_below_append_pred.
Qed.

Lemma good_below_jump n b t : (n ≤ t)%nat → good_below n _ (jump b t).
Proof.
  intros. apply good_below_intro; [apply wf_jump|]. by apply steady_below_jump.
Qed.

Lemma good_below_jump_unless_returned n e t :
  (n ≤ t)%nat → good_below n _ (jump_unless_returned e t).
Proof.
  intros. apply good_below_intro; [|by apply steady_below_jump_unless_returned].
  apply Spec_jump_unless_returned;
    auto using wf_ret, wf_raise, wf_bind, wf_get_graph, wf_get_block, wf_jump.
Qed.

Lemma good_below_append_parameter n b p :
  (n ≤ b)%nat → good_below n _ (append_parameter b p).
Proof.
  intros Hnb s [] s' W Hn H. split; [by eapply wf_append_parameter|].
  exact (settled_append_parameter n s b p s' W Hnb H).
Qed.

End Kept.

Section KeptLowering.
Import Parser ParserSpec ParserMore ParserKept.
Local Open Scope parser_scope.
Variable ns_contains : Namespace → string → bool.
Variable parser : Parser.

Lemma good_all A (m : M A) s a s' :
  good A m → well_formed s → m s = (Ok a, s') →
  well_formed s' ∧ ∀ n, settled_below n s s'.
Proof.
  intros Hm W H. destruct (Hm _ _ _ W H) as [W' S]. split; [done|].
  intros n. by apply settled_below_all.
Qed.

Lemma below_to_good A (m : M A) : (∀ n, good_below n A m) → good A m.
Proof. intros Hm s a s' W H. by apply (Hm (length (blocks s)) s a s'). Qed.

Lemma good__fresh n : good _ (_fresh n).
Proof.
  apply Spec__fresh; auto using good_ret, good_bind, good_get_node, good_new_node.
Qed.

Lemma good_make_resolve b ns name : good _ (make_resolve b ns name).
Proof.
  apply Spec_make_resolve;
    auto using good_ret, good_raise, good_bind, good_get_block, good_new_node.
Qed.

Lemma good_set_phi_arguments_with rd b phi :
  (∀ p v, good _ (rd p v)) → good _ (set_phi_arguments_with rd b phi).
Proof.
  intros Hrd. apply Spec_set_phi_arguments_with;
    auto using good_ret, good_raise, good_bind, good_get_node, good_get_block,
      good_append_jump_argument.
Qed.

(** The branch of [Block.read] that makes a phi node. *)
Lemma good_phi_branch (rd : block_id → string → M node_id) b B v s a s' :
  (∀ p w, good _ (rd p w)) →
  well_formed s →
  blocks s !! b = Some B →
  matured B = false ∨ (2 ≤ length (preds B))%nat →
  (phi <- new_node (Parameter_ (graph B)) ;;
   append_parameter b phi ;;
   register_phi b phi v ;;
   write b v phi ;;
   B <- get_block b ;;
   (if matured B then set_phi_arguments_with rd b phi else ret tt) ;;
   ret phi) s = (Ok a, s') →
  well_formed s' ∧ settled s s'.
Proof.
  intros Hrd W HB Hcase H.
  apply bind_inv in H as [(phi & s1 & H1 & H)|(? & _ & ?)]; [|done].
  destruct (good_all _ _ _ _ _ (good_new_node _) W H1) as [W1 S1].
  assert (HB1 : blocks s1 !! b = Some B).
  { unfold new_node in H1. by simplify_eq. }
  apply bind_inv in H as [([] & s2 & H2 & H)|(? & _ & ?)]; [|done].
  pose proof (wf_append_parameter _ _ _ _ _ W1 H2) as W2.
  pose proof (λ n, settled_append_phi n s1 b B phi s2 W1 HB1 Hcase H2) as S2.
  assert (Hrest : good _
    (register_phi b phi v ;;
     write b v phi ;;
     B <- get_block b ;;
     (if matured B then set_phi_arguments_with rd b phi else ret tt) ;;
     ret phi)).
  { repeat first
      [ apply good_register_phi | apply good_write | apply good_get_block
      | apply good_ret | by apply good_set_phi_arguments_with
      | apply good_bind; [|intros ?]
      | match goal with |- good _ (if ?c then _ else _) => destruct c end ]. }
  destruct (good_all _ _ _ _ _ Hrest W2 H) as [W3 S3].
  split; [done|].
  eapply settled_below_trans; [apply S1|].
  eapply settled_below_trans; [apply S2|apply S3].
Qed.

Lemma good_read fuel b v : good _ (read ns_contains parser fuel b v).
Proof.
  revert b v. induction fuel as [|fuel IH]; intros b v; [apply good_raise|].
  intros s a s' W H. simpl in H.
  apply bind_inv in H as [(B & s1 & H1 & H)|(? & _ & ?)]; [|done].
  assert (s1 = s ∧ blocks s !! b = Some B) as [-> HB].
  { unfold get_block, bind, get, lookup_or, ret, raise in H1.
    destruct (blocks s !! b); by simplify_eq. }
  destruct (variables B !! v) as [node|]; [by eapply good__fresh|].
  destruct (matured B) eqn:Hm, (preds B) as [|p [|q l]] eqn:Hp.
  - destruct (ns_contains _ _); by eapply good_make_resolve.
  - by eapply IH.
  - eapply (good_phi_branch _ b B); eauto. right. rewrite Hp. simpl. lia.
  - eapply (good_phi_branch _ b B); eauto.
  - eapply (good_phi_branch _ b B); eauto.
  - eapply (good_phi_branch _ b B); eauto.
Qed.

Lemma good_mature_loop fuel b k i :
  good _ (mature_loop ns_contains parser fuel b k i).
Proof.
  revert i. induction k as [|k IH]; intros i; simpl.
  - apply good_bind; [apply good_get_block|]. intros B.
    apply good_bind; [apply good_get_graph|]. intros G.
    destruct (parameters G !! i); [apply good_raise|apply good_ret].
  - apply good_bind; [apply good_get_block|]. intros B.
    apply good_bind; [apply good_get_graph|]. intros G.
    destruct (parameters G !! i); [|apply good_ret].
    apply good_bind; [|intros _; apply IH].
    destruct (bool_decide _); [|apply good_ret].
    apply good_set_phi_arguments_with. intros. apply good_read.
Qed.

Lemma good_mature fuel b : good _ (mature ns_contains parser fuel b).
Proof.
  unfold mature. apply good_bind; [apply good_mature_loop|].
  intros _. apply good_set_matured.
Qed.

Variable fuel : nat.

Lemma good_block_graph b : good _ (block_graph b).
Proof.
  apply Spec_block_graph; auto using good_ret, good_bind, good_get_block.
Qed.

Lemma good_process_node b e : good _ (process_node ns_contains parser fuel b e).
Proof.
  assert (Hbg := good_block_graph). assert (Hmr := good_make_resolve).
  assert (Hnn := good_new_node). assert (Hrd := good_read fuel).
  assert (Hop : ∀ b op, good _ (_resolve_operator b op)).
  { intros. unfold _resolve_operator. by destruct (ast_map_operator _). }
  assert (Hun : ∀ b op, good _ (_resolve_unaryop b op)).
  { intros. unfold _resolve_unaryop. by destruct (ast_map_unaryop _). }
  assert (Hcm : ∀ b op, good _ (_resolve_cmpop b op)).
  { intros. unfold _resolve_cmpop. apply good_bind.
    - unfold lookup_or. destruct (ast_map_cmpop _); [apply good_ret|apply good_raise].
    - by intros []. }
  assert (Hlk : ∀ A err (o : option A), good _ (lookup_or err o)).
  { intros A err [x|]; [apply good_ret|apply good_raise]. }
  assert (Has : ∀ c msg, good _ (assert c msg)).
  { intros [] msg; [apply good_ret|apply good_raise]. }
  assert (Hcons : ∀ op g elts, good _ (cons op g elts)).
  { intros. apply Spec_cons; auto using good_bind. }
  assert (Hmap : ∀ A B (f : A → M B) xs,
            Forall (λ x, good _ (f x)) xs → good _ (map_each f xs)).
  { intros. apply Spec_map_each; auto using good_ret, good_bind. }
  revert b.
  induction e as [l op r IHl IHr|op e0 IH|l ops cs IHl IHcs|id|n|str
                 |f args IHf IHargs|v|elts IHelts|v sl IHv IHsl|v IH
                 |v attr IH|] using expr_nested_ind; intros b; simpl;
    repeat first
      [ apply good_ret | apply good_raise | done
      | match goal with
        | |- good _ (map_each (_resolve_cmpop _) _) =>
            apply Hmap, Forall_forall; intros; apply Hcm
        | |- good _ (map_each _ _) =>
            apply Hmap; eapply Forall_impl; [eassumption|]; simpl; auto
        | |- good _ (match ?cs with [] => _ | _ :: _ => _ end) =>
            destruct cs; [apply good_raise|];
            match goal with
            | H : Forall _ (_ :: _) |- _ => apply Forall_cons in H as [H _]; apply H
            end
        | |- good _ (match ?v with Some _ => _ | None => _ end) => destruct v
        end
      | apply good_bind; [|intros ?] ].
Qed.

Lemma good_for_each A (f : A → M unit) xs :
  (∀ x, good _ (f x)) → good _ (for_each f xs).
Proof. intros. apply Spec_for_each; auto using good_ret, good_bind. Qed.

Lemma good_below_for_each n A (f : A → M unit) xs :
  (∀ x, good_below n _ (f x)) → good_below n _ (for_each f xs).
Proof.
  intros Hf. induction xs as [|x xs IH]; simpl.
  - apply good_to_below, good_ret.
  - apply good_below_bind; [apply Hf|]. intros _. apply IH.
Qed.

Lemma good_assign_write b targ anf : good _ (assign_write b targ anf).
Proof.
  revert anf.
  induction targ as [| | | | | | | |elts IHelts| | | |]
    using expr_nested_ind; intros anf; simpl;
    try apply good_raise; [apply good_write|].
  generalize 0%Z. induction IHelts as [|e elts He _ IH]; intros i.
  - apply good_ret.
  - repeat first
      [ apply good_make_resolve | apply good_new_node | apply good_block_graph
      | apply He | apply IH
      | apply good_bind; [|intros ?] ].
Qed.

Lemma good_process_Assign b targets v :
  good _ (process_Assign ns_contains parser fuel b targets v).
Proof.
  unfold process_Assign. apply good_bind; [apply good_process_node|].
  intros anf. apply good_bind; [|intros; apply good_ret].
  apply good_for_each. intros. apply good_assign_write.
Qed.

Lemma good_process_Return b v :
  good _ (process_Return ns_contains parser fuel b v).
Proof.
  unfold process_Return.
  repeat first
    [ apply good_new_node | apply good_block_graph | apply good_install_return
    | apply good_ret | apply good_raise | apply good_process_node
    | apply good_bind; [|intros ?]
    | match goal with |- good _ (match ?v with Some _ => _ | None => _ end) =>
        destruct v end ].
Qed.

Ltac below :=
  repeat first
    [ apply good_to_below;
      first [ apply good_ret | apply good_process_node | apply good_mature
            | apply good_cond | apply good_block_graph | apply good_new_node
            | apply good_write | apply good_get_block_function
            | solve [auto] ]
    | by apply good_below_append_pred
    | by apply good_below_jump
    | by apply good_below_jump_unless_returned
    | by apply good_below_append_parameter
    | apply good_below_new_block; intros ? ?
    | apply good_below_bind; [|intros ?] ].

Section Bodies.
Variable ps : block_id → list ast.stmt → M block_id.

Local Abbreviation real := (mature ns_contains parser fuel).

Lemma good_process_If b test body orelse :
  (∀ b, good _ (ps b body)) →
  (∀ b, good _ (ps b orelse)) →
  good _ (process_If_with ns_contains parser fuel real ps b test body orelse).
Proof.
  intros IHb IHo. apply below_to_good. intros n.
  unfold process_If_with. below.
Qed.

Lemma good_process_While b test body :
  (∀ b, good _ (ps b body)) →
  good _ (process_While_with ns_contains parser fuel real ps b test body).
Proof.
  intros IHb. apply below_to_good. intros n.
  unfold process_While_with. below.
Qed.

(** A function defined inside a block: [parser.graph] is not written. *)
Lemma good__process_function b name args body :
  (∀ b, good _ (ps b body)) →
  good _ (_process_function_with real ps (Some b) name args body).
Proof.
  intros IHb. apply below_to_good. intros n.
  unfold _process_function_with.
  apply good_below_new_block. intros fb Hfb.
  apply good_below_bind; [by apply good_below_append_pred|]. intros _.
  apply good_below_bind; [apply good_to_below, good_mature|]. intros _.
  apply good_below_bind.
  { apply good_below_for_each. intros arg. below. }
  intros _. below.
Qed.

End Bodies.

Lemma good_process_stmt_list (sts : list ast.stmt) :
  Forall (λ st, ∀ b, good _ (process_stmt ns_contains parser fuel b st)) sts →
  ∀ b, good _ (process_statements ns_contains parser fuel b sts).
Proof.
  induction 1 as [|st sts Hst _ IH]; intros b; simpl.
  - apply good_ret.
  - apply good_bind; [apply Hst|]. intros a. apply IH.
Qed.

Lemma good_process_stmt b st :
  good _ (process_stmt ns_contains parser fuel b st).
Proof.
  revert b.
  induction st as [name args body IH| | | |test body orelse IHb IHo
                  |test body orelse IHb IHo|] using stmt_nested_ind; intros b.
  - change (good _ (r <- _process_function_with (mature ns_contains parser fuel)
                          (process_statements ns_contains parser fuel)
                          (Some b) name args body ;;
                    fn <- get_block_function (snd r) ;;
                    write b name fn ;; ret b)).
    apply good_bind.
    { apply good__process_function. by apply good_process_stmt_list. }
    intros r. apply good_bind; [apply good_get_block_function|]. intros fn.
    apply good_bind; [apply good_write|]. intros _. apply good_ret.
  - apply good_process_Return.
  - apply good_process_Assign.
  - apply good_ret.
  - apply (good_process_If (process_statements ns_contains parser fuel));
      by apply good_process_stmt_list.
  - apply (good_process_While (process_statements ns_contains parser fuel));
      by apply good_process_stmt_list.
  - apply good_raise.
Qed.

Lemma good_process_statements b sts :
  good _ (process_statements ns_contains parser fuel b sts).
Proof.
  apply good_process_stmt_list, Forall_forall. intros. apply good_process_stmt.
Qed.

(** X19. No predecessor is added to a matured block, and no phi node is made
    in a matured block with at most one predecessor: on a well-formed
    heap, a block that is matured before a statement list is lowered,
    before a name is read or before a block is matured, is matured
    afterwards, with the predecessors and the graph it had; and when it
    has at most one predecessor, its graph has the parameters it had. *)
Theorem matured_blocks_are_settled (s : state) :
  well_formed s →
  (∀ b sts b' s',
     process_statements ns_contains parser fuel b sts s = (Ok b', s') →
     settled s s') ∧
  (∀ b v n s',
     read ns_contains parser fuel b v s = (Ok n, s') → settled s s') ∧
  (∀ b s',
     mature ns_contains parser fuel b s = (Ok tt, s') → settled s s').
Proof.
  intros W. split; [|split].
  - intros b sts b' s' H. by apply (good_process_statements b sts s b' s' W H).
  - intros b v n s' H. by apply (good_read fuel b v s n s' W H).
  - intros b s' H. by apply (good_mature fuel b s tt s' W H).
Qed.

End KeptLowering.

(** ** The graph of a parsed function *)

Section FunctionGraph.
Import Parser ParserSpec ParserMore ParserKept.
Local Open Scope parser_scope.
Variable ns_contains : Namespace → string → bool.
Variable parser : Parser.
Variable fuel : nat.

Lemma new_block_ok s :
  new_block s =
    (Ok (length (blocks s)),
     mkState (nodes s) (graphs s ++ [mkGraph [] None])
       (blocks s ++ [mkBlock false ∅ [] ∅ ∅ (length (graphs s))])
       (block_map s) (parser_graph s)).
Proof. reflexivity. Qed.

(** Maturing a block whose graph has no parameter only sets the flag. *)
Lemma mature_no_parameters b B G s :
  blocks s !! b = Some B → graphs s !! graph B = Some G → parameters G = [] →
  mature ns_contains parser fuel b s =
    (Ok tt, set_blocks s (<[b := mkBlock true (variables B) (preds B) (phi_nodes B)
                                   (jumps B) (graph B)]> (blocks s))).
Proof.
  intros HB HG Hp. unfold mature.
  assert (Hloop : mature_loop ns_contains parser fuel b fuel 0 s = (Ok tt, s)).
  { destruct fuel; simpl;
      rewrite (bind_ok _ _ _ _ _ (get_block_ok _ _ _ HB)),
        (bind_ok _ _ _ _ _ (get_graph_ok _ _ _ HG)), Hp; done. }
  rewrite (bind_ok _ _ _ _ _ Hloop). unfold set_matured.
  by rewrite (update_block_ok _ _ _ _ HB).
Qed.

(** The loop over the arguments in [_process_function]: one parameter
    node per argument, appended to the graph in the order of the
    arguments. *)
Lemma declare_parameters b args :
  ∀ s B G, blocks s !! b = Some B → graphs s !! graph B = Some G →
  ∃ s' B' G',
    for_each (λ arg,
      g <- block_graph b ;;
      anf_node <- new_node (Parameter_ g) ;;
      append_parameter b anf_node ;;
      write b arg anf_node) args s = (Ok tt, s') ∧
    blocks s' !! b = Some B' ∧ matured B' = matured B ∧ preds B' = preds B ∧
    graph B' = graph B ∧
    graphs s' !! graph B = Some G' ∧
    parameters G' = parameters G ++ seq (length (nodes s)) (length args) ∧
    nodes s' = nodes s ++ replicate (length args) (Parameter_ (graph B)) ∧
    parser_graph s' = parser_graph s.
Proof.
  induction args as [|arg args IH]; intros s B G HB HG.
  - exists s, B, G. simpl. rewrite !app_nil_r. done.
  - set (n := length (nodes s)).
    set (s1 := set_nodes s (nodes s ++ [Parameter_ (graph B)])).
    set (G1 := mkGraph (parameters G ++ [n]) (return_ G)).
    set (s2 := set_graphs s1 (<[graph B := G1]> (graphs s1))).
    set (B1 := mkBlock (matured B) (<[arg := n]> (variables B)) (preds B)
                 (phi_nodes B) (jumps B) (graph B)).
    set (s3 := set_blocks s2 (<[b := B1]> (blocks s2))).
    assert (Hstep :
      (g <- block_graph b ;;
       anf_node <- new_node (Parameter_ g) ;;
       append_parameter b anf_node ;;
       write b arg anf_node) s = (Ok tt, s3)).
    { rewrite (bind_ok _ _ _ _ _ (block_graph_ok _ _ _ HB)).
      unfold bind at 1. unfold new_node at 1. fold n. fold s1.
      assert (HB1 : blocks s1 !! b = Some B) by done.
      assert (HG1 : graphs s1 !! graph B = Some G) by done.
      assert (Happ : append_parameter b n s1 = (Ok tt, s2)).
      { unfold append_parameter.
        rewrite (bind_ok _ _ _ _ _ (block_graph_ok _ _ _ HB1)).
        by rewrite (update_graph_ok _ _ _ _ HG1). }
      rewrite (bind_ok _ _ _ _ _ Happ). unfold write.
      assert (HB2 : blocks s2 !! b = Some B) by done.
      by rewrite (update_block_ok _ _ _ _ HB2). }
    assert (HB3 : blocks s3 !! b = Some B1).
    { subst s3. simpl. apply list_lookup_insert_eq. by eapply lookup_lt_Some. }
    assert (HG3 : graphs s3 !! graph B1 = Some G1).
    { subst s3 s2. simpl. apply list_lookup_insert_eq. by eapply lookup_lt_Some. }
    destruct (IH s3 B1 G1 HB3 HG3) as (s' & B' & G' & Hrun & HB' & Hm & Hp & Hg
                                       & HG' & Hpar & Hn & Hpg).
    exists s', B', G'. split.
    { simpl. by rewrite (bind_ok _ _ _ _ _ Hstep). }
    split; [done|]. split; [done|]. split; [done|]. split; [done|].
    split; [done|]. split; [|split; [|done]].
    + rewrite Hpar. simpl. rewrite length_app. simpl.
      rewrite <- app_assoc. simpl. fold n. by rewrite Nat.add_1_r.
    + rewrite Hn. simpl. by rewrite <- app_assoc.
Qed.

Lemma wf_declare b args :
  preserving well_formed _
    (for_each (λ arg,
       g <- block_graph b ;;
       anf_node <- new_node (Parameter_ g) ;;
       append_parameter b anf_node ;;
       write b arg anf_node) args).
Proof.
  apply Spec_for_each; auto using wf_ret, wf_bind. intros arg.
  apply wf_bind.
  { apply Spec_block_graph; auto using wf_ret, wf_bind, wf_get_block. }
  intros g. apply wf_bind; [apply wf_new_node_step|]. intros n.
  apply wf_bind; [apply wf_append_parameter|]. intros _. apply wf_write.
Qed.

Lemma bmo_declare b args :
  preserving block_map_ok _
    (for_each (λ arg,
       g <- block_graph b ;;
       anf_node <- new_node (Parameter_ g) ;;
       append_parameter b anf_node ;;
       write b arg anf_node) args).
Proof.
  apply Spec_for_each; auto using bmo_ret, bmo_bind. intros arg.
  apply bmo_bind; [apply bmo_block_graph|].
  intros g. apply bmo_bind; [apply bmo_new_node|]. intros n.
  apply bmo_bind; [apply bmo_append_parameter|]. intros _. apply bmo_write.
Qed.

(** X20. [Parser.parse] on a function definition that it lowers: the graph it
    returns is a new graph, the one of the function's first block;
    [parser.graph] is that graph; and its parameters are one [Parameter]
    node per argument of the function, in the order of the arguments, and
    nothing else: lowering the body adds no phi node to it.  The first
    block ends matured and without predecessors. *)
Theorem parse_builds_function_graph (name : string) (args : list string)
    (body : list ast.stmt) (s s' : state) (g : graph_id) :
  well_formed s →
  block_map_ok s →
  Parser_parse ns_contains parser fuel (ast.FunctionDef name args body) s =
    (Ok g, s') →
  g = length (graphs s) ∧
  parser_graph s' = Some g ∧
  (∃ G, graphs s' !! g = Some G ∧
        parameters G = seq (S (length (nodes s))) (length args) ∧
        ∀ p, p ∈ parameters G → nodes s' !! p = Some (Parameter_ g)) ∧
  (∃ B, blocks s' !! length (blocks s) = Some B ∧ graph B = g ∧
        matured B = true ∧ preds B = []).
Proof.
  intros W M H. unfold Parser_parse, Parser_parse_with in H.
  apply bind_inv in H as [([final fb] & s8 & H & Hg)|(? & _ & ?)]; [|done].
  simpl in Hg. unfold _process_function_with in H.
  (* the block *)
  rewrite (bind_ok _ _ _ _ _ (new_block_ok s)) in H.
  set (fb0 := length (blocks s)) in *. set (g0 := length (graphs s)) in *.
  set (B0 := mkBlock false ∅ [] ∅ ∅ g0) in *.
  set (s1 := mkState (nodes s) _ _ _ _) in H.
  assert (W1 : well_formed s1) by (by eapply wf_new_block; [exact W|]).
  assert (M1 : block_map_ok s1) by (by eapply bmo_new_block; [exact M|]).
  assert (HB1 : blocks s1 !! fb0 = Some B0).
  { subst s1 fb0. simpl. by rewrite lookup_app_r, Nat.sub_diag. }
  assert (Hfree : block_map s1 !! fb0 = None).
  { destruct (block_map s1 !! fb0) as [c|] eqn:Hc; [|done].
    destruct (M fb0 c Hc) as (B & HB & _). apply lookup_lt_Some in HB.
    subst fb0. lia. }
  (* its constant, and [parser.graph] *)
  apply bind_inv in H as [([] & s3 & Hhead & H)|(? & _ & ?)]; [|done].
  rewrite (bind_ok _ _ _ _ _ (get_block_function_ok s1 fb0 B0 M1 HB1)) in Hhead.
  rewrite Hfree in Hhead.
  set (s2 := mkState (nodes s1 ++ _) _ _ _ _) in Hhead.
  assert (W2 : well_formed s2).
  { eapply wf_get_block_function; [exact W1|].
    rewrite (get_block_function_ok s1 fb0 B0 M1 HB1), Hfree. reflexivity. }
  assert (M2 : block_map_ok s2).
  { eapply bmo_get_block_function; [exact M1|].
    rewrite (get_block_function_ok s1 fb0 B0 M1 HB1), Hfree. reflexivity. }
  assert (Hc2 : nodes s2 !! length (nodes s1) = Some (Constant (CGraph g0))).
  { subst s2. simpl. by rewrite lookup_app_r, Nat.sub_diag. }
  rewrite (bind_ok _ _ _ _ _ (get_node_ok _ _ _ Hc2)) in Hhead.
  unfold set_Parser_graph, bind, get, put in Hhead.
  injection Hhead as <-.
  set (s3 := set_parser_graph s2 (Some g0)) in *.
  assert (W3 : well_formed s3).
  { eapply wf_set_Parser_graph; [exact W2|]. reflexivity. }
  assert (M3 : block_map_ok s3).
  { eapply bmo_set_Parser_graph; [exact M2|]. reflexivity. }
  (* maturing *)
  assert (HB3 : blocks s3 !! fb0 = Some B0) by done.
  assert (HG3 : graphs s3 !! graph B0 = Some (mkGraph [] None)).
  { subst s3 s2 s1 g0. simpl. by rewrite lookup_app_r, Nat.sub_diag. }
  pose proof (mature_no_parameters fb0 B0 _ s3 HB3 HG3 eq_refl) as Hmat.
  rewrite (bind_ok _ _ _ _ _ Hmat) in H.
  set (B4 := mkBlock true _ _ _ _ _) in *.
  set (s4 := set_blocks s3 _) in *.
  assert (W4 : well_formed s4).
  { eapply (Spec_mature ns_contains parser (preserving well_formed));
      [..|exact W3|exact Hmat];
      auto using wf_ret, wf_raise, wf_bind, wf_get_node, wf_get_graph,
        wf_get_block, wf_new_node_step, wf_append_parameter, wf_register_phi,
        wf_write, wf_set_matured, wf_append_jump_argument. }
  assert (M4 : block_map_ok s4).
  { eapply (Spec_mature ns_contains parser (preserving block_map_ok));
      [..|exact M3|exact Hmat];
      auto using bmo_ret, bmo_raise, bmo_bind, bmo_get_node, bmo_get_graph,
        bmo_get_block, bmo_new_node, bmo_append_parameter, bmo_register_phi,
        bmo_write, bmo_set_matured, bmo_append_jump_argument. }
  assert (HB4 : blocks s4 !! fb0 = Some B4).
  { subst s4. simpl. apply list_lookup_insert_eq. by eapply lookup_lt_Some. }
  assert (HG4 : graphs s4 !! graph B4 = Some (mkGraph [] None)) by exact HG3.
  (* the parameters *)
  destruct (declare_parameters fb0 args s4 B4 _ HB4 HG4)
    as (s5 & B5 & G5 & Hdecl & HB5 & Hm5 & Hp5 & Hg5 & HG5 & Hpar5 & Hn5 & Hpg5).
  rewrite (bind_ok _ _ _ _ _ Hdecl) in H.
  pose proof (wf_declare _ _ _ _ _ W4 Hdecl) as W5.
  pose proof (bmo_declare _ _ _ _ _ M4 Hdecl) as M5.
  (* the function's own name *)
  pose proof (get_block_function_ok s5 fb0 B5 M5 HB5) as Hfn.
  rewrite (bind_ok _ _ _ _ _ Hfn) in H.
  set (s6 := mkState (nodes s5 ++ _) _ _ _ _) in *.
  pose proof (wf_get_block_function _ _ _ _ W5 Hfn) as W6.
  assert (HB6 : blocks s6 !! fb0 = Some B5) by done.
  pose proof (update_block_ok fb0
    (λ B, mkBlock (matured B) (<[name := length (nodes s5)]> (variables B))
            (preds B) (phi_nodes B) (jumps B) (graph B)) B5 s6 HB6) as Hwr.
  change (update_block fb0 _) with (write fb0 name (length (nodes s5))) in Hwr.
  rewrite (bind_ok _ _ _ _ _ Hwr) in H.
  set (B7 := mkBlock (matured B5) _ _ _ _ _) in *.
  set (s7 := set_blocks s6 _) in *.
  pose proof (wf_write _ _ _ _ _ _ W6 Hwr) as W7.
  assert (HB7 : blocks s7 !! fb0 = Some B7).
  { subst s7. simpl. apply list_lookup_insert_eq. by eapply lookup_lt_Some. }
  assert (HG7 : graphs s7 !! graph B7 = Some G5) by (by simpl; rewrite Hg5).
  (* the body *)
  apply bind_inv in H as [(final' & s9 & Hbody & H)|(? & _ & ?)]; [|done].
  unfold ret in H. injection H as E1 E2 E3. subst final' fb s9.
  destruct (good_process_statements ns_contains parser fuel fb0 body s7 final s8
              W7 Hbody) as [W8 S8].
  assert (Hlt : fb0 < length (blocks s7)) by (by eapply lookup_lt_Some).
  destruct (sb_block _ _ _ S8 fb0 B7 Hlt HB7) as (B8 & HB8 & Hm8 & Hp8 & Hg8);
    [by simpl; rewrite Hm5|].
  destruct (sb_parameters _ _ _ S8 fb0 B7 G5 Hlt HB7) as (G8 & HG8 & Hpar8);
    [by simpl; rewrite Hm5|by simpl; rewrite Hp5; simpl; lia|done|].
  apply block_graph_inv in Hg as [-> [(B & HB & ?)|[_ ?]]]; [|done].
  simplify_eq. simpl in *.
  assert (Hgraph : graph B = g0) by congruence.
  split; [done|]. split; [|split].
  - rewrite (sb_parser_graph _ _ _ S8), Hgraph. exact Hpg5.
  - exists G8. rewrite Hgraph. rewrite Hg5 in HG8. split; [exact HG8|].
    assert (Hseq : parameters G8 = seq (S (length (nodes s))) (length args)).
    { rewrite Hpar8, Hpar5. simpl. subst s4 s3 s2 s1. simpl.
      rewrite length_app. simpl. by rewrite Nat.add_1_r. }
    split; [done|]. intros p Hp.
    rewrite Hseq in Hp. apply elem_of_seq in Hp.
    assert (Hn7 : nodes s7 !! p = Some (Parameter_ g0)).
    { subst s7 s6. simpl. rewrite Hn5. apply lookup_app_l_Some.
      subst s4 s3 s2 s1. simpl. rewrite lookup_app_r; rewrite length_app; simpl;
        [|lia].
      apply lookup_replicate. split; [done|]. lia. }
    destruct (ext_nodes _ _ (extending_process_statements _ _ _ _ _ _ _ _ Hbody)
                p _ Hn7) as (x' & Hx' & Hgrow).
    simpl in Hgrow. by subst x'.
  - exists B. split; [done|]. split; [done|]. split; [done|].
    rewrite Hp8. simpl. by rewrite Hp5.
Qed.

End FunctionGraph.

Section KeptWitnesses.
Import Parser ParserSpec ParserMore ParserKept ParserSamples.

Lemma wf_entry_state : well_formed entry_state.
Proof.
  split.
  - intros [|b] B HB; [|done]. injection HB as <-. by eexists.
  - intros [|b1] [|b2] B1 B2 H1 H2 _; done.
  - intros [|b] B t j HB Hj; [|done]. injection HB as <-. done.
  - intros [|b] B t j HB Hj; [|done]. injection HB as <-. done.
  - intros b c Hc. done.
Qed.

Lemma matured_blocks_are_settled_witness :
  ParserKept.settled entry_state
    (read nowhere sample_parser 1 0 "y" entry_state).2.
Proof.
  pose proof wf_entry_state as W.
  apply (proj1 (proj2 (matured_blocks_are_settled nowhere sample_parser 1
                         entry_state W)) 0 "y" 4).
  vm_compute. reflexivity.
Defined.

Lemma parse_builds_function_graph_witness :
  parser_graph loop_state = Some 0 ∧
  ∃ G, graphs loop_state !! 0 = Some G ∧ parameters G = [1].
Proof.
  assert (M : block_map_ok empty_state) by (by intros b c ?).
  destruct (parse_builds_function_graph nowhere sample_parser 10 "f" ["n"]
              (match loop_def with ast.FunctionDef _ _ b => b | _ => [] end)
              empty_state loop_state 0 wf_empty_state M)
    as (_ & Hpg & (G & HG & Hpar & _) & _).
  { vm_compute. reflexivity. }
  split; [exact Hpg|]. exists G. split; [exact HG|exact Hpar].
Defined.

End KeptWitnesses.
